(** * Chat session and behaviour log of qwen-code: a shallow embedding

    The development follows two source files:
    - [packages/core/src/core/geminiChat.ts]: the chat session
      ([GeminiChat]), its history curation, request classification and the
      telemetry it emits around every exchange;
    - [packages/core/src/telemetry/userBehaviorLogger.ts]: the rolling
      JSONL log writer ([UserBehaviorLogger]).

    Conventions.  A TypeScript optional field [f?: T] is an [option T];
    [undefined] is [None].  Strings are [string]s whose characters stand for
    the code units of the source string (the keyword tests of the source are
    all ASCII).  A [while] loop whose termination depends on the data is a
    [Fixpoint] on a fuel argument; [None] is "the fuel ran out". *)

From stdpp Require Import base option list strings gmap fin_maps pretty.
From Stdlib Require Import Ascii NArith ZArith Lia.

Local Open Scope string_scope.
Local Open Scope list_scope.

(** ** Conversation data ([Part], [Content] of [@google/genai]) *)

(** A [Part] is an object with optional fields.  The fields the session reads
    are kept; [otherKeys] counts the further own keys of the object
    ([inlineData], [fileData], ...), which only [Object.keys(part).length]
    observes. *)
Record Part := mkPart {
  text : option string;
  thought : option bool;
  functionCall : option string;
  functionResponse : option string;
  otherKeys : nat;
}.

Record Content := mkContent {
  role : option string;
  parts : option (list Part);
}.

Definition textPart (s : string) : Part :=
  mkPart (Some s) None None None 0.
Definition thoughtPart (s : string) : Part :=
  mkPart (Some s) (Some true) None None 0.
Definition callPart (name : string) : Part :=
  mkPart None None (Some name) None 0.
Definition resultPart (name : string) : Part :=
  mkPart None None None (Some name) 0.

Definition userTurn (s : string) : Content :=
  mkContent (Some "user") (Some [textPart s]).
Definition modelTurn (s : string) : Content :=
  mkContent (Some "model") (Some [textPart s]).
(** The placeholder [recordHistory] stores for an empty model answer. *)
Definition emptyModelTurn : Content :=
  mkContent (Some "model") (Some []).

(** [Object.keys(part).length] *)
Definition ownKey {A} (o : option A) : nat :=
  match o with Some _ => 1 | None => 0 end.

Definition keyCount (p : Part) : nat :=
  ownKey (text p) + ownKey (thought p) + ownKey (functionCall p)
  + ownKey (functionResponse p) + otherKeys p.

(** JavaScript truthiness of the optional fields. *)
Definition truthyString (o : option string) : bool :=
  match o with Some s => negb (bool_decide (s = "")) | None => false end.
Definition truthyBool (o : option bool) : bool :=
  match o with Some b => b | None => false end.
Definition truthyObj {A} (o : option A) : bool :=
  match o with Some _ => true | None => false end.

(** The body of the [for] loop of [isValidContent] for one part: [false] is
    the early [return false].  (The elements of [parts] are [Part]s, so the
    guard [part === undefined] never fires.) *)
Definition partOk (p : Part) : bool :=
  if bool_decide (keyCount p = 0) then false
  else if negb (truthyBool (thought p)) && bool_decide (text p = Some "")
       then false
       else true.

Definition isValidContent (content : Content) : bool :=
  match parts content with
  | None => false
  | Some [] => false
  | Some ps => forallb partOk ps
  end.

Definition isUser (c : Content) : bool := bool_decide (role c = Some "user").
Definition isModel (c : Content) : bool := bool_decide (role c = Some "model").

(** [validateHistory]: [inl msg] is the thrown [Error]. *)
Definition roleText (c : Content) : string :=
  match role c with Some r => r | None => "undefined" end.

Fixpoint validateHistory (history : list Content) : string + unit :=
  match history with
  | [] => inr ()
  | content :: rest =>
      if negb (isUser content) && negb (isModel content)
      then inl ("Role must be user or model, but got "
                +:+ roleText content +:+ ".")
      else validateHistory rest
  end.

(** ** History curation ([extractCuratedHistory]) *)

Section Curation.
(** The loop only reads the role of an entry and asks whether it is valid,
    so it is written once over any representation [A] of the entries: the
    values themselves here, references into the object store further
    down. *)
Context {A : Type} (user model valid : A → bool).

(** [curatedHistory.pop()] *)
Definition pop (l : list A) : list A := removelast l.

(** The inner [while (i < length && history[i].role === 'model')].  The
    argument [rest] is [history.slice(i)]; the result is the final
    [modelOutput], [isValid] and [history.slice(i)]. *)
Fixpoint modelRun (rest modelOutput : list A) (isValid : bool)
  : list A * bool * list A :=
  match rest with
  | c :: tl =>
      if model c
      then modelRun tl (modelOutput ++ [c])
             (if isValid && negb (valid c) then false else isValid)
      else (modelOutput, isValid, rest)
  | [] => (modelOutput, isValid, [])
  end.

(** The outer [while (i < length)]: one unit of fuel per test of the loop
    condition. *)
Fixpoint curateLoop (fuel : nat) (rest curatedHistory : list A)
  : option (list A) :=
  match fuel with
  | 0 => None
  | S fuel' =>
      match rest with
      | [] => Some curatedHistory
      | c :: tl =>
          if user c
          then curateLoop fuel' tl (curatedHistory ++ [c])
          else
            let '(modelOutput, isValid, rest') := modelRun rest [] true in
            curateLoop fuel' rest'
              (if isValid then curatedHistory ++ modelOutput
               else pop curatedHistory)
      end
  end.

(** An entry whose role is [user] or [model] is consumed by every pass of
    the outer loop, so [S (length h)] tests of the condition are enough;
    with any other role the loop of the source never ends, and the fuel
    runs out whatever it is ([curateLoop_stuck] below). *)
Definition curate (comprehensiveHistory : list A) : option (list A) :=
  match comprehensiveHistory with
  | [] => Some []
  | _ => curateLoop (S (length comprehensiveHistory)) comprehensiveHistory []
  end.
End Curation.

Definition extractCuratedHistory (comprehensiveHistory : list Content)
  : option (list Content) :=
  curate isUser isModel isValidContent comprehensiveHistory.

(** ** Vocabulary for the statements about curation *)

Section CurationSpec.
Context {A : Type} (user model valid : A → bool).

Definition startsModel (rest : list A) : bool :=
  match rest with c :: _ => model c | [] => false end.

(** Entries the loop can get past: role [user] or [model]. *)
Definition knownRole (c : A) : bool := user c || model c.

(** Entries that survive curation. *)
Definition keeps (c : A) : bool := user c || (model c && valid c).

(** *** What survives, entry by entry

    [runValid rest]: every turn of the model run at the head of [rest] is
    content-valid (true when [rest] starts with no model turn). *)
Fixpoint runValid (rest : list A) : bool :=
  match rest with
  | c :: tl => if model c then valid c && runValid tl else true
  | [] => true
  end.

(** The curated history as the specification words it: a user turn stays
    unless the model run right after it has an invalid turn; a model turn
    stays when every turn of its maximal run is valid.  [before] tells
    whether the turns of the current run seen so far are all valid. *)
Fixpoint curatedSpec (before : bool) (h : list A) : list A :=
  match h with
  | [] => []
  | c :: tl =>
      if user c
      then (if runValid tl then [c] else []) ++ curatedSpec true tl
      else if model c
      then (if before && valid c && runValid tl then [c] else [])
             ++ curatedSpec (before && valid c) tl
      else curatedSpec true tl
  end.
End CurationSpec.

(** ** The behaviour log ([UserBehaviorLogger]) *)

(** [Config], as far as the session and the logger read it. *)
Record Config := mkConfig {
  getSessionId : string;
  getTelemetryEnabled : bool;
  getModel : string;
  getAuthType : option string;
  getQuotaErrorOccurred : bool;
}.

Inductive EventType :=
  | prompt_submit | prompt_cancel | typing_start | api_request
  | api_response | api_error | flash_fallback | loop_detected
  | at_command | shell_command.

(** [UserBehaviorEvent]; numbers are integers of the source's ranges. *)
Record UserBehaviorEvent := mkEvent {
  eventType : EventType;
  timestamp : Z;
  evModel : option string;
  promptId : option string;
  requestId : option string;
  evContent : option string;
  inputTokenCount : option Z;
  outputTokenCount : option Z;
  durationMs : option Z;
  evError : option string;
  errorType : option string;
  evAuthType : option string;
  operationType : option string;
  toolsCalled : option (list string);
  requestContext : option string;
  estimatedTokens : option Z;
  conversationTurn : option Z;
  hasFileContext : option bool;
  systemPromptLength : option Z;
  responseType : option string;
}.

(** The object [logEvent] serialises: the event with the session id, the two
    identity hashes and the ISO timestamp spread over it. *)
Record LogEntry := mkLogEntry {
  entryEvent : UserBehaviorEvent;
  entrySessionId : string;
  entryStudentIdHash : string;
  entryMachineIdHash : string;
  entryTimestamp : string;
}.

(** A log file as the writer sees it: [fs.statSync(path).size] and the lines
    this process appended, oldest first.  What a file held before is known
    by its size only. *)
Record file := mkFile {
  fsize : N;
  appended : list string;
}.

(** The [logs/] directory: path to file. *)
Abbreviation fileSystem := (gmap string file).

(** [fs.existsSync] *)
Definition existsSync (fs : fileSystem) (path : string) : bool :=
  bool_decide (is_Some (fs !! path)).

(** [Buffer.byteLength(s, 'utf8')]: a line is the string of its bytes. *)
Definition byteLength (s : string) : N := N.of_nat (String.length s).

(** [fs.appendFileSync]: creates the file when it is missing. *)
Definition appendFileSync (fs : fileSystem) (path data : string)
  : fileSystem :=
  let old := default (mkFile 0 []) (fs !! path) in
  <[path := mkFile (fsize old + byteLength data) (appended old ++ [data])]> fs.

Record UserBehaviorLogger := mkLogger {
  config : Config;
  logDir : string;
  currentLogFilePath : string;
  currentRollNumber : nat;
  studentIdHash : string;
  machineIdHash : string;
}.

(** [maxFileSize = 10 * 1024 * 1024] *)
Definition maxFileSize : N := 10 * 1024 * 1024.

(** [path.join(dir, name)] for a directory as [path.join] returns one, not
    the root, and a name that holds no separator: then the normalisation of
    [path.join] changes nothing.  [path.join] itself is [pathJoinPosix]
    further down. *)
Definition pathJoin (dir name : string) : string := dir +:+ "/" +:+ name.

(** [generateLogFilePath]; [dateStr] is
    [new Date().toISOString().split('T')[0]], read off the clock by the
    caller. *)
Definition rollSuffix (rollNumber : nat) : string :=
  if bool_decide (0 < rollNumber) then "-" +:+ pretty rollNumber else "".

Definition logFileName (dateStr sessionId : string) (rollNumber : nat)
  : string :=
  dateStr +:+ "-" +:+ String.substring 0 8 sessionId
  +:+ rollSuffix rollNumber +:+ ".jsonl".

Definition generateLogFilePath (lg : UserBehaviorLogger) (dateStr : string)
  : string :=
  pathJoin (logDir lg)
    (logFileName dateStr (getSessionId (config lg)) (currentRollNumber lg)).

Definition setRoll (lg : UserBehaviorLogger) (n : nat) : UserBehaviorLogger :=
  mkLogger (config lg) (logDir lg) (currentLogFilePath lg) n
    (studentIdHash lg) (machineIdHash lg).

Definition setPath (lg : UserBehaviorLogger) (p : string)
  : UserBehaviorLogger :=
  mkLogger (config lg) (logDir lg) p (currentRollNumber lg)
    (studentIdHash lg) (machineIdHash lg).

(** The constructor, after [logs/] has been made. *)
Definition newLogger (cfg : Config) (cwd student machine dateStr : string)
  : UserBehaviorLogger :=
  let lg := mkLogger cfg (pathJoin cwd "logs") "" 0 student machine in
  setPath lg (generateLogFilePath lg dateStr).

(** [checkAndRollFile]: the match is [fs.existsSync] followed by
    [fs.statSync] on the active path. *)
Definition checkAndRollFile (lg : UserBehaviorLogger) (fs : fileSystem)
    (logLine dateStr : string) : UserBehaviorLogger :=
  match fs !! currentLogFilePath lg with
  | Some stats =>
      let projectedSize := (fsize stats + byteLength logLine)%N in
      if bool_decide (maxFileSize < projectedSize)%N
      then
        let lg1 := setRoll lg (S (currentRollNumber lg)) in
        setPath lg1 (generateLogFilePath lg1 dateStr)
      else lg
  | None => lg
  end.

(** The line feed that ends every log line. *)
Definition newline : string := String "010"%char "".

Section LogWriter.
(** [safeJsonStringify] and [Date.prototype.toISOString] are not part of the
    files at hand; the writer is parametrised by them. *)
Context (safeJsonStringify : LogEntry → string) (toISOString : Z → string).

Definition logLineOf (lg : UserBehaviorLogger) (event : UserBehaviorEvent)
  : string :=
  safeJsonStringify
    (mkLogEntry event (getSessionId (config lg)) (studentIdHash lg)
       (machineIdHash lg) (toISOString (timestamp event)))
  +:+ newline.

(** [logEvent]: the logger and the directory after the call.  [dateStr] is
    the date on the clock during the call.  This is the [try] block of the
    source run to its end: the time stamp is one [toISOString] prints and
    the directory raises no error.  The call with its [catch] is
    [logEventOrCatch] further down. *)
Definition logEvent (lg : UserBehaviorLogger) (fs : fileSystem)
    (event : UserBehaviorEvent) (dateStr : string)
  : UserBehaviorLogger * fileSystem :=
  if negb (getTelemetryEnabled (config lg)) then (lg, fs)
  else
    let logLine := logLineOf lg event in
    let lg' := checkAndRollFile lg fs logLine dateStr in
    (lg', appendFileSync fs (currentLogFilePath lg') logLine).

(** A sequence of calls, each with the date on the clock at its time. *)
Fixpoint logEvents (lg : UserBehaviorLogger) (fs : fileSystem)
    (calls : list (UserBehaviorEvent * string))
  : UserBehaviorLogger * fileSystem :=
  match calls with
  | [] => (lg, fs)
  | (event, dateStr) :: rest =>
      let '(lg', fs') := logEvent lg fs event dateStr in
      logEvents lg' fs' rest
  end.
End LogWriter.

(** A date as [toISOString] prints it for the years 0 to 9999:
    [YYYY-MM-DD]. *)
Definition isDateStr (d : string) : Prop := String.length d = 10.

(** A logger whose active path is one [generateLogFilePath] made for its
    current roll number, as the constructor and every roll leave it. *)
Definition pathInSync (lg : UserBehaviorLogger) : Prop :=
  ∃ d, isDateStr d ∧ currentLogFilePath lg = generateLogFilePath lg d.

(** A file left behind by a roll: its roll number is below the logger's. *)
Definition rolledPast (lg : UserBehaviorLogger) (old : string) : Prop :=
  ∃ lg0 d0, isDateStr d0 ∧ old = generateLogFilePath lg0 d0
            ∧ logDir lg0 = logDir lg
            ∧ getSessionId (config lg0) = getSessionId (config lg)
            ∧ currentRollNumber lg0 < currentRollNumber lg.

(** ** Request classification ([RequestClassifier] helpers of [GeminiChat]) *)

(** [s.includes(needle)] *)
Fixpoint includes (needle s : string) : bool :=
  String.prefix needle s
  || match s with
     | EmptyString => false
     | String _ s' => includes needle s'
     end.

(** [s.toLowerCase()] on the ASCII letters; the keywords looked for below
    are ASCII, and no other character lowers to an ASCII letter that occurs
    in one of them. *)
Definition lowerChar (c : ascii) : ascii :=
  let n := nat_of_ascii c in
  if bool_decide (65 ≤ n ≤ 90)%nat then ascii_of_nat (n + 32) else c.

Fixpoint toLowerCase (s : string) : string :=
  match s with
  | EmptyString => EmptyString
  | String c s' => String (lowerChar c) (toLowerCase s')
  end.

(** [[...new Set(items)]]: the items in the order of their first
    occurrence. *)
Fixpoint setFrom (items seen : list string) : list string :=
  match items with
  | [] => seen
  | x :: rest =>
      setFrom rest (if bool_decide (x ∈ seen) then seen else seen ++ [x])
  end.

(** [contents.slice().reverse().find(c => c.role === 'user')] *)
Definition latestUserContent (contents : list Content) : option Content :=
  List.find isUser (rev contents).

(** The seven [if]s of [_extractToolsCalled] on one lowered text. *)
Definition whenAny (needles : list string) (s tool : string) : list string :=
  if existsb (λ needle, includes needle s) needles then [tool] else [].

Definition toolsOfText (t : string) : list string :=
  whenAny ["@"; "read"; "file"] t "read_file"
  ++ whenAny ["write"; "create"; "save"] t "write_file"
  ++ whenAny ["edit"; "modify"; "change"] t "replace"
  ++ whenAny ["search"; "find"; "grep"] t "search_file_content"
  ++ whenAny ["list"; "ls"; "directory"] t "list_directory"
  ++ whenAny ["run"; "execute"; "bash"; "command"] t "run_shell_command"
  ++ whenAny ["web"; "http"; "url"] t "web_fetch".

(** The body of the loop over the parts for one part. *)
Definition toolsOfPart (part : Part) : list string :=
  match text part with
  | Some t => if truthyString (Some t) then toolsOfText (toLowerCase t) else []
  | None => []
  end.

Definition potentialTools (contents : list Content) : list string :=
  match latestUserContent contents with
  | Some c =>
      match parts c with
      | Some ps => flat_map toolsOfPart ps
      | None => []
      end
  | None => []
  end.

Definition _extractToolsCalled (contents : list Content) : list string :=
  setFrom (potentialTools contents) [].

Definition _detectOperationType (contents : list Content) : string :=
  if existsb
       (λ c, isModel c
             && match parts c with
                | Some ps => existsb (λ p, truthyObj (functionCall p)) ps
                | None => false
                end) contents
  then "tool_call"
  else if bool_decide (1 < length contents) then "chat"
  else if bool_decide (length contents = 1) then "chat"
  else "unknown".

Definition _determineRequestContext (contents : list Content) : string :=
  match last contents with
  | None => "new"
  | Some lastContent =>
      if isUser lastContent
         && match parts lastContent with
            | Some ps => existsb (λ p, truthyObj (functionResponse p)) ps
            | None => false
            end
      then "tool_result"
      else if bool_decide (1 < length contents) then "continuation"
      else "new"
  end.

(** [Math.ceil(n / d)] for a natural [n] and a positive [d]. *)
Definition ceilDiv (n d : Z) : Z := ((n + d - 1) / d)%Z.

Definition textLength (p : Part) : Z :=
  match text p with
  | Some t =>
      if truthyString (Some t) then ceilDiv (Z.of_nat (String.length t)) 4
      else 0
  | None => 0
  end.

Definition _estimateTokens (contents : list Content) : Z :=
  foldl (λ tokenCount c,
           match parts c with
           | Some ps => foldl (λ n p, n + textLength p)%Z tokenCount ps
           | None => tokenCount
           end) 0%Z contents.

Definition fileMarkers : list string :=
  ["file:"; ".txt"; ".js"; ".ts"; ".py"; ".json"].

Definition _hasFileContext (contents : list Content) : bool :=
  existsb
    (λ c, match parts c with
          | Some ps =>
              existsb
                (λ p, match text p with
                      | Some t =>
                          truthyString (Some t)
                          && existsb (λ m, includes m t) fileMarkers
                      | None => false
                      end) ps
          | None => false
          end) contents.

(** The shapes [_getSystemPromptLength] tells apart. *)
Inductive SystemInstruction :=
  | InstructionString (s : string)
  | InstructionParts (ps : option (list Part))
  | InstructionText (t : option string)
  | InstructionOther.

Definition orEmpty (o : option string) : string :=
  match o with Some s => s | None => "" end.

Definition _getSystemPromptLength (systemInstruction : option SystemInstruction)
  : Z :=
  match systemInstruction with
  | None | Some (InstructionString "") => 0
  | Some (InstructionString s) => Z.of_nat (String.length s)
  | Some (InstructionParts ps) =>
      Z.of_nat
        (String.length
           (match ps with
            | Some ps => foldr (λ p acc, orEmpty (text p) +:+ acc) "" ps
            | None => ""
            end))
  | Some (InstructionText t) => Z.of_nat (String.length (orEmpty t))
  | Some InstructionOther => 0
  end%Z.

(** ** Responses and telemetry events *)

Record UsageMetadata := mkUsage {
  promptTokenCount : option Z;
  candidatesTokenCount : option Z;
  totalTokenCount : option Z;
}.

Record Candidate := mkCandidate {
  content : option Content;
}.

Record GenerateContentResponse := mkResponse {
  candidates : option (list Candidate);
  usageMetadata : option UsageMetadata;
  automaticFunctionCallingHistory : option (list Content);
}.

(** What was thrown: an [Error] object, or any other value with its
    [String(...)] rendering. *)
Inductive Thrown :=
  | ErrorObject (name message : string)
  | OtherValue (shown : string).

(** The calls the session makes into [telemetry/loggers.js], each with the
    event object it builds ([ApiRequestEvent], [ApiResponseEvent],
    [ApiErrorEvent] of [telemetry/types.js], fields in the order of the
    constructor call). *)
Inductive TelemetryEvent :=
  | ApiRequestEvent (model prompt_id requestId : string)
      (requestContents : list Content) (operationType : string)
      (toolsCalled : list string) (requestContext : string)
      (estimatedTokens conversationTurn : Z) (hasFileContext : bool)
      (systemPromptLength : Z)
  | ApiResponseEvent (model : string) (durationMs : Z)
      (prompt_id requestId : string) (authType : option string)
      (usage : UsageMetadata) (responseType : string)
  | ApiErrorEvent (model errorMessage : string) (durationMs : Z)
      (prompt_id : string) (authType : option string) (errorType : string).

Definition isResponseEvent (e : TelemetryEvent) : bool :=
  match e with ApiResponseEvent _ _ _ _ _ _ _ => true | _ => false end.
Definition isErrorEvent (e : TelemetryEvent) : bool :=
  match e with ApiErrorEvent _ _ _ _ _ _ => true | _ => false end.

(** The [api_response] events emitted for one correlation id. *)
Definition isResponseFor (requestId : string) (e : TelemetryEvent) : bool :=
  match e with
  | ApiResponseEvent _ _ _ rid _ _ _ => bool_decide (rid = requestId)
  | _ => false
  end.

Definition responsesFor (requestId : string) (es : list TelemetryEvent)
  : list TelemetryEvent :=
  List.filter (isResponseFor requestId) es.

(** [isValidResponse] *)
Definition isValidResponse (response : GenerateContentResponse) : bool :=
  match candidates response with
  | None | Some [] => false
  | Some (c :: _) =>
      match content c with
      | None => false
      | Some ct => isValidContent ct
      end
  end.

(** [response.candidates?.[0]?.content] *)
Definition firstContent (response : GenerateContentResponse)
  : option Content :=
  match candidates response with
  | Some (c :: _) => content c
  | _ => None
  end.

(** What [JSON.parse(responseText)] gives back for the two texts the session
    passes: the response of [sendMessage], or the array of the collected
    chunks of a stream. *)
Inductive ParsedResponse :=
  | ParsedObject (response : GenerateContentResponse)
  | ParsedArray (chunks : list GenerateContentResponse).

Definition candidateHas (f : Part → bool) (c : Candidate) : bool :=
  match content c with
  | Some ct =>
      match parts ct with Some ps => existsb f ps | None => false end
  | None => false
  end.

Definition _detectResponseType (response : ParsedResponse) : string :=
  match response with
  | ParsedArray _ => "error"
  | ParsedObject r =>
      match candidates r with
      | None => "error"
      | Some cs =>
          let hasToolCalls :=
            existsb (candidateHas (λ p, truthyObj (functionCall p))) cs in
          let hasText :=
            existsb (candidateHas (λ p, truthyString (text p))) cs in
          if hasToolCalls && hasText then "mixed"
          else if hasToolCalls then "tool_call"
          else if hasText then "text_response"
          else "error"
      end
  end.

(** [getFinalUsageMetadata] *)
Definition getFinalUsageMetadata (chunks : list GenerateContentResponse)
  : option UsageMetadata :=
  match List.find (λ chunk, truthyObj (usageMetadata chunk)) (rev chunks) with
  | Some lastChunkWithMetadata => usageMetadata lastChunkWithMetadata
  | None => None
  end.

(** ** The chat session ([GeminiChat]) *)

(** The fields of the session, and [emitted]: the telemetry calls made so
    far, oldest first.  [loggedResponses] is the [Set] of the source in
    insertion order. *)
Record GeminiChat := mkChat {
  chatConfig : Config;
  systemInstruction : option SystemInstruction;
  history : list Content;
  loggedResponses : list string;
  emitted : list TelemetryEvent;
}.

Definition emit (s : GeminiChat) (e : TelemetryEvent) : GeminiChat :=
  mkChat (chatConfig s) (systemInstruction s) (history s)
    (loggedResponses s) (emitted s ++ [e]).

Definition withHistory (s : GeminiChat) (h : list Content) : GeminiChat :=
  mkChat (chatConfig s) (systemInstruction s) h (loggedResponses s)
    (emitted s).

Definition withConfig (s : GeminiChat) (c : Config) : GeminiChat :=
  mkChat c (systemInstruction s) (history s) (loggedResponses s) (emitted s).

Definition withLogged (s : GeminiChat) (ids : list string) : GeminiChat :=
  mkChat (chatConfig s) (systemInstruction s) (history s) ids (emitted s).

(** [getHistory(curated)] on values; the copy made by [structuredClone] is
    the subject of the object store further down. *)
Definition getHistory (s : GeminiChat) (curated : bool)
  : option (list Content) :=
  if curated then extractCuratedHistory (history s) else Some (history s).

(** [_logApiRequest]; [requestId] is what [crypto.randomUUID()] returned. *)
Definition _logApiRequest (s : GeminiChat) (contents : list Content)
    (model prompt_id requestId : string) : GeminiChat :=
  emit s
    (ApiRequestEvent model prompt_id requestId contents
       (_detectOperationType contents) (_extractToolsCalled contents)
       (_determineRequestContext contents) (_estimateTokens contents)
       (ceilDiv (Z.of_nat (length contents)) 2) (_hasFileContext contents)
       (_getSystemPromptLength (systemInstruction s))).

(** [_logApiResponse].  The test and the insertion on [loggedResponses] are
    commented out in the source ("DEBUG: Temporarily disable duplicate
    prevention"), so they are absent here; the clean-up of the set is
    there. *)
Definition _logApiResponse (s : GeminiChat) (durationMs : Z)
    (prompt_id requestId : string) (usageMetadata : option UsageMetadata)
    (response : ParsedResponse) : GeminiChat :=
  match usageMetadata with
  | None => s
  | Some usage =>
      let s1 :=
        if bool_decide (100 < length (loggedResponses s))
        then withLogged s (drop 50 (loggedResponses s))
        else s in
      emit s1
        (ApiResponseEvent (getModel (chatConfig s1)) durationMs prompt_id
           requestId (getAuthType (chatConfig s1)) usage
           (_detectResponseType response))
  end.

(** [error instanceof Error ? error.message : String(error)] and
    [error instanceof Error ? error.name : 'unknown'] *)
Definition errorMessageOf (error : Thrown) : string :=
  match error with ErrorObject _ m => m | OtherValue v => v end.
Definition errorTypeOf (error : Thrown) : string :=
  match error with ErrorObject n _ => n | OtherValue _ => "unknown" end.

(** [_logApiError] *)
Definition _logApiError (s : GeminiChat) (durationMs : Z) (error : Thrown)
    (prompt_id : string) : GeminiChat :=
  let errorMessage := errorMessageOf error in
  let errorType := errorTypeOf error in
  emit s
    (ApiErrorEvent (getModel (chatConfig s)) errorMessage durationMs
       prompt_id (getAuthType (chatConfig s)) errorType).

(** [isTextContent] and [isThoughtContent] *)
Definition isTextContent (c : option Content) : bool :=
  match c with
  | Some c =>
      isModel c
      && match parts c with
         | Some (p :: _) => truthyString (text p)
         | _ => false
         end
  | None => false
  end.

Definition isThoughtContent (c : option Content) : bool :=
  match c with
  | Some c =>
      isModel c
      && match parts c with
         | Some (p :: _) => bool_decide (thought p = Some true)
         | _ => false
         end
  | None => false
  end.

(** The merge of two text contents: the text of the first part of [c] is
    appended to that of [lastContent], the further parts of [c] are
    pushed. *)
Definition setText (p : Part) (t : string) : Part :=
  mkPart (Some t) (thought p) (functionCall p) (functionResponse p)
    (otherKeys p).

Definition mergeText (lastContent c : Content) : Content :=
  match parts lastContent, parts c with
  | Some (p :: ps), Some (q :: qs) =>
      mkContent (role lastContent)
        (Some (setText p (orEmpty (text p) +:+ orEmpty (text q))
                 :: ps ++ qs))
  | _, _ => lastContent
  end.

(** The consolidation loop of [recordHistory] over [outputContents], on
    values: the merge of the source is made in place, which comes to the
    same when the contents are objects of their own (see [consolidateIn]
    further down for the loop on objects). *)
Definition consolidate (outputContents : list Content) : list Content :=
  foldl
    (λ consolidated c,
       if isThoughtContent (Some c) then consolidated
       else
         match last consolidated with
         | Some lastContent =>
             if isTextContent (Some lastContent) && isTextContent (Some c)
             then removelast consolidated ++ [mergeText lastContent c]
             else consolidated ++ [c]
         | None => consolidated ++ [c]
         end)
    [] outputContents.

(** What [await retryWithBackoff(apiCall, ...)] came to: the configuration
    after it (the fallback hook may have switched the model) and the value
    it resolved to or the error it rejected with. *)
Record RetryRun (A : Type) := mkRun {
  configAfter : Config;
  settled : A + Thrown;
}.
Arguments mkRun {A} _ _.
Arguments configAfter {A} _.
Arguments settled {A} _.

Section Session.
(** [isFunctionResponse] of [utils/messageInspectors.js] is not part of the
    files at hand. *)
Context (isFunctionResponse : Content → bool).

(** [recordHistory]: the history after the call; [None] when the curation of
    the automatic-function-calling history does not end. *)
Definition recordHistory (hist : list Content) (userInput : Content)
    (modelOutput : list Content)
    (automaticFunctionCallingHistory : option (list Content))
  : option (list Content) :=
  let nonThoughtModelOutput :=
    List.filter (λ c, negb (isThoughtContent (Some c))) modelOutput in
  let outputContents :=
    if bool_decide (0 < length nonThoughtModelOutput)
       && forallb (λ c, truthyObj (role c)) nonThoughtModelOutput
    then nonThoughtModelOutput
    else if bool_decide (length nonThoughtModelOutput = 0)
            && bool_decide (0 < length modelOutput)
    then []
    else if negb (isFunctionResponse userInput) then [emptyModelTurn]
    else [] in
  let hasAfc :=
    match automaticFunctionCallingHistory with
    | Some (_ :: _) => true
    | _ => false
    end in
  hist1 ←
    match automaticFunctionCallingHistory with
    | Some (c :: afc) =>
        curated ← extractCuratedHistory (c :: afc); Some (hist ++ curated)
    | _ => Some (hist ++ [userInput])
    end;
  let consolidatedOutputContents := consolidate outputContents in
  match consolidatedOutputContents with
  | [] => Some hist1
  | first :: others =>
      match last hist1 with
      | Some lastHistoryEntry =>
          if negb hasAfc && isTextContent (Some lastHistoryEntry)
             && isTextContent (Some first)
          then Some (removelast hist1 ++ [mergeText lastHistoryEntry first]
                       ++ others)
          else Some (hist1 ++ consolidatedOutputContents)
      | None => Some (hist1 ++ consolidatedOutputContents)
      end
  end.

(** [sendMessage], first part: from the call to the invocation of the
    transport.  Returns the session and [requestContents]; [None] when the
    curation of the history does not end. *)
Definition sendMessage_request (s : GeminiChat) (userContent : Content)
    (prompt_id requestId : string) : option (GeminiChat * list Content) :=
  curated ← getHistory s true;
  let requestContents := curated ++ [userContent] in
  Some (_logApiRequest s requestContents (getModel (chatConfig s)) prompt_id
          requestId,
        requestContents).

(** Second part, the transport has resolved: the response event, ... *)
Definition sendMessage_logResponse (s : GeminiChat)
    (prompt_id requestId : string) (durationMs : Z)
    (response : GenerateContentResponse) : GeminiChat :=
  _logApiResponse s durationMs prompt_id requestId (usageMetadata response)
    (ParsedObject response).

(** ... and, after the next [await], the commit of the exchange to the
    history (the body of the function stored in [sendPromise]). *)
Definition sendMessage_record (s : GeminiChat) (userContent : Content)
    (response : GenerateContentResponse) : option GeminiChat :=
  curated ← getHistory s true;
  let index := length curated in
  let automaticFunctionCallingHistory :=
    match automaticFunctionCallingHistory response with
    | Some full => Some (drop index full)
    | None => Some []
    end in
  let modelOutput :=
    match firstContent response with Some c => [c] | None => [] end in
  hist ← recordHistory (history s) userContent modelOutput
           automaticFunctionCallingHistory;
  Some (withHistory s hist).

Definition sendMessage_commit (s : GeminiChat) (userContent : Content)
    (prompt_id requestId : string) (durationMs : Z)
    (response : GenerateContentResponse) : option GeminiChat :=
  sendMessage_record
    (sendMessage_logResponse s prompt_id requestId durationMs response)
    userContent response.

(** Second part, the transport has failed: the [catch] block. *)
Definition sendMessage_fail (s : GeminiChat) (prompt_id : string)
    (durationMs : Z) (error : Thrown) : GeminiChat :=
  _logApiError s durationMs error prompt_id.

(** [sendMessage] run on its own from call to return.  [startTime] and
    [endTime] are the two readings of [Date.now()]; the result is the
    session and what the caller gets: the response, or the error thrown
    again. *)
Definition sendMessage (s : GeminiChat) (userContent : Content)
    (prompt_id requestId : string) (startTime endTime : Z)
    (run : RetryRun GenerateContentResponse)
  : option (GeminiChat * (GenerateContentResponse + Thrown)) :=
  '(s1, _) ← sendMessage_request s userContent prompt_id requestId;
  let s2 := withConfig s1 (configAfter run) in
  match settled run with
  | inl response =>
      s3 ← sendMessage_commit s2 userContent prompt_id requestId
             (endTime - startTime) response;
      Some (s3, inl response)
  | inr error =>
      Some (sendMessage_fail s2 prompt_id (endTime - startTime) error,
            inr error)
  end.

(** [processStreamResponse] for a consumer that pulls the stream to its
    end.  The stream is the chunks it yields and, when it raises after them,
    the error.  The first component of the loop state is [outputContent],
    the second [chunks]. *)
Definition collectChunk (acc : list Content * list GenerateContentResponse)
    (chunk : GenerateContentResponse)
  : list Content * list GenerateContentResponse :=
  if isValidResponse chunk
  then
    match firstContent chunk with
    | Some c =>
        if isThoughtContent (Some c) then (acc.1, acc.2 ++ [chunk])
        else (acc.1 ++ [c], acc.2 ++ [chunk])
    | None => (acc.1, acc.2 ++ [chunk])
    end
  else acc.

Definition processStreamResponse (s : GeminiChat)
    (yielded : list GenerateContentResponse) (raised : option Thrown)
    (inputContent : Content) (startTime endTime : Z)
    (prompt_id requestId : string)
  : option (GeminiChat * option Thrown) :=
  let '(outputContent, chunks) := foldl collectChunk ([], []) yielded in
  match raised with
  | Some error =>
      Some (_logApiError s (endTime - startTime) error prompt_id, Some error)
  | None =>
      let s1 :=
        _logApiResponse s (endTime - startTime) prompt_id requestId
          (getFinalUsageMetadata chunks) (ParsedArray chunks) in
      hist ← recordHistory (history s1) inputContent outputContent None;
      Some (withHistory s1 hist, None)
  end.

(** [sendMessageStream] followed by the consumption of the stream it
    returned. *)
Definition sendMessageStream (s : GeminiChat) (userContent : Content)
    (prompt_id requestId : string) (startTime endTime : Z)
    (run : RetryRun (list GenerateContentResponse * option Thrown))
  : option (GeminiChat * option Thrown) :=
  '(s1, _) ← sendMessage_request s userContent prompt_id requestId;
  let s2 := withConfig s1 (configAfter run) in
  match settled run with
  | inl (yielded, raised) =>
      processStreamResponse s2 yielded raised userContent startTime endTime
        prompt_id requestId
  | inr error =>
      Some (sendMessage_fail s2 prompt_id (endTime - startTime) error,
            Some error)
  end.
End Session.

(** ** Calls of [sendMessage] in flight together

    JavaScript runs one continuation at a time; an [async] function runs
    until its next [await] and is resumed from the microtask queue once the
    awaited promise has settled.  The loop below keeps, for every call of
    [sendMessage], the [await] it is suspended at, and the queue of the calls
    ready to be resumed, first in, first out.  The transport is the only
    promise that the environment settles. *)

(** The promise stored in [this.sendPromise].  [sendMessage] only ever
    stores promises that have settled when it stores them: the initial
    [Promise.resolve()], the promise of the [async] function of line 614,
    whose body has no [await], and the [Promise.resolve()] of the [catch]
    block. *)
Inductive PromiseState := Pending | Settled.

(** Where a call stands: the [await] of the source it is suspended at, by
    line, with the local variables that are live there. *)
Inductive Stage :=
  | AtSendPromise (userContent : Content) (prompt_id requestId : string)
  | AtLogRequest (userContent : Content) (prompt_id requestId : string)
  | AtTransport (userContent : Content) (prompt_id requestId : string)
      (startTime : Z) (outcome : option (RetryRun GenerateContentResponse))
  | AtLogResponse (userContent : Content)
      (response : GenerateContentResponse)
  | AtSendPromiseCatch (response : GenerateContentResponse)
  | Returned (response : GenerateContentResponse)
  | Threw (error : Thrown)
  | Hung.

(** What an observer of the session sees, by call number. *)
Inductive Obs :=
  | TransportInvoked (call : nat)
  | HistoryCommitted (call : nat)
  | ErrorLogged (call : nat).

Record EventLoop := mkLoop {
  chat : GeminiChat;
  sendPromise : PromiseState;
  now : Z;
  calls : list Stage;
  microtasks : list nat;
  observed : list Obs;
}.

Definition newLoop (s : GeminiChat) : EventLoop :=
  mkLoop s Settled 0 [] [] [].

Section EventLoop.
Context (isFunctionResponse : Content → bool).

(** A call of [sendMessage]: it runs to [await this.sendPromise] (line 559)
    and is queued for resumption when that promise has settled. *)
Definition callSendMessage (l : EventLoop) (userContent : Content)
    (prompt_id requestId : string) : EventLoop :=
  let call := length (calls l) in
  mkLoop (chat l) (sendPromise l) (now l)
    (calls l ++ [AtSendPromise userContent prompt_id requestId])
    (match sendPromise l with
     | Settled => microtasks l ++ [call]
     | Pending => microtasks l
     end)
    (observed l).

(** The continuation of call [call] from the [await] it is suspended at to
    the next one. *)
Definition resume (l : EventLoop) (call : nat) : EventLoop :=
  let stay stage chat' promise queued obs :=
    mkLoop chat' promise (now l) (<[call := stage]> (calls l))
      (if queued : bool then microtasks l ++ [call] else microtasks l)
      (observed l ++ obs) in
  match calls l !! call with
  | Some (AtSendPromise userContent prompt_id requestId) =>
      (* lines 560-563 *)
      match sendMessage_request (chat l) userContent prompt_id requestId with
      | Some (chat', _) =>
          stay (AtLogRequest userContent prompt_id requestId) chat'
            (sendPromise l) true []
      | None => stay Hung (chat l) (sendPromise l) false []
      end
  | Some (AtLogRequest userContent prompt_id requestId) =>
      (* lines 565-593: [retryWithBackoff] calls [apiCall] *)
      stay (AtTransport userContent prompt_id requestId (now l) None)
        (chat l) (sendPromise l) false [TransportInvoked call]
  | Some (AtTransport userContent prompt_id requestId startTime (Some run)) =>
      let chat1 := withConfig (chat l) (configAfter run) in
      match settled run with
      | inl response =>
          (* lines 605-612 *)
          stay (AtLogResponse userContent response)
            (sendMessage_logResponse chat1 prompt_id requestId
               (now l - startTime) response)
            (sendPromise l) true []
      | inr error =>
          (* lines 639-643 *)
          stay (Threw error)
            (sendMessage_fail chat1 prompt_id (now l - startTime) error)
            Settled false [ErrorLogged call]
      end
  | Some (AtLogResponse userContent response) =>
      (* lines 614-637: the stored function runs [recordHistory] at once *)
      match sendMessage_record isFunctionResponse (chat l) userContent
              response with
      | Some chat' =>
          stay (AtSendPromiseCatch response) chat' Settled true
            [HistoryCommitted call]
      | None => stay Hung (chat l) (sendPromise l) false []
      end
  | Some (AtSendPromiseCatch response) =>
      (* line 638 *)
      stay (Returned response) (chat l) (sendPromise l) false []
  | _ => l
  end.

(** One microtask. *)
Definition runMicrotask (l : EventLoop) : EventLoop :=
  match microtasks l with
  | [] => l
  | call :: rest =>
      resume
        (mkLoop (chat l) (sendPromise l) (now l) (calls l) rest (observed l))
        call
  end.

(** Microtasks until the queue is empty. *)
Fixpoint drain (fuel : nat) (l : EventLoop) : EventLoop :=
  match fuel with
  | 0 => l
  | S fuel' =>
      match microtasks l with
      | [] => l
      | _ => drain fuel' (runMicrotask l)
      end
  end.

(** The environment settles the transport of call [call] at time [t]. *)
Definition settleTransport (l : EventLoop) (call : nat)
    (run : RetryRun GenerateContentResponse) (t : Z) : EventLoop :=
  match calls l !! call with
  | Some (AtTransport userContent prompt_id requestId startTime None) =>
      mkLoop (chat l) (sendPromise l) t
        (<[call :=
            AtTransport userContent prompt_id requestId startTime (Some run)]>
           (calls l))
        (microtasks l ++ [call]) (observed l)
  | _ => l
  end.
End EventLoop.

(** Exchanges are serialised when no transport is invoked while an earlier
    exchange has neither committed nor failed.  [inFlight] is the exchange
    whose transport has been invoked and that has done neither yet. *)
Fixpoint serializedFrom (inFlight : option nat) (obs : list Obs) : bool :=
  match obs with
  | [] => true
  | TransportInvoked call :: rest =>
      match inFlight with
      | Some _ => false
      | None => serializedFrom (Some call) rest
      end
  | HistoryCommitted _ :: rest | ErrorLogged _ :: rest =>
      serializedFrom None rest
  end.

Definition serialized (obs : list Obs) : bool := serializedFrom None obs.

(** ** The history as objects: [getHistory] and [structuredClone]

    Elsewhere the history is a list of values.  What [getHistory] promises
    about the array it returns is a matter of which objects that array and
    its turns are, so here the history lives in a store of objects: a
    [Content[]] array of references to [Content] objects, each with a
    reference to the [Part[]] array of its [Part] objects. *)

Abbreviation loc := nat.

Inductive cell :=
  | HistoryCell (elems : list loc)
  | ContentCell (role : option string) (parts : option loc)
  | PartsCell (elems : list loc)
  | PartCell (p : Part).

Abbreviation store := (gmap loc cell).

(** The references an object holds. *)
Definition refs (c : cell) : list loc :=
  match c with
  | HistoryCell ls => ls
  | ContentCell _ (Some p) => [p]
  | ContentCell _ None => []
  | PartsCell ls => ls
  | PartCell _ => []
  end.

(** How deep below an object its references go. *)
Definition level (c : cell) : nat :=
  match c with
  | PartCell _ => 0
  | PartsCell _ => 1
  | ContentCell _ _ => 2
  | HistoryCell _ => 3
  end.

(** The objects one can get to from [root] by following references: the
    objects a holder of [root] can mutate. *)
Inductive reach (h : store) (root : loc) : loc → Prop :=
  | reach_root : reach h root root
  | reach_step l c x :
      reach h root l → h !! l = Some c → x ∈ refs c → reach h root x.

(** Reading the values back out of the store. *)
Definition readPart (h : store) (l : loc) : option Part :=
  match h !! l with Some (PartCell p) => Some p | _ => None end.

Definition readParts (h : store) (l : loc) : option (list Part) :=
  match h !! l with
  | Some (PartsCell ls) => mapM (readPart h) ls
  | _ => None
  end.

Definition readContent (h : store) (l : loc) : option Content :=
  match h !! l with
  | Some (ContentCell r None) => Some (mkContent r None)
  | Some (ContentCell r (Some pl)) =>
      ps ← readParts h pl; Some (mkContent r (Some ps))
  | _ => None
  end.

Definition readHistory (h : store) (l : loc) : option (list Content) :=
  match h !! l with
  | Some (HistoryCell ls) => mapM (readContent h) ls
  | _ => None
  end.

(** [structuredClone] on a [Content[]]: the structured clone algorithm of
    the platform, which copies every object it gets to and keeps a memory of
    the copies made, so that an object referenced twice is copied once.
    [None] when a reference leads to no object of the expected kind. *)
Record CloneState := mkCloneState {
  heap : store;
  memory : gmap loc loc;
}.

Definition allocClone (st : CloneState) (orig : loc) (c : cell)
  : CloneState * loc :=
  let l := fresh (dom (heap st)) in
  (mkCloneState (<[l := c]> (heap st)) (<[orig := l]> (memory st)), l).

Definition clonePart (st : CloneState) (l : loc)
  : option (CloneState * loc) :=
  match memory st !! l with
  | Some l' => Some (st, l')
  | None =>
      match heap st !! l with
      | Some (PartCell p) => Some (allocClone st l (PartCell p))
      | _ => None
      end
  end.

Fixpoint cloneEach (cloneOne : CloneState → loc → option (CloneState * loc))
    (st : CloneState) (ls : list loc) : option (CloneState * list loc) :=
  match ls with
  | [] => Some (st, [])
  | l :: rest =>
      '(st1, l') ← cloneOne st l;
      '(st2, rest') ← cloneEach cloneOne st1 rest;
      Some (st2, l' :: rest')
  end.

Definition cloneParts (st : CloneState) (l : loc)
  : option (CloneState * loc) :=
  match memory st !! l with
  | Some l' => Some (st, l')
  | None =>
      match heap st !! l with
      | Some (PartsCell ls) =>
          '(st1, ls') ← cloneEach clonePart st ls;
          Some (allocClone st1 l (PartsCell ls'))
      | _ => None
      end
  end.

Definition cloneContent (st : CloneState) (l : loc)
  : option (CloneState * loc) :=
  match memory st !! l with
  | Some l' => Some (st, l')
  | None =>
      match heap st !! l with
      | Some (ContentCell r None) =>
          Some (allocClone st l (ContentCell r None))
      | Some (ContentCell r (Some pl)) =>
          '(st1, pl') ← cloneParts st pl;
          Some (allocClone st1 l (ContentCell r (Some pl')))
      | _ => None
      end
  end.

Definition cloneHistory (st : CloneState) (l : loc)
  : option (CloneState * loc) :=
  match memory st !! l with
  | Some l' => Some (st, l')
  | None =>
      match heap st !! l with
      | Some (HistoryCell ls) =>
          '(st1, ls') ← cloneEach cloneContent st ls;
          Some (allocClone st1 l (HistoryCell ls'))
      | _ => None
      end
  end.

Definition structuredClone (h : store) (l : loc) : option (store * loc) :=
  '(st, l') ← cloneHistory (mkCloneState h ∅) l;
  Some (heap st, l').

(** What [extractCuratedHistory] reads of an entry, through the store. *)
Definition roleAt (h : store) (l : loc) : option string :=
  match h !! l with Some (ContentCell r _) => r | _ => None end.

Definition isUserAt (h : store) (l : loc) : bool :=
  bool_decide (roleAt h l = Some "user").
Definition isModelAt (h : store) (l : loc) : bool :=
  bool_decide (roleAt h l = Some "model").
Definition isValidAt (h : store) (l : loc) : bool :=
  match readContent h l with
  | Some c => isValidContent c
  | None => false
  end.

(** [getHistory(curated)] in the store: [historyRef] is [this.history].  The
    curated history is a new array of the same [Content] objects; what is
    returned is the clone of that array, or of [this.history]. *)
Definition getHistoryIn (h : store) (historyRef : loc) (curated : bool)
  : option (store * loc) :=
  if curated then
    match h !! historyRef with
    | Some (HistoryCell ls) =>
        kept ← curate (isUserAt h) (isModelAt h) (isValidAt h) ls;
        let a := fresh (dom h) in
        structuredClone (<[a := HistoryCell kept]> h) a
    | _ => None
    end
  else structuredClone h historyRef.

(** The values of the history [getHistory] returns. *)
Definition getHistoryValues (h : store) (historyRef : loc) (curated : bool)
  : option (list Content) :=
  '(h', r) ← getHistoryIn h historyRef curated; readHistory h' r.

(** A store that any sequence of mutations made through [root] can leave:
    the objects of [h] that are not reachable from [root] are as they were
    (objects may have been added). *)
Definition mutatedThrough (h : store) (root : loc) (h' : store) : Prop :=
  ∀ l c, h !! l = Some c → ¬ reach h root l → h' !! l = Some c.

(** [c'] is [c] with every reference replaced by its copy. *)
Definition cellSim (m : gmap loc loc) (c c' : cell) : Prop :=
  match c, c' with
  | PartCell p, PartCell p' => p = p'
  | ContentCell r None, ContentCell r' None => r = r'
  | ContentCell r (Some pl), ContentCell r' (Some pl') =>
      r = r' ∧ m !! pl = Some pl'
  | PartsCell ls, PartsCell ls' =>
      Forall2 (λ x x', m !! x = Some x') ls ls'
  | HistoryCell ls, HistoryCell ls' =>
      Forall2 (λ x x', m !! x = Some x') ls ls'
  | _, _ => False
  end.

(** What holds of the store and the memory all along a clone of objects of
    [h0]: the objects of [h0] are untouched, and every copy is a new object
    that mirrors its original. *)
Definition cloneInv (h0 : store) (st : CloneState) : Prop :=
  h0 ⊆ heap st
  ∧ ∀ l l', memory st !! l = Some l' →
      l' ∉ dom h0
      ∧ ∃ c c', h0 !! l = Some c ∧ heap st !! l' = Some c'
                ∧ cellSim (memory st) c c'.

(** The shape of a step of the clone on an object of level at most [n]: it
    succeeds, keeps the invariant, forgets no copy, has recorded the copy it
    returns, and records nothing for objects of a higher level. *)
Definition clonesWell (h0 : store) (n : nat)
    (cloneOne : CloneState → loc → option (CloneState * loc))
    (st : CloneState) (l : loc) : Prop :=
  ∃ st' l', cloneOne st l = Some (st', l') ∧ cloneInv h0 st'
            ∧ memory st ⊆ memory st' ∧ memory st' !! l = Some l'
            ∧ ∀ k c, h0 !! k = Some c → n < level c →
                     memory st' !! k = memory st !! k.

(** ** Vocabulary for the statements about the session *)

(** The [api_response] events among the emitted ones. *)
Definition responseEvents (es : list TelemetryEvent) : list TelemetryEvent :=
  List.filter isResponseEvent es.

(** The [api_error] events among the emitted ones. *)
Definition errorEvents (es : list TelemetryEvent) : list TelemetryEvent :=
  List.filter isErrorEvent es.

(** The chunks [processStreamResponse] collects: those that pass
    [isValidResponse]. *)
Definition collected (yielded : list GenerateContentResponse)
  : list GenerateContentResponse :=
  List.filter isValidResponse yielded.

Definition hasUsage (chunk : GenerateContentResponse) : bool :=
  truthyObj (usageMetadata chunk).

(** The automatic-function-calling history of a response, when present, has
    only known roles. *)
Definition afcOk (response : GenerateContentResponse) : Prop :=
  match automaticFunctionCallingHistory response with
  | Some full => validateHistory full = inr ()
  | None => True
  end.

(** Every keyword [_extractToolsCalled] looks for. *)
Definition keywords : list string :=
  ["@"; "read"; "file"; "write"; "create"; "save"; "edit"; "modify";
   "change"; "search"; "find"; "grep"; "list"; "ls"; "directory"; "run";
   "execute"; "bash"; "command"; "web"; "http"; "url"].

(** ** Sample data for the worked instances *)

Definition demoConfig : Config :=
  mkConfig "0123456789abcdef" true "qwen3-coder-plus" (Some "qwen-oauth") false.

Definition demoConfigOff : Config :=
  mkConfig "0123456789abcdef" false "qwen3-coder-plus" (Some "qwen-oauth")
    false.

Definition demoLogger (cfg : Config) : UserBehaviorLogger :=
  newLogger cfg "/home/dev" "743a8f8b30e089da" "72d7bfe0e0f3480f"
    "2025-08-11".

(** Stand-ins for the serialiser and the clock's formatter: every entry
    prints as an empty JSON object, so a log line has three bytes. *)
Definition demoStringify : LogEntry → string := λ _, "{}".
Definition demoISO : Z → string := λ _, "2025-08-11T09:30:00.000Z".

Definition demoEvent : UserBehaviorEvent :=
  mkEvent typing_start 1754904600000 None (Some "p1") None None None None
    None None None None None None None None None None None None.

(** A directory whose only file is the active one, of the given size. *)
Definition demoDir (cfg : Config) (size : N) : fileSystem :=
  {[ currentLogFilePath (demoLogger cfg) := mkFile size [] ]}.

(** [isFunctionResponse] as the upstream helper has it: a user content all
    of whose parts are function responses. *)
Definition demoIsFunctionResponse (c : Content) : bool :=
  isUser c
  && match parts c with
     | Some ps => forallb (λ p, truthyObj (functionResponse p)) ps
     | None => false
     end.

(** A fresh session. *)
Definition demoChat : GeminiChat := mkChat demoConfig None [] [] [].

Definition demoUsage : UsageMetadata :=
  mkUsage (Some 12%Z) (Some 5%Z) (Some 17%Z).

(** A response with one candidate holding [c]. *)
Definition responseOf (c : Content) (usage : option UsageMetadata)
  : GenerateContentResponse :=
  mkResponse (Some [mkCandidate (Some c)]) usage None.

(** A chunk that carries usage metadata and no candidate. *)
Definition usageOnlyChunk : GenerateContentResponse :=
  mkResponse None (Some demoUsage) None.

(** A stored history of two turns, [user "hi"] and an empty model turn, with
    [this.history] at location 0. *)
Definition demoStore : store :=
  {[ 0 := HistoryCell [1; 3];
     1 := ContentCell (Some "user") (Some 2);
     2 := PartsCell [5];
     5 := PartCell (textPart "hi");
     3 := ContentCell (Some "model") (Some 4);
     4 := PartsCell [] ]}.

(** ** The session's constructor and history accessors *)

(** The constructor: the session exists when [validateHistory] did not
    throw.  [generationConfig] is kept by its [systemInstruction]. *)
Definition newGeminiChat (cfg : Config)
    (generationConfig : option SystemInstruction) (history : list Content)
  : string + GeminiChat :=
  match validateHistory history with
  | inl msg => inl msg
  | inr _ => inr (mkChat cfg generationConfig history [] [])
  end.

(** [clearHistory], [addHistory] and [setHistory]: none of them calls
    [validateHistory]. *)
Definition clearHistory (s : GeminiChat) : GeminiChat := withHistory s [].

Definition addHistory (s : GeminiChat) (content : Content) : GeminiChat :=
  withHistory s (history s ++ [content]).

Definition setHistory (s : GeminiChat) (history : list Content) : GeminiChat :=
  withHistory s history.

(** ** Vocabulary for the statements about the history *)

(** No two neighbours are both text contents. *)
Fixpoint noAdjacentText (l : list Content) : bool :=
  match l with
  | a :: (b :: _) as tl =>
      negb (isTextContent (Some a) && isTextContent (Some b))
      && noAdjacentText tl
  | _ => true
  end.

(** A chunk that carries a text and no usage metadata. *)
Definition textChunk (t : string) : GenerateContentResponse :=
  responseOf (modelTurn t) None.

(** The texts of a list of chunks, joined. *)
Definition joined (ts : list string) : string := foldr String.append "" ts.

(** A role [validateHistory] accepts. *)
Definition knownContent (c : Content) : bool := knownRole isUser isModel c.

(** ** Vocabulary for the statements about the request classifier *)

(** All parts of a list of contents, in order. *)
Definition partsOf (contents : list Content) : list Part :=
  flat_map (λ c, default [] (parts c)) contents.

(** The number of characters in the texts of the parts, and the number of
    parts with a text that is not empty. *)
Definition textChars (contents : list Content) : Z :=
  foldr (λ p n, Z.of_nat (String.length (orEmpty (text p))) + n)%Z 0%Z
    (partsOf contents).

Definition textCount (contents : list Content) : Z :=
  Z.of_nat (length (List.filter (λ p, truthyString (text p))
                      (partsOf contents))).

(** [needle] occurs in [s]. *)
Definition occursIn (needle s : string) : Prop :=
  ∃ pre post, s = pre +:+ needle +:+ post.

(** The table behind the seven [if]s of [_extractToolsCalled]: each tool
    with the keywords one of which has to occur in the lowered text. *)
Definition toolKeywords : list (string * list string) :=
  [("read_file", ["@"; "read"; "file"]);
   ("write_file", ["write"; "create"; "save"]);
   ("replace", ["edit"; "modify"; "change"]);
   ("search_file_content", ["search"; "find"; "grep"]);
   ("list_directory", ["list"; "ls"; "directory"]);
   ("run_shell_command", ["run"; "execute"; "bash"; "command"]);
   ("web_fetch", ["web"; "http"; "url"])].

(** Some candidate of the response has a part of which [P] holds. *)
Definition offersPart (P : Part → Prop) (r : GenerateContentResponse)
  : Prop :=
  ∃ cs c ct ps p,
    candidates r = Some cs ∧ c ∈ cs ∧ content c = Some ct
    ∧ parts ct = Some ps ∧ p ∈ ps ∧ P p.

Definition isCallPart (p : Part) : Prop := is_Some (functionCall p).
Definition isTextPart (p : Part) : Prop := ∃ t, text p = Some t ∧ t ≠ "".

(** ** Vocabulary for the statements about the log files *)

(** A file is within the cap, or this writer has put at most one line into
    it. *)
Definition withinCap (f : file) : Prop :=
  (fsize f ≤ maxFileSize)%N ∨ (length (appended f) ≤ 1)%nat.

(** What holds of the directory all along the life of a logger: every file
    is [withinCap], and the files this writer has appended to are the
    active one and those it rolled away from. *)
Definition writtenBy (lg : UserBehaviorLogger) (fs : fileSystem) : Prop :=
  ∀ p f, fs !! p = Some f →
         withinCap f
         ∧ (appended f ≠ [] → p = currentLogFilePath lg ∨ rolledPast lg p).

(** The number of lines this process has appended, over all files. *)
Definition linesWritten (fs : fileSystem) : nat :=
  sum_list_with (λ entry, length (appended entry.2)) (map_to_list fs).

(** ** [logEvent] with its [try]/[catch]

    The first statement of the [try] block of [logEvent] builds the entry
    with [new Date(event.timestamp).toISOString()].  [Date] clips a time
    value beyond 8.64e15 milliseconds either side of the epoch to an invalid
    date, on which [toISOString] throws a [RangeError]; the [catch] block
    (lines 328-330) prints the error and the call returns.  The roll check
    and the write come later in the block, so they have not run.  Time
    stamps are whole numbers of milliseconds here, as [Date.now()] gives
    them at every call site. *)
Definition timeValueOk (timestamp : Z) : bool :=
  bool_decide (-8640000000000000 ≤ timestamp ≤ 8640000000000000)%Z.

Section LogWriterCatch.
Context (safeJsonStringify : LogEntry → string) (toISOString : Z → string).

(** [logEvent], lines 307-331, the [catch] included: [logEvent] of the
    first part is the [try] block run to its end. *)
Definition logEventOrCatch (lg : UserBehaviorLogger) (fs : fileSystem)
    (event : UserBehaviorEvent) (dateStr : string)
  : UserBehaviorLogger * fileSystem :=
  if negb (getTelemetryEnabled (config lg)) then (lg, fs)
  else if timeValueOk (timestamp event)
  then logEvent safeJsonStringify toISOString lg fs event dateStr
  else (lg, fs).

(** A sequence of calls, each with the date on the clock at its time. *)
Fixpoint logEventsOrCatch (lg : UserBehaviorLogger) (fs : fileSystem)
    (calls : list (UserBehaviorEvent * string))
  : UserBehaviorLogger * fileSystem :=
  match calls with
  | [] => (lg, fs)
  | (event, dateStr) :: rest =>
      let '(lg', fs') := logEventOrCatch lg fs event dateStr in
      logEventsOrCatch lg' fs' rest
  end.
End LogWriterCatch.

(** The calls whose time stamp [toISOString] can print. *)
Definition loggedCalls (calls : list (UserBehaviorEvent * string))
  : list (UserBehaviorEvent * string) :=
  List.filter (λ call, timeValueOk (timestamp call.1)) calls.

(** An event stamped one millisecond past the last date [Date] holds. *)
Definition demoEventOutOfRange : UserBehaviorEvent :=
  mkEvent typing_start 8640000000000001 None (Some "p1") None None None None
    None None None None None None None None None None None None.

(** ** [path.join]

    The logger makes its paths with [path.join] of Node, which is not part
    of the repository.  This is its POSIX flavour ([lib/path.js]:
    [posix.join], [posix.normalize], [normalizeString]), on the segments
    between separators: the arguments that are not empty are put together
    with a separator and the result is normalised, which drops empty and
    [.] segments and lets a [..] segment take away the segment before it. *)
Definition isSeparator (c : ascii) : bool := bool_decide (c = "/"%char).

(** The segments of a path: what stands between its separators. *)
Fixpoint segments (path : string) : list string :=
  match path with
  | EmptyString => [""]
  | String c rest =>
      if isSeparator c then "" :: segments rest
      else match segments rest with
           | seg :: segs => String c seg :: segs
           | [] => [String c ""]
           end
  end.

(** [normalizeString], one segment at a time; [res] holds the segments kept
    so far. *)
Definition normalizeStep (allowAboveRoot : bool) (res : list string)
    (seg : string) : list string :=
  if bool_decide (seg = "") || bool_decide (seg = ".") then res
  else if bool_decide (seg = "..")
  then match last res with
       | Some l =>
           if bool_decide (l = "..")
           then (if allowAboveRoot then res ++ [".."] else res)
           else removelast res
       | None => if allowAboveRoot then [".."] else []
       end
  else res ++ [seg].

Definition normalizeString (path : string) (allowAboveRoot : bool)
  : list string :=
  foldl (normalizeStep allowAboveRoot) [] (segments path).

(** The kept segments with a separator between two of them. *)
Fixpoint joinSegments (segs : list string) : string :=
  match segs with
  | [] => ""
  | [seg] => seg
  | seg :: rest => seg +:+ "/" +:+ joinSegments rest
  end.

Definition startsWithSeparator (path : string) : bool :=
  match path with
  | String c _ => isSeparator c
  | EmptyString => false
  end.

Fixpoint endsWithSeparator (path : string) : bool :=
  match path with
  | EmptyString => false
  | String c EmptyString => isSeparator c
  | String _ rest => endsWithSeparator rest
  end.

(** [posix.normalize] *)
Definition normalize (path : string) : string :=
  if bool_decide (path = "") then "."
  else
    let isAbsolute := startsWithSeparator path in
    let trailingSeparator := endsWithSeparator path in
    match normalizeString path (negb isAbsolute) with
    | [] => if isAbsolute then "/" else if trailingSeparator then "./" else "."
    | segs =>
        let path' :=
          joinSegments segs +:+ (if trailingSeparator then "/" else "") in
        if isAbsolute then "/" +:+ path' else path'
    end.

(** [path.join(a, b)] *)
Definition pathJoinPosix (a b : string) : string :=
  match bool_decide (a = ""), bool_decide (b = "") with
  | true, true => "."
  | true, false => normalize b
  | false, true => normalize a
  | false, false => normalize (a +:+ "/" +:+ b)
  end.

(** A segment that [normalizeString] appends as it is. *)
Definition plainSegment (seg : string) : Prop :=
  includes "/" seg = false ∧ seg ≠ "" ∧ seg ≠ "." ∧ seg ≠ "..".

(** An absolute path as [normalize] returns it when it is not the root. *)
Definition normalAbsolute (dir : string) : Prop :=
  ∃ segs, segs ≠ [] ∧ Forall plainSegment segs
          ∧ dir = "/" +:+ joinSegments segs.

(** ** Retrying and falling back ([sendMessage], [sendMessageStream]) *)

(** [\d] of the regular expression [/5\d{2}/]: an ASCII digit. *)
Definition isDigit (c : ascii) : bool :=
  bool_decide (48 ≤ nat_of_ascii c ≤ 57)%nat.

(** [message.match(/5\d{2}/)]: a [5] followed by two digits, anywhere. *)
Fixpoint matches5xx (s : string) : bool :=
  match s with
  | EmptyString => false
  | String c rest =>
      (bool_decide (c = "5"%char)
       && match rest with
          | String a (String b _) => isDigit a && isDigit b
          | _ => false
          end)
      || matches5xx rest
  end.

(** The [shouldRetry] handed to [retryWithBackoff]; [message] is
    [error.message], [None] when [error] is falsy or has no message. *)
Definition shouldRetry (message : option string) : bool :=
  match message with
  | Some m =>
      if truthyString (Some m)
      then if includes "429" m then true
           else if matches5xx m then true
           else false
      else false
  | None => false
  end.

(** The request [apiCall] hands to the content generator.  The two
    configurations are objects of options, key by key. *)
Record GenerateContentParameters := mkParameters {
  model : string;
  contents : list Content;
  requestConfig : gmap string string;
}.

Section ApiCall.
(** [DEFAULT_GEMINI_FLASH_MODEL] of [config/models.js] is not part of the
    files at hand. *)
Context (DEFAULT_GEMINI_FLASH_MODEL : string).

(** [{ ...this.generationConfig, ...params.config }]: the keys of both,
    those of [params.config] winning. *)
Definition spread (generationConfig paramsConfig : gmap string string)
  : gmap string string :=
  paramsConfig ∪ generationConfig.

Definition quotaErrorMessage : string :=
  "Please submit a new query to continue with the Flash model.".

(** [apiCall] of [sendMessage]: [inl] is the [Error] thrown, [inr] the
    call of [contentGenerator.generateContent] with its arguments. *)
Definition sendMessage_apiCall (cfg : Config)
    (generationConfig paramsConfig : gmap string string)
    (requestContents : list Content) (prompt_id requestId : string)
  : Thrown + (GenerateContentParameters * string * string) :=
  let modelToUse :=
    if truthyString (Some (getModel cfg)) then getModel cfg
    else DEFAULT_GEMINI_FLASH_MODEL in
  if getQuotaErrorOccurred cfg
     && bool_decide (modelToUse = DEFAULT_GEMINI_FLASH_MODEL)
  then inl (ErrorObject "Error" quotaErrorMessage)
  else inr (mkParameters modelToUse requestContents
              (spread generationConfig paramsConfig),
            prompt_id, requestId).

(** [apiCall] of [sendMessageStream]: the model is taken as it is. *)
Definition sendMessageStream_apiCall (cfg : Config)
    (generationConfig paramsConfig : gmap string string)
    (requestContents : list Content) (prompt_id requestId : string)
  : Thrown + (GenerateContentParameters * string * string) :=
  let modelToUse := getModel cfg in
  if getQuotaErrorOccurred cfg
     && bool_decide (modelToUse = DEFAULT_GEMINI_FLASH_MODEL)
  then inl (ErrorObject "Error" quotaErrorMessage)
  else inr (mkParameters modelToUse requestContents
              (spread generationConfig paramsConfig),
            prompt_id, requestId).
End ApiCall.

(** What the fallback code reads of the error it is given. *)
Record FallbackError := mkFallbackError {
  thrown : Thrown;
  status : option Z;
  code : option Z;
}.

(** The lines the fallback code writes to the console. *)
Inductive ConsoleLine :=
  | WarnQwenAuthError (errorMessage : string)
  | LogReauthenticateNote
  | WarnQwenRateLimit (errorMessage : string)
  | WarnFallbackHandlerFailed (error : Thrown).

(** [a || b] on two optional numbers. *)
Definition orNumber (a b : option Z) : option Z :=
  match a with
  | Some n => if bool_decide (n = 0%Z) then b else Some n
  | None => b
  end.

(** [handleQwenOAuthError]: the console lines and the value returned;
    [error] is [None] when it is falsy. *)
Definition handleQwenOAuthError (error : option FallbackError)
  : list ConsoleLine * option string :=
  match error with
  | None => ([], None)
  | Some error =>
      let errorMessage := toLowerCase (errorMessageOf (thrown error)) in
      let errorCode := orNumber (status error) (code error) in
      let isAuthError :=
        bool_decide (errorCode = Some 401%Z)
        || bool_decide (errorCode = Some 403%Z)
        || includes "unauthorized" errorMessage
        || includes "forbidden" errorMessage
        || includes "invalid api key" errorMessage
        || includes "authentication" errorMessage
        || includes "access denied" errorMessage
        || (includes "token" errorMessage && includes "expired" errorMessage)
      in
      let isRateLimitError :=
        bool_decide (errorCode = Some 429%Z)
        || includes "429" errorMessage
        || includes "rate limit" errorMessage
        || includes "too many requests" errorMessage in
      if isAuthError
      then ([WarnQwenAuthError errorMessage; LogReauthenticateNote], None)
      else if isRateLimitError
      then ([WarnQwenRateLimit errorMessage], None)
      else ([], None)
  end.

(** What the fallback handler resolved to, as far as the test
    [accepted !== false && accepted !== null] tells. *)
Inductive Accepted := AcceptedFalse | AcceptedNull | AcceptedOther.

Section FlashFallback.
(** [AuthType.QWEN_OAUTH] and [AuthType.LOGIN_WITH_GOOGLE] of
    [contentGenerator.js], [DEFAULT_GEMINI_FLASH_MODEL] of
    [config/models.js], and [setModel] and [setFallbackMode] of [Config]
    are not part of the files at hand. *)
Context (QWEN_OAUTH LOGIN_WITH_GOOGLE DEFAULT_GEMINI_FLASH_MODEL : string).
Context (setModel : Config → string → Config).
Context (setFallbackMode : Config → bool → Config).

(** The handler the CLI package installs: it is given the two models and
    the error, may change the configuration, and resolves or rejects. *)
Definition FallbackHandler : Type :=
  string → string → option FallbackError → Config
  → Config * (Accepted + Thrown).

(** [handleFlashFallback]: the configuration after the call, the console
    lines, and the value returned. *)
Definition handleFlashFallback (cfg : Config)
    (flashFallbackHandler : option FallbackHandler)
    (authType : option string) (error : option FallbackError)
  : Config * list ConsoleLine * option string :=
  if bool_decide (authType = Some QWEN_OAUTH)
  then let '(lines, result) := handleQwenOAuthError error in
       (cfg, lines, result)
  else if negb (bool_decide (authType = Some LOGIN_WITH_GOOGLE))
  then (cfg, [], None)
  else
    let currentModel := getModel cfg in
    let fallbackModel := DEFAULT_GEMINI_FLASH_MODEL in
    if bool_decide (currentModel = fallbackModel) then (cfg, [], None)
    else
      match flashFallbackHandler with
      | Some fallbackHandler =>
          match fallbackHandler currentModel fallbackModel error cfg with
          | (cfg', inl accepted) =>
              match accepted with
              | AcceptedOther =>
                  (setFallbackMode (setModel cfg' fallbackModel) true, [],
                   Some fallbackModel)
              | _ => (cfg', [], None)
              end
          | (cfg', inr thrownByHandler) =>
              (cfg', [WarnFallbackHandlerFailed thrownByHandler], None)
          end
      | None => (cfg, [], None)
      end.
End FlashFallback.

(** ** The states the event loop can get to *)

Section Reachable.
Context (isFunctionResponse : Content → bool).

(** From a new session: calls of [sendMessage], microtasks, and transports
    settled by the environment, in any order. *)
Inductive reachableLoop : EventLoop → Prop :=
  | reachable_new s : reachableLoop (newLoop s)
  | reachable_call l userContent prompt_id requestId :
      reachableLoop l →
      reachableLoop (callSendMessage l userContent prompt_id requestId)
  | reachable_microtask l :
      reachableLoop l → reachableLoop (runMicrotask isFunctionResponse l)
  | reachable_settle l call run t :
      reachableLoop l → reachableLoop (settleTransport l call run t).
End Reachable.

(** ** A run of exchanges on one session

    What a caller does with a session: one exchange after the other, each a
    [sendMessage] or a [sendMessageStream] whose stream is pulled to its
    end.  [requestId] is the correlation id [_logApiRequest] mints for the
    exchange with [crypto.randomUUID()]. *)
Inductive Exchange :=
  | SendMessage (userContent : Content) (prompt_id requestId : string)
      (startTime endTime : Z) (run : RetryRun GenerateContentResponse)
  | SendMessageStream (userContent : Content) (prompt_id requestId : string)
      (startTime endTime : Z)
      (run : RetryRun (list GenerateContentResponse * option Thrown)).

Definition requestIdOf (e : Exchange) : string :=
  match e with
  | SendMessage _ _ requestId _ _ _ => requestId
  | SendMessageStream _ _ requestId _ _ _ => requestId
  end.

Section Exchanges.
Context (isFunctionResponse : Content → bool).

(** One exchange: the session after it; [None] when a curation in it does
    not end. *)
Definition runExchange (s : GeminiChat) (e : Exchange) : option GeminiChat :=
  match e with
  | SendMessage userContent prompt_id requestId startTime endTime run =>
      fst <$> sendMessage isFunctionResponse s userContent prompt_id
                requestId startTime endTime run
  | SendMessageStream userContent prompt_id requestId startTime endTime
      run =>
      fst <$> sendMessageStream isFunctionResponse s userContent prompt_id
                requestId startTime endTime run
  end.

Fixpoint runExchanges (s : GeminiChat) (es : list Exchange)
  : option GeminiChat :=
  match es with
  | [] => Some s
  | e :: rest => s' ← runExchange s e; runExchanges s' rest
  end.
End Exchanges.

(** The content that comes back has a known role or none. *)
Definition answerOk (response : GenerateContentResponse) : Prop :=
  ∀ c, firstContent response = Some c → role c = None ∨ knownContent c = true.

(** An exchange whose message has a known role and whose answer, chunks and
    automatic-function-calling history hold no role [validateHistory]
    refuses: the curations of the exchange and of the next one end. *)
Definition exchangeOk (e : Exchange) : Prop :=
  match e with
  | SendMessage userContent _ _ _ _ run =>
      knownContent userContent = true
      ∧ match settled run with
        | inl response => afcOk response ∧ answerOk response
        | inr _ => True
        end
  | SendMessageStream userContent _ _ _ _ run =>
      knownContent userContent = true
      ∧ match settled run with
        | inl (yielded, _) => Forall answerOk yielded
        | inr _ => True
        end
  end.

(** Three exchanges: an answer with usage metadata, a stream of two chunks
    the second of which has usage metadata, and a call that fails. *)
Definition demoExchanges : list Exchange :=
  [SendMessage (userTurn "hi") "p1" "r1" 100 350
     (mkRun demoConfig
        (inl (responseOf (modelTurn "hello") (Some demoUsage))));
   SendMessageStream (userTurn "more") "p2" "r2" 400 900
     (mkRun demoConfig
        (inl ([responseOf (modelTurn "a") None;
               responseOf (modelTurn "b") (Some demoUsage)], None)));
   SendMessage (userTurn "again") "p3" "r3" 1000 1200
     (mkRun demoConfig (inr (ErrorObject "Error" "503")))].

(** ** [recordHistory] on objects

    [recordHistory] merges neighbouring text contents in place: it assigns to
    [lastContent.parts[0].text] and pushes onto [lastContent.parts]
    (lines 915-918 and 937-943), and the contents it goes through are the
    very objects the stream yielded.  On values, as [consolidate] and
    [recordHistory] of the first part have it, this is exact when these are
    objects of their own; here is the method on the store of objects of
    [getHistory], as [processStreamResponse] calls it: with no
    automatic-function-calling history.

    [isTextContent] and [isThoughtContent] of a content object. *)
Definition isTextAt (h : store) (l : loc) : bool :=
  match readContent h l with
  | Some c => isTextContent (Some c)
  | None => false
  end.

Definition isThoughtAt (h : store) (l : loc) : bool :=
  match readContent h l with
  | Some c => isThoughtContent (Some c)
  | None => false
  end.

(** [content.parts]: the array and the references it holds. *)
Definition partsAt (h : store) (l : loc) : option (loc * list loc) :=
  match h !! l with
  | Some (ContentCell _ (Some pl)) =>
      match h !! pl with
      | Some (PartsCell ls) => Some (pl, ls)
      | _ => None
      end
  | _ => None
  end.

(** The merge: [lastContent.parts[0].text += content.parts[0].text || '']
    and, when [content] has further parts,
    [lastContent.parts.push(...content.parts.slice(1))].  Both texts are
    read before the assignment, and the slice is a copy. *)
Definition mergeInto (h : store) (lastContent content : loc)
  : option store :=
  '(pl, ps) ← partsAt h lastContent;
  '(_, qs) ← partsAt h content;
  match ps, qs with
  | p0 :: _, q0 :: rest =>
      p ← readPart h p0;
      q ← readPart h q0;
      let h1 :=
        <[p0 := PartCell (setText p (orEmpty (text p) +:+ orEmpty (text q)))]>
          h in
      if bool_decide (1 < length qs)
      then Some (<[pl := PartsCell (ps ++ rest)]> h1)
      else Some h1
  | _, _ => None
  end.

(** The body and the loop of lines 906-922; the state is the store and
    [consolidatedOutputContents]. *)
Definition consolidateStepIn (st : store * list loc) (content : loc)
  : option (store * list loc) :=
  if isThoughtAt st.1 content then Some st
  else
    match last st.2 with
    | Some lastContent =>
        if isTextAt st.1 lastContent && isTextAt st.1 content
        then h' ← mergeInto st.1 lastContent content; Some (h', st.2)
        else Some (st.1, st.2 ++ [content])
    | None => Some (st.1, st.2 ++ [content])
    end.

Fixpoint consolidateIn (st : store * list loc) (outputContents : list loc)
  : option (store * list loc) :=
  match outputContents with
  | [] => Some st
  | content :: rest =>
      st' ← consolidateStepIn st content; consolidateIn st' rest
  end.

(** [array.push(...items)] and [array[array.length - 1]] on a [Content[]]. *)
Definition pushTo (h : store) (array : loc) (items : list loc)
  : option store :=
  match h !! array with
  | Some (HistoryCell ls) => Some (<[array := HistoryCell (ls ++ items)]> h)
  | _ => None
  end.

Definition lastOf (h : store) (array : loc) : option loc :=
  match h !! array with
  | Some (HistoryCell ls) => last ls
  | _ => None
  end.

Section RecordIn.
Context (isFunctionResponse : Content → bool).

(** [recordHistory(userInput, modelOutput)]: the store after the call;
    [None] when a reference leads to no object of the expected kind.  The
    empty model turn is a new object with a new array. *)
Definition recordHistoryIn (h : store) (historyRef userInput : loc)
    (modelOutput : list loc) : option store :=
  let nonThoughtModelOutput :=
    List.filter (λ l, negb (isThoughtAt h l)) modelOutput in
  '(h1, outputContents) ←
    (if bool_decide (0 < length nonThoughtModelOutput)
        && forallb (λ l, truthyObj (roleAt h l)) nonThoughtModelOutput
     then Some (h, nonThoughtModelOutput)
     else if bool_decide (length nonThoughtModelOutput = 0)
             && bool_decide (0 < length modelOutput)
     then Some (h, [])
     else
       u ← readContent h userInput;
       if negb (isFunctionResponse u)
       then
         let pl := fresh (dom h) in
         let h' := <[pl := PartsCell []]> h in
         let cl := fresh (dom h') in
         Some (<[cl := ContentCell (Some "model") (Some pl)]> h', [cl])
       else Some (h, []));
  h2 ← pushTo h1 historyRef [userInput];
  '(h3, consolidatedOutputContents) ← consolidateIn (h2, []) outputContents;
  match consolidatedOutputContents with
  | [] => Some h3
  | first :: others =>
      match lastOf h3 historyRef with
      | Some lastHistoryEntry =>
          if isTextAt h3 lastHistoryEntry && isTextAt h3 first
          then h4 ← mergeInto h3 lastHistoryEntry first;
               pushTo h4 historyRef others
          else pushTo h3 historyRef consolidatedOutputContents
      | None => pushTo h3 historyRef consolidatedOutputContents
      end
  end.
End RecordIn.

(** The objects a content is made of: the content, its array of parts and
    the parts. *)
Definition footprint (h : store) (l : loc) : list loc :=
  l :: match h !! l with
       | Some (ContentCell _ (Some pl)) =>
           pl :: match h !! pl with
                 | Some (PartsCell ps) => ps
                 | _ => []
                 end
       | _ => []
       end.

Definition footprints (h : store) (ls : list loc) : list loc :=
  flat_map (footprint h) ls.

(** What [processStreamResponse] pushes to [outputContent]: of the content
    objects of the yielded chunks, those that make their chunk pass
    [isValidResponse] and are no thoughts.  (A chunk without content fails
    [isValidResponse] and is passed over.) *)
Definition outputContentIn (h : store) (yielded : list loc) : list loc :=
  List.filter (λ l, isValidAt h l && negb (isThoughtAt h l)) yielded.

Section StreamIn.
Context (isFunctionResponse : Content → bool).

(** The end of [processStreamResponse] for a stream that raised no error:
    [this.recordHistory(inputContent, outputContent)]. *)
Definition streamRecordIn (h : store) (historyRef inputContent : loc)
    (yielded : list loc) : option store :=
  recordHistoryIn isFunctionResponse h historyRef inputContent
    (outputContentIn h yielded).
End StreamIn.

(** The contents are objects of their own: no two of them share an object,
    and none shares one with the other contents. *)
Definition ownObjects (h : store) (contents others : list loc) : Prop :=
  NoDup (footprints h contents)
  ∧ Forall (λ x, x ∉ footprints h others) (footprints h contents).

(** The values of the contents [outputContentIn] keeps. *)
Definition recordedValues (yielded : list Content) : list Content :=
  List.filter (λ c, isValidContent c && negb (isThoughtContent (Some c)))
    yielded.

(** An empty history at 0, a user message at 1, and three model contents
    that are objects of their own: the text "a" at 4, the text "b" at 7 and
    a function call at 10. *)
Definition demoStreamStore : store :=
  {[ 0 := HistoryCell [];
     1 := ContentCell (Some "user") (Some 2);
     2 := PartsCell [3];
     3 := PartCell (textPart "hi");
     4 := ContentCell (Some "model") (Some 5);
     5 := PartsCell [6];
     6 := PartCell (textPart "a");
     7 := ContentCell (Some "model") (Some 8);
     8 := PartsCell [9];
     9 := PartCell (textPart "b");
     10 := ContentCell (Some "model") (Some 11);
     11 := PartsCell [12];
     12 := PartCell (callPart "ls") ]}.

(** * Properties *)

(** ** The definitions on sample inputs *)

Example isValidContent_samples :
  isValidContent (modelTurn "ok") = true
  ∧ isValidContent (modelTurn "") = false
  ∧ isValidContent emptyModelTurn = false
  ∧ isValidContent (mkContent (Some "model") None) = false
  ∧ isValidContent (mkContent (Some "model") (Some [thoughtPart ""])) = true
  ∧ isValidContent
      (mkContent (Some "model") (Some [mkPart None None None None 0]))
    = false
  ∧ isValidContent
      (mkContent (Some "model") (Some [mkPart None None None None 1]))
    = true
  ∧ isValidContent
      (mkContent (Some "model") (Some [callPart "read_file"; textPart ""]))
    = false.
Proof. repeat split. Qed.

Example validateHistory_samples :
  validateHistory [userTurn "a"; modelTurn "b"] = inr ()
  ∧ validateHistory [userTurn "a"; mkContent (Some "system") None]
    = inl "Role must be user or model, but got system."
  ∧ validateHistory [mkContent None None]
    = inl "Role must be user or model, but got undefined.".
Proof. repeat split. Qed.

Example extractCuratedHistory_samples :
  extractCuratedHistory [] = Some []
  ∧ extractCuratedHistory [emptyModelTurn; userTurn "a"] = Some [userTurn "a"]
  ∧ extractCuratedHistory
      [userTurn "a"; userTurn "b"; modelTurn "x"; emptyModelTurn;
       userTurn "c"; modelTurn "y"]
    = Some [userTurn "a"; userTurn "c"; modelTurn "y"]
  ∧ extractCuratedHistory [userTurn "a"; mkContent (Some "system") None]
    = None.
Proof. repeat split. Qed.

Example classifier_samples :
  toLowerCase "Read @Notes.MD" = "read @notes.md"
  ∧ includes "ls" "what else" = true
  ∧ _extractToolsCalled [userTurn "Find it, then find and GREP again"]
    = ["search_file_content"]
  ∧ _extractToolsCalled [userTurn "run `ls` and save the url"]
    = ["write_file"; "list_directory"; "run_shell_command"; "web_fetch"]
  ∧ _detectOperationType [] = "unknown"
  ∧ _detectOperationType [userTurn "a"] = "chat"
  ∧ _detectOperationType
      [userTurn "a"; mkContent (Some "model") (Some [callPart "ls"])]
    = "tool_call"
  ∧ _determineRequestContext [] = "new"
  ∧ _determineRequestContext [userTurn "a"] = "new"
  ∧ _determineRequestContext [userTurn "a"; modelTurn "b"; userTurn "c"]
    = "continuation"
  ∧ _determineRequestContext
      [mkContent (Some "user") (Some [resultPart "ls"])]
    = "tool_result"
  ∧ _estimateTokens [userTurn "hello"; modelTurn "hi there"] = 4%Z
  ∧ _hasFileContext [userTurn "see main.ts"] = true
  ∧ _hasFileContext [userTurn "see the main module"] = false
  ∧ _getSystemPromptLength None = 0%Z
  ∧ _getSystemPromptLength (Some (InstructionString "be brief")) = 8%Z
  ∧ _getSystemPromptLength
      (Some (InstructionParts (Some [textPart "be "; callPart "f";
                                     textPart "brief"])))
    = 8%Z
  ∧ _getSystemPromptLength (Some (InstructionText (Some "be brief"))) = 8%Z.
Proof. repeat split. Qed.

Example detectResponseType_samples :
  _detectResponseType (ParsedObject (responseOf (modelTurn "a") None))
  = "text_response"
  ∧ _detectResponseType
      (ParsedObject
         (responseOf (mkContent (Some "model") (Some [callPart "ls"])) None))
    = "tool_call"
  ∧ _detectResponseType
      (ParsedObject
         (responseOf
            (mkContent (Some "model") (Some [textPart "a"; callPart "ls"]))
            None))
    = "mixed"
  ∧ _detectResponseType (ParsedObject usageOnlyChunk) = "error"
  ∧ _detectResponseType (ParsedArray [responseOf (modelTurn "a") None])
    = "error".
Proof. repeat split. Qed.

Example recordHistory_samples :
  recordHistory demoIsFunctionResponse [] (userTurn "q")
    [modelTurn "a"; modelTurn "b"] None
  = Some [userTurn "q"; modelTurn "ab"]
  ∧ recordHistory demoIsFunctionResponse [] (userTurn "q") [] None
    = Some [userTurn "q"; emptyModelTurn]
  ∧ recordHistory demoIsFunctionResponse [] (userTurn "q")
      [mkContent (Some "model") (Some [thoughtPart "hm"])] None
    = Some [userTurn "q"]
  ∧ recordHistory demoIsFunctionResponse []
      (mkContent (Some "user") (Some [resultPart "ls"])) [] None
    = Some [mkContent (Some "user") (Some [resultPart "ls"])]
  ∧ recordHistory demoIsFunctionResponse [userTurn "old"] (userTurn "q")
      [modelTurn "a"]
      (Some [userTurn "q"; mkContent (Some "model") (Some [callPart "ls"]);
             mkContent (Some "user") (Some [resultPart "ls"])])
    = Some [userTurn "old"; userTurn "q";
            mkContent (Some "model") (Some [callPart "ls"]);
            mkContent (Some "user") (Some [resultPart "ls"]); modelTurn "a"].
Proof. repeat split. Qed.

Example generateLogFilePath_samples :
  generateLogFilePath (demoLogger demoConfig) "2025-08-11"
  = "/home/dev/logs/2025-08-11-01234567.jsonl"
  ∧ generateLogFilePath (setRoll (demoLogger demoConfig) 12) "2025-08-11"
    = "/home/dev/logs/2025-08-11-01234567-12.jsonl"
  ∧ maxFileSize = 10485760%N.
Proof. repeat split. Qed.

(** ** Facts about the curation loop *)

Section CurationFacts.
Context {A : Type} (user model valid : A → bool).
Hypothesis user_not_model : ∀ c, user c = true → model c = false.

Local Abbreviation mrun := (modelRun model valid).
Local Abbreviation loop := (curateLoop user model valid).
Local Abbreviation cur := (curate user model valid).
Local Abbreviation startsModel := (startsModel model).
Local Abbreviation knownRole := (knownRole user model).
Local Abbreviation keeps := (keeps user model valid).
Local Abbreviation runValid := (runValid model valid).
Local Abbreviation curatedSpec := (curatedSpec user model valid).

Lemma modelRun_app run rest modelOutput isValid :
  forallb model run = true →
  startsModel rest = false →
  mrun (run ++ rest) modelOutput isValid
  = (modelOutput ++ run, isValid && forallb valid run, rest).
Proof.
  revert modelOutput isValid.
  induction run as [|c run IH]; intros mo iv Hrun Hrest; simpl in *.
  - rewrite app_nil_r, andb_true_r.
    destruct rest as [|d rest]; simpl in *; [done|]. by rewrite Hrest.
  - apply andb_true_iff in Hrun as [Hc Hrun]. rewrite Hc.
    rewrite IH by done. rewrite <- app_assoc. simpl.
    f_equal. f_equal. by destruct iv, (valid c).
Qed.

(** Every list splits into its leading run of model entries and the rest. *)
Lemma leading_run (rest : list A) :
  ∃ run rest', rest = run ++ rest' ∧ forallb model run = true
               ∧ startsModel rest' = false.
Proof.
  induction rest as [|c rest (run & rest' & -> & Hrun & Hrest')].
  - by exists [], [].
  - destruct (model c) eqn:Hc.
    + exists (c :: run), rest'. simpl. by rewrite Hc.
    + exists [], (c :: run ++ rest'). simpl. by rewrite Hc.
Qed.

(** An entry that is neither a user nor a model turn is never consumed. *)
Lemma curateLoop_stuck fuel c rest curated :
  user c = false → model c = false →
  loop fuel (c :: rest) curated = None.
Proof.
  intros Hu Hm. revert curated.
  induction fuel as [|fuel IH]; intros curated; simpl; [done|].
  rewrite Hu, Hm. apply IH.
Qed.

(** One pass of the outer loop over a user turn. *)
Lemma curateLoop_user fuel c rest curated :
  user c = true →
  loop (S fuel) (c :: rest) curated
  = loop fuel rest (curated ++ [c]).
Proof. intros Hu. simpl. by rewrite Hu. Qed.

(** One pass of the outer loop over a non-empty model run. *)
Lemma curateLoop_run fuel c run rest curated :
  user c = false → forallb model (c :: run) = true →
  startsModel rest = false →
  loop (S fuel) (c :: run ++ rest) curated
  = loop fuel rest
      (if forallb valid (c :: run) then curated ++ c :: run
       else pop curated).
Proof.
  intros Hu Hrun Hrest.
  pose proof (modelRun_app (c :: run) rest [] true Hrun Hrest) as E.
  change ((c :: run) ++ rest) with (c :: run ++ rest) in E.
  cbn [curateLoop]. rewrite Hu, E. done.
Qed.

(** Any two sufficient amounts of fuel give the same answer. *)
Lemma curateLoop_fuel f1 f2 rest curated :
  length rest < f1 → length rest < f2 →
  loop f1 rest curated = loop f2 rest curated.
Proof.
  revert f2 rest curated.
  induction f1 as [|f1 IH]; intros f2 rest curated H1 H2; [lia|].
  destruct f2 as [|f2]; [lia|].
  destruct rest as [|c tl]; [done|]. simpl in H1, H2.
  destruct (user c) eqn:Hu.
  - simpl. rewrite Hu. apply IH; lia.
  - destruct (model c) eqn:Hm.
    + destruct (leading_run tl) as (run & rest' & -> & Hrun & Hrest').
      rewrite !curateLoop_run by (simpl; rewrite ?Hm; done).
      rewrite length_app in H1, H2. apply IH; lia.
    + by rewrite !curateLoop_stuck.
Qed.

(** Whatever lies below a non-empty accumulator is never touched; with an
    empty accumulator the same holds unless a model run comes first. *)
Lemma curateLoop_frame fuel rest pre curated :
  curated ≠ [] ∨ startsModel rest = false →
  loop fuel rest (pre ++ curated)
  = (pre ++.) <$> loop fuel rest curated.
Proof.
  revert rest curated.
  induction fuel as [|fuel IH]; intros rest curated Hc; [done|].
  destruct rest as [|c tl]; [done|].
  destruct (user c) eqn:Hu.
  - simpl. rewrite Hu. rewrite <- app_assoc. apply IH.
    left. by destruct curated.
  - destruct (model c) eqn:Hm.
    + destruct (leading_run tl) as (run & rest' & -> & Hrun & Hrest').
      rewrite !curateLoop_run by (simpl; rewrite ?Hm; done).
      destruct Hc as [Hc|Hc]; [|simpl in Hc; congruence].
      destruct (forallb valid (c :: run)).
      * rewrite <- app_assoc. apply IH. by right.
      * unfold pop. rewrite removelast_app by done. apply IH. by right.
    + by rewrite !curateLoop_stuck.
Qed.

Lemma curateLoop_frame_nil fuel rest pre :
  startsModel rest = false →
  loop fuel rest pre = (pre ++.) <$> loop fuel rest [].
Proof.
  intros H. rewrite <- (app_nil_r pre) at 1.
  apply curateLoop_frame. by right.
Qed.

(** The loop ends on every history whose roles are [user] or [model]. *)
Lemma curateLoop_total fuel rest curated :
  forallb knownRole rest = true → length rest < fuel →
  is_Some (loop fuel rest curated).
Proof.
  revert rest curated.
  induction fuel as [|fuel IH]; intros rest curated Hk Hf; [lia|].
  destruct rest as [|c tl]; [by eexists|]. simpl in Hk, Hf.
  apply andb_true_iff in Hk as [Hc Hk].
  destruct (user c) eqn:Hu.
  - simpl. rewrite Hu. apply IH; [done|lia].
  - unfold knownRole in Hc. rewrite Hu in Hc. simpl in Hc.
    destruct (leading_run tl) as (run & rest' & -> & Hrun & Hrest').
    rewrite curateLoop_run by (simpl; rewrite ?Hc; done).
    rewrite forallb_app in Hk. apply andb_true_iff in Hk as [_ Hk].
    rewrite length_app in Hf. apply IH; [done|lia].
Qed.

(** ... and on no other. *)
Lemma curateLoop_diverges fuel rest curated :
  forallb knownRole rest = false → loop fuel rest curated = None.
Proof.
  revert rest curated.
  induction fuel as [|fuel IH]; intros rest curated Hk; [done|].
  destruct rest as [|c tl]; [done|]. simpl in Hk.
  destruct (user c) eqn:Hu.
  - simpl. rewrite Hu. apply IH. unfold knownRole in Hk.
    by rewrite Hu in Hk.
  - destruct (model c) eqn:Hm.
    + destruct (leading_run tl) as (run & rest' & -> & Hrun & Hrest').
      rewrite curateLoop_run by (simpl; rewrite ?Hm; done).
      apply IH. unfold knownRole at 1 in Hk. rewrite Hu, Hm in Hk.
      simpl in Hk. rewrite forallb_app in Hk.
      apply andb_false_iff in Hk as [Hk|Hk]; [|done].
      exfalso. clear -Hrun Hk.
      induction run as [|d run IHr]; simpl in *; [done|].
      apply andb_true_iff in Hrun as [Hd Hrun].
      unfold knownRole at 1 in Hk. rewrite Hd, orb_true_r in Hk. auto.
    + by apply curateLoop_stuck.
Qed.

(** [curate] started from its own fuel is the loop at any larger fuel. *)
Lemma curate_loop fuel h :
  length h < fuel → cur h = loop fuel h [].
Proof.
  intros Hf. destruct h as [|c tl].
  - destruct fuel; [simpl in Hf; lia|done].
  - unfold curate. apply curateLoop_fuel; simpl in *; lia.
Qed.

Lemma curate_total h :
  forallb knownRole h = true → is_Some (cur h).
Proof.
  intros Hk. rewrite (curate_loop (S (length h))) by lia.
  apply curateLoop_total; [done|lia].
Qed.

Lemma curate_diverges h :
  forallb knownRole h = false → cur h = None.
Proof.
  intros Hk. rewrite (curate_loop (S (length h))) by lia.
  by apply curateLoop_diverges.
Qed.

Lemma curateLoop_curate fuel rest pre :
  length rest < fuel → startsModel rest = false →
  loop fuel rest pre = (pre ++.) <$> cur rest.
Proof.
  intros Hf Hrest. rewrite curateLoop_frame_nil by done.
  by rewrite (curate_loop fuel).
Qed.

Lemma run_not_user m run :
  forallb model (m :: run) = true → user m = false.
Proof.
  simpl. intros [Hm _]%andb_true_iff.
  destruct (user m) eqn:E; [|done].
  apply user_not_model in E. congruence.
Qed.

(** A user turn and the model run after it. *)
Lemma curate_user_block u run rest :
  user u = true → forallb model run = true → startsModel rest = false →
  cur (u :: run ++ rest)
  = ((if forallb valid run then u :: run else []) ++.) <$> cur rest.
Proof.
  intros Hu Hrun Hrest.
  rewrite (curate_loop (S (S (length (run ++ rest))))) by (simpl; lia).
  rewrite curateLoop_user by done. cbn [app].
  destruct run as [|m run].
  - cbn [app forallb]. apply curateLoop_curate; [lia|done].
  - cbn [app length]. rewrite curateLoop_run by eauto using run_not_user.
    rewrite curateLoop_curate by (rewrite ?length_app; done || lia).
    by destruct (forallb valid (m :: run)).
Qed.

(** A model run with no user turn before it (at the head of the history). *)
Lemma curate_leading_run m run rest :
  forallb model (m :: run) = true → startsModel rest = false →
  cur (m :: run ++ rest)
  = ((if forallb valid (m :: run) then m :: run else []) ++.) <$> cur rest.
Proof.
  intros Hrun Hrest.
  rewrite (curate_loop (S (S (length (run ++ rest))))) by (simpl; lia).
  rewrite curateLoop_run by eauto using run_not_user.
  rewrite curateLoop_curate by (rewrite ?length_app; done || lia).
  by destruct (forallb valid (m :: run)).
Qed.

Lemma runValid_app run rest :
  forallb model run = true → startsModel rest = false →
  runValid (run ++ rest) = forallb valid run.
Proof.
  intros Hrun Hrest. induction run as [|m run IH]; simpl in *.
  - destruct rest as [|d rest]; simpl in *; [done|]. by rewrite Hrest.
  - apply andb_true_iff in Hrun as [Hm Hrun]. rewrite Hm. by rewrite IH.
Qed.

Lemma curatedSpec_before b rest :
  startsModel rest = false → curatedSpec b rest = curatedSpec true rest.
Proof.
  destruct rest as [|d rest]; simpl; [done|]. intros ->.
  by destruct (user d).
Qed.

Lemma curatedSpec_run b run rest :
  forallb model run = true → startsModel rest = false →
  curatedSpec b (run ++ rest)
  = (if b && forallb valid run then run else []) ++ curatedSpec true rest.
Proof.
  intros Hrun Hrest. revert b.
  induction run as [|m run IH]; intros b.
  - simpl. rewrite curatedSpec_before by done.
    by destruct b.
  - pose proof (run_not_user _ _ Hrun) as Hu.
    simpl in Hrun. apply andb_true_iff in Hrun as [Hm Hrun].
    cbn [app curatedSpec forallb]. rewrite Hu, Hm.
    rewrite IH, runValid_app by done.
    by destruct b, (valid m), (forallb valid run).
Qed.

(** The loop computes exactly that. *)
Lemma curate_curatedSpec h :
  forallb knownRole h = true → cur h = Some (curatedSpec true h).
Proof.
  remember (length h) as n eqn:Hn. revert h Hn.
  induction (lt_wf n) as [n _ IH]; intros h -> Hk.
  destruct h as [|c tl]; [done|].
  simpl in Hk. apply andb_true_iff in Hk as [Hc Hk].
  destruct (leading_run tl) as (run & rest & -> & Hrun & Hrest).
  assert (cur rest = Some (curatedSpec true rest)) as Hrec.
  { apply (IH (length rest)); [simpl; rewrite length_app; lia|done|].
    rewrite forallb_app in Hk. by apply andb_true_iff in Hk as [_ ?]. }
  destruct (user c) eqn:Hu.
  - rewrite curate_user_block, Hrec by done.
    cbn [curatedSpec]. rewrite Hu, runValid_app, curatedSpec_run by done.
    simpl. by destruct (forallb valid run).
  - unfold knownRole in Hc. rewrite Hu in Hc. simpl in Hc.
    assert (forallb model (c :: run) = true) as Hrun'
      by (simpl; by rewrite Hc).
    rewrite curate_leading_run, Hrec by done.
    change (c :: run ++ rest) with ((c :: run) ++ rest).
    rewrite curatedSpec_run by done. done.
Qed.

(** *** Curating twice *)

Lemma keeps_removelast l :
  forallb keeps l = true → forallb keeps (removelast l) = true.
Proof.
  induction l as [|x [|y l] IH]; simpl in *; [done..|].
  intros [Hx H]%andb_true_iff. rewrite Hx. by apply IH.
Qed.

Lemma keeps_run run :
  forallb model run = true → forallb valid run = true →
  forallb keeps run = true.
Proof.
  induction run as [|m run IH]; simpl; [done|].
  intros [Hm Hrun]%andb_true_iff [Hv Hval]%andb_true_iff.
  unfold keeps at 1. rewrite Hm, Hv, orb_true_r. by apply IH.
Qed.

Lemma run_valid_of_keeps run :
  forallb model run = true → forallb keeps run = true →
  forallb valid run = true.
Proof.
  induction run as [|m run IH]; simpl; [done|].
  intros [Hm Hrun]%andb_true_iff [Hk Hks]%andb_true_iff.
  rewrite IH, andb_true_r by done.
  unfold keeps in Hk. rewrite Hm in Hk.
  destruct (user m) eqn:Hu; [|done].
  apply user_not_model in Hu. congruence.
Qed.

(** Whatever the loop returns holds only user turns and valid model
    turns. *)
Lemma curateLoop_keeps fuel rest curated r :
  forallb keeps curated = true →
  loop fuel rest curated = Some r → forallb keeps r = true.
Proof.
  revert rest curated.
  induction fuel as [|fuel IH]; intros rest curated Hacc; [done|].
  destruct rest as [|c tl]; [by intros [= <-]|].
  destruct (user c) eqn:Hu.
  - rewrite curateLoop_user by done. apply IH.
    rewrite forallb_app, Hacc. simpl. unfold keeps. by rewrite Hu.
  - destruct (model c) eqn:Hm.
    + destruct (leading_run tl) as (run & rest' & -> & Hrun & Hrest').
      assert (forallb model (c :: run) = true) as Hrun'
        by (simpl; by rewrite Hm).
      rewrite curateLoop_run by done.
      destruct (forallb valid (c :: run)) eqn:Hv; apply IH.
      * rewrite forallb_app, Hacc. by apply keeps_run.
      * by apply keeps_removelast.
    + by rewrite curateLoop_stuck.
Qed.

(** On such a history the loop changes nothing. *)
Lemma curateLoop_id fuel h curated :
  forallb keeps h = true → length h < fuel →
  loop fuel h curated = Some (curated ++ h).
Proof.
  revert h curated.
  induction fuel as [|fuel IH]; intros h curated Hk Hf; [lia|].
  destruct h as [|c tl]; [by rewrite app_nil_r|].
  simpl in Hf. destruct (user c) eqn:Hu.
  - rewrite curateLoop_user by done.
    simpl in Hk. apply andb_true_iff in Hk as [_ Hk].
    rewrite IH by (done || lia). by rewrite <- app_assoc.
  - destruct (leading_run tl) as (run & rest' & -> & Hrun & Hrest').
    assert (model c = true) as Hm.
    { simpl in Hk. apply andb_true_iff in Hk as [Hc _].
      unfold keeps in Hc. rewrite Hu in Hc.
      by apply andb_true_iff in Hc as [? _]. }
    assert (forallb model (c :: run) = true) as Hrun'
      by (simpl; by rewrite Hm).
    change (c :: run ++ rest') with ((c :: run) ++ rest') in Hk.
    rewrite forallb_app in Hk. apply andb_true_iff in Hk as [Hk1 Hk2].
    rewrite curateLoop_run by done.
    rewrite (run_valid_of_keeps _ Hrun' Hk1).
    rewrite length_app in Hf.
    rewrite IH by (done || lia). by rewrite <- app_assoc.
Qed.

Lemma curate_idempotent h c :
  cur h = Some c → cur c = Some c.
Proof.
  intros Hc. rewrite (curate_loop (S (length h))) in Hc by lia.
  apply curateLoop_keeps in Hc; [|done].
  rewrite (curate_loop (S (length c))) by lia.
  by rewrite curateLoop_id by (done || lia).
Qed.
End CurationFacts.

(** ** Curation of the session's history *)

Lemma isUser_not_isModel c : isUser c = true → isModel c = false.
Proof.
  unfold isUser, isModel. intros Hu%bool_decide_eq_true.
  apply bool_decide_eq_false. congruence.
Qed.

(** [validateHistory] accepts exactly the histories of known roles. *)
Lemma validateHistory_knownRole h :
  validateHistory h = inr () ↔ forallb (knownRole isUser isModel) h = true.
Proof.
  induction h as [|c h IH]; simpl; [done|].
  unfold knownRole at 1.
  destruct (isUser c), (isModel c); simpl; rewrite ?IH; done.
Qed.

(** C4.  Curation keeps a user turn unless the model run right after it has
    an invalid turn, and keeps a model turn exactly when every turn of its
    maximal run is content-valid: on every history that [validateHistory]
    accepts the loop ends and returns [curatedSpec]; block by block, a user
    turn followed by a maximal model run contributes the turn and the run
    when the run is all valid and nothing otherwise, and so does a run at
    the head of the history.  In particular a history [user "hi"], empty
    model turn, followed by a new user turn curates to the new turn alone. *)
Theorem extractCuratedHistory_drops_invalid_runs :
  (∀ h, validateHistory h = inr () →
        extractCuratedHistory h
        = Some (curatedSpec isUser isModel isValidContent true h))
  ∧ (∀ u run rest,
        isUser u = true → forallb isModel run = true →
        startsModel isModel rest = false →
        extractCuratedHistory (u :: run ++ rest)
        = ((if forallb isValidContent run then u :: run else []) ++.)
            <$> extractCuratedHistory rest)
  ∧ (∀ m run rest,
        forallb isModel (m :: run) = true →
        startsModel isModel rest = false →
        extractCuratedHistory (m :: run ++ rest)
        = ((if forallb isValidContent (m :: run) then m :: run else []) ++.)
            <$> extractCuratedHistory rest)
  ∧ (∀ s, extractCuratedHistory [userTurn "hi"; modelTurn ""; userTurn s]
          = Some [userTurn s])
  ∧ (∀ s, extractCuratedHistory [userTurn "hi"; emptyModelTurn; userTurn s]
          = Some [userTurn s]).
Proof.
  split; [|split; [|split; [|split]]].
  - intros h Hh. apply curate_curatedSpec.
    + apply isUser_not_isModel.
    + by apply validateHistory_knownRole.
  - intros u run rest. apply (curate_user_block _ _ _ isUser_not_isModel).
  - intros m run rest. apply (curate_leading_run _ _ _ isUser_not_isModel).
  - done.
  - done.
Qed.

Lemma extractCuratedHistory_drops_invalid_runs_witness :
  validateHistory [userTurn "hi"; modelTurn ""; userTurn "next"] = inr ()
  ∧ extractCuratedHistory [userTurn "hi"; modelTurn ""; userTurn "next"]
    = Some [userTurn "next"].
Proof.
  split; [reflexivity|].
  exact (proj1 extractCuratedHistory_drops_invalid_runs
           [userTurn "hi"; modelTurn ""; userTurn "next"] eq_refl).
Defined.

(** The loop of the source does not end on a history with another role. *)
Lemma extractCuratedHistory_diverges h msg :
  validateHistory h = inl msg → extractCuratedHistory h = None.
Proof.
  intros Hh. apply curate_diverges.
  destruct (forallb _ h) eqn:E; [|done].
  apply validateHistory_knownRole in E. congruence.
Qed.

(** C7.  Curation is idempotent: on every history the constructor accepts,
    curation returns a history, and curating any history that curation
    returned gives it back unchanged. *)
Theorem extractCuratedHistory_idempotent (h : list Content) :
  (validateHistory h = inr () → is_Some (extractCuratedHistory h))
  ∧ (∀ c, extractCuratedHistory h = Some c →
          extractCuratedHistory c = Some c).
Proof.
  split.
  - intros Hh. apply curate_total.
    by apply validateHistory_knownRole.
  - intros c. apply (curate_idempotent _ _ _ isUser_not_isModel).
Qed.

Lemma extractCuratedHistory_idempotent_witness :
  extractCuratedHistory
    [userTurn "a"; modelTurn "b"; userTurn "c"; emptyModelTurn; userTurn "d"]
  = Some [userTurn "a"; modelTurn "b"; userTurn "d"]
  ∧ extractCuratedHistory [userTurn "a"; modelTurn "b"; userTurn "d"]
    = Some [userTurn "a"; modelTurn "b"; userTurn "d"].
Proof.
  split; [reflexivity|].
  exact (proj2 (extractCuratedHistory_idempotent
                  [userTurn "a"; modelTurn "b"; userTurn "c"; emptyModelTurn;
                   userTurn "d"]) _ eq_refl).
Defined.

(** ** The rolling log writer *)

Lemma string_length_app (a b : string) :
  String.length (a +:+ b) = String.length a + String.length b.
Proof. induction a as [|c a IH]; simpl; [done|]. by rewrite IH. Qed.

Lemma string_app_inv_head (a a' b b' : string) :
  String.length a = String.length a' →
  a +:+ b = a' +:+ b' → a = a' ∧ b = b'.
Proof.
  revert a'. induction a as [|c a IH]; intros [|c' a'] Hl He;
    simpl in *; try done.
  injection He as -> He. destruct (IH a') as [-> ->]; [lia|done|done].
Qed.

Lemma string_app_inv_tail (a b t : string) :
  a +:+ t = b +:+ t → a = b.
Proof.
  intros He. apply (string_app_inv_head a b t t); [|done].
  apply (f_equal String.length) in He.
  rewrite !string_length_app in He. lia.
Qed.

Lemma rollSuffix_inj r r' : rollSuffix r = rollSuffix r' → r = r'.
Proof.
  unfold rollSuffix. repeat case_bool_decide; intros He.
  - apply (inj (String.append _)) in He. by apply (inj pretty) in He.
  - apply (f_equal String.length) in He.
    rewrite string_length_app in He. simpl in He. lia.
  - apply (f_equal String.length) in He.
    rewrite string_length_app in He. simpl in He. lia.
  - lia.
Qed.

(** Two paths made for one directory and one session, on whatever dates,
    name the same file only for the same roll number. *)
Lemma generateLogFilePath_roll lg lg' d d' :
  logDir lg = logDir lg' →
  getSessionId (config lg) = getSessionId (config lg') →
  isDateStr d → isDateStr d' →
  generateLogFilePath lg d = generateLogFilePath lg' d' →
  currentRollNumber lg = currentRollNumber lg'.
Proof.
  unfold generateLogFilePath, pathJoin, logFileName, isDateStr.
  intros -> -> Hd Hd' He.
  apply (inj (String.append _)) in He.
  apply (inj (String.append _)) in He.
  apply string_app_inv_head in He as [_ He]; [|congruence].
  apply (inj (String.append _)) in He.
  apply (inj (String.append _)) in He.
  by apply string_app_inv_tail, rollSuffix_inj in He.
Qed.

Section LogWriterFacts.
Context (safeJsonStringify : LogEntry → string) (toISOString : Z → string).
Local Abbreviation logEv := (logEvent safeJsonStringify toISOString).
Local Abbreviation logEvs := (logEvents safeJsonStringify toISOString).
Local Abbreviation lineOf := (logLineOf safeJsonStringify toISOString).

Lemma checkAndRollFile_frame lg fs line d :
  let lg' := checkAndRollFile lg fs line d in
  config lg' = config lg ∧ logDir lg' = logDir lg
  ∧ (currentRollNumber lg ≤ currentRollNumber lg')%nat.
Proof.
  unfold checkAndRollFile. destruct (fs !! _); [|done].
  case_bool_decide; simpl; auto.
Qed.

Lemma checkAndRollFile_inSync lg fs line d :
  pathInSync lg → isDateStr d → pathInSync (checkAndRollFile lg fs line d).
Proof.
  intros Hs Hd. unfold checkAndRollFile. destruct (fs !! _); [|done].
  case_bool_decide; [|done]. by exists d.
Qed.

Lemma appendFileSync_other fs p q data :
  p ≠ q → appendFileSync fs p data !! q = fs !! q.
Proof. intros Hne. unfold appendFileSync. by rewrite lookup_insert_ne. Qed.

Lemma appendFileSync_same fs p data :
  appendFileSync fs p data !! p
  = Some (mkFile (fsize (default (mkFile 0 []) (fs !! p)) + byteLength data)
            (appended (default (mkFile 0 []) (fs !! p)) ++ [data])).
Proof. unfold appendFileSync. by rewrite lookup_insert_eq. Qed.

(** The constructor and every call of [logEvent] leave the active path in
    step with the roll number. *)
Lemma newLogger_inSync cfg cwd student machine d :
  isDateStr d → pathInSync (newLogger cfg cwd student machine d).
Proof. intros Hd. by exists d. Qed.

Lemma logEvent_inSync lg fs event d :
  pathInSync lg → isDateStr d → pathInSync (logEv lg fs event d).1.
Proof.
  intros Hs Hd. unfold logEvent. destruct (getTelemetryEnabled _); [|done].
  by apply checkAndRollFile_inSync.
Qed.

Lemma logEvent_keeps_rolled_file lg fs event d old :
  pathInSync lg → isDateStr d → rolledPast lg old →
  let r := logEv lg fs event d in
  pathInSync r.1 ∧ rolledPast r.1 old ∧ r.2 !! old = fs !! old.
Proof.
  intros Hs Hd (lg0 & d0 & Hd0 & -> & Hdir & Hsid & Hlt).
  unfold logEvent. destruct (getTelemetryEnabled _); simpl.
  2: { split; [done|]. split; [|done]. by exists lg0, d0. }
  set (line := lineOf lg event).
  destruct (checkAndRollFile_frame lg fs line d) as (Hc & Hl & Hr).
  pose proof (checkAndRollFile_inSync lg fs line d Hs Hd) as Hs'.
  set (lg' := checkAndRollFile lg fs line d) in *.
  split; [done|]. split.
  - exists lg0, d0. rewrite Hc, Hl. repeat split; try done. lia.
  - apply appendFileSync_other. intros He.
    destruct Hs' as (d' & Hd' & Hp). rewrite Hp in He.
    apply generateLogFilePath_roll in He; try done; [lia|congruence..].
Qed.

Lemma logEvents_keep_rolled_file calls lg fs old :
  pathInSync lg → rolledPast lg old →
  Forall (λ call, isDateStr call.2) calls →
  (logEvs lg fs calls).2 !! old = fs !! old.
Proof.
  revert lg fs. induction calls as [|[event d] calls IH];
    intros lg fs Hs Hr Hd; [done|].
  apply Forall_cons in Hd as [Hd Hds]. simpl in Hd.
  destruct (logEvent_keeps_rolled_file lg fs event d old Hs Hd Hr)
    as (Hs' & Hr' & Hfs).
  simpl. destruct (logEv lg fs event d) as [lg' fs'] eqn:E. simpl in *.
  rewrite IH by done. done.
Qed.

(** C3, with the test of the source: the roll happens when the projected
    size is strictly above the cap.  If the active file exists and its size
    plus the byte length of the candidate line exceeds [maxFileSize], then
    [logEvent] increments the roll number and switches the active path to
    the name made for the new number before it writes; the line is appended
    to the file of that name, the old file is not written by this call, and
    no later call of [logEvent] on this logger writes to it either. *)
Theorem logEvent_rolls_above_cap lg fs event dateStr stats :
  getTelemetryEnabled (config lg) = true →
  pathInSync lg → isDateStr dateStr →
  fs !! currentLogFilePath lg = Some stats →
  (maxFileSize
   < fsize stats
     + byteLength (logLineOf safeJsonStringify toISOString lg event))%N →
  let line := logLineOf safeJsonStringify toISOString lg event in
  let r := logEvent safeJsonStringify toISOString lg fs event dateStr in
  let old := currentLogFilePath lg in
  let new := currentLogFilePath r.1 in
  currentRollNumber r.1 = S (currentRollNumber lg)
  ∧ new = generateLogFilePath r.1 dateStr
  ∧ new ≠ old
  ∧ r.2 !! new
    = Some (mkFile
              (fsize (default (mkFile 0 []) (fs !! new)) + byteLength line)
              (appended (default (mkFile 0 []) (fs !! new)) ++ [line]))
  ∧ r.2 !! old = Some stats
  ∧ ∀ calls, Forall (λ call, isDateStr call.2) calls →
             (logEvents safeJsonStringify toISOString r.1 r.2 calls).2
               !! old = Some stats.
Proof.
  intros Hon Hs Hd Hfile Hcap line r old new.
  assert (r = (setPath (setRoll lg (S (currentRollNumber lg)))
                 (generateLogFilePath
                    (setRoll lg (S (currentRollNumber lg))) dateStr),
               appendFileSync fs
                 (generateLogFilePath
                    (setRoll lg (S (currentRollNumber lg))) dateStr) line))
    as Hr.
  { subst r. unfold logEvent, checkAndRollFile. rewrite Hon. simpl.
    fold line. rewrite Hfile. by rewrite bool_decide_eq_true_2. }
  assert (new ≠ old) as Hne.
  { subst new old. rewrite Hr. simpl. destruct Hs as (d & Hdd & ->).
    intros He. apply generateLogFilePath_roll in He; try done.
    simpl in He. lia. }
  assert (pathInSync r.1) as Hs'.
  { rewrite Hr. by exists dateStr. }
  assert (rolledPast r.1 old) as Hpast.
  { destruct Hs as (d & Hdd & Hp). exists lg, d. subst old.
    rewrite Hr. simpl. repeat split; try done. lia. }
  assert (r.2 !! old = Some stats) as Hold.
  { rewrite Hr. simpl. rewrite appendFileSync_other; [done|].
    subst new. rewrite Hr in Hne. done. }
  split; [by rewrite Hr|]. split; [subst new; by rewrite Hr|].
  split; [done|].
  split; [|split; [done|]].
  - subst new. rewrite Hr. simpl. apply appendFileSync_same.
  - intros calls Hcalls.
    by rewrite logEvents_keep_rolled_file.
Qed.

(** C10.  With telemetry disabled [logEvent] does nothing: no file of the
    directory changes and the rotation state (active path and roll number)
    stays as it was. *)
Theorem logEvent_disabled_noop lg fs event dateStr :
  getTelemetryEnabled (config lg) = false →
  logEvent safeJsonStringify toISOString lg fs event dateStr = (lg, fs).
Proof. intros Hoff. unfold logEvent. by rewrite Hoff. Qed.
End LogWriterFacts.

Lemma logEvent_rolls_above_cap_witness :
  let lg := demoLogger demoConfig in
  let fs := demoDir demoConfig 10485758 in
  let r := logEvent demoStringify demoISO lg fs demoEvent "2025-08-12" in
  currentLogFilePath lg = "/home/dev/logs/2025-08-11-01234567.jsonl"
  ∧ currentRollNumber r.1 = 1
  ∧ currentLogFilePath r.1 = "/home/dev/logs/2025-08-12-01234567-1.jsonl"
  ∧ r.2 !! "/home/dev/logs/2025-08-12-01234567-1.jsonl"
    = Some (mkFile 3 ["{}" +:+ newline])
  ∧ r.2 !! "/home/dev/logs/2025-08-11-01234567.jsonl"
    = Some (mkFile 10485758 []).
Proof.
  assert (pathInSync (demoLogger demoConfig)) as Hs
    by (exists "2025-08-11"; split; reflexivity).
  destruct (logEvent_rolls_above_cap demoStringify demoISO
              (demoLogger demoConfig) (demoDir demoConfig 10485758)
              demoEvent "2025-08-12" (mkFile 10485758 [])
              eq_refl Hs eq_refl eq_refl eq_refl)
    as (H1 & H2 & H3 & H4 & H5 & H6).
  split; [reflexivity|]. split; [exact H1|]. split; [exact H2|].
  split; [exact H4|exact H5].
Defined.

(** C3 as stated fails when the projected size meets the cap without
    exceeding it: the active file has 10485757 bytes, the line has 3, the
    sum is the cap of 10485760, and [logEvent] appends to the active file
    without rolling. *)
Lemma logEvent_no_roll_at_cap :
  let lg := demoLogger demoConfig in
  let fs := demoDir demoConfig 10485757 in
  let line := logLineOf demoStringify demoISO lg demoEvent in
  let r := logEvent demoStringify demoISO lg fs demoEvent "2025-08-11" in
  existsSync fs (currentLogFilePath lg) = true
  ∧ (10485757 + byteLength line = maxFileSize)%N
  ∧ currentRollNumber r.1 = currentRollNumber lg
  ∧ currentLogFilePath r.1 = currentLogFilePath lg
  ∧ r.2 !! currentLogFilePath lg = Some (mkFile maxFileSize [line]).
Proof. repeat split; vm_compute; reflexivity. Qed.

Lemma logEvent_disabled_noop_witness :
  logEvent demoStringify demoISO (demoLogger demoConfigOff)
    (demoDir demoConfigOff 10485758) demoEvent "2025-08-12"
  = (demoLogger demoConfigOff, demoDir demoConfigOff 10485758).
Proof.
  exact (logEvent_disabled_noop demoStringify demoISO
           (demoLogger demoConfigOff) (demoDir demoConfigOff 10485758)
           demoEvent "2025-08-12" eq_refl).
Defined.

(** ** Tool prediction: the latest user turn and the set of tools *)

Lemma find_rev_skip {A} (f : A → bool) (skipped l : list A) :
  (∀ c, In c skipped → f c = false) →
  List.find f (rev skipped ++ l) = List.find f l.
Proof.
  revert l. induction skipped as [|a skipped IH]; intros l Hs; [done|].
  simpl. rewrite <- app_assoc. rewrite IH.
  - simpl. rewrite Hs; [done|by left].
  - intros c Hc. apply Hs. by right.
Qed.

Lemma latestUserContent_last pre u post :
  isUser u = true → (∀ c, In c post → isUser c = false) →
  latestUserContent (pre ++ u :: post) = Some u.
Proof.
  intros Hu Hpost. unfold latestUserContent.
  rewrite rev_app_distr. simpl. rewrite <- !app_assoc.
  rewrite find_rev_skip by done. simpl. by rewrite Hu.
Qed.

Lemma latestUserContent_none contents :
  (∀ c, In c contents → isUser c = false) →
  latestUserContent contents = None.
Proof.
  intros Hc. unfold latestUserContent.
  rewrite <- (app_nil_r (rev contents)). by rewrite find_rev_skip.
Qed.

Lemma setFrom_elem items seen (x : string) :
  x ∈ setFrom items seen ↔ x ∈ items ∨ x ∈ seen.
Proof.
  revert seen. induction items as [|y items IH]; intros seen; simpl.
  - set_solver.
  - rewrite IH. case_bool_decide; set_solver.
Qed.

Lemma setFrom_NoDup items seen : NoDup seen → NoDup (setFrom items seen).
Proof.
  revert seen. induction items as [|y items IH]; intros seen Hs; [done|].
  simpl. apply IH. case_bool_decide; [done|].
  apply NoDup_app. split; [done|]. split; [|apply NoDup_singleton].
  intros z Hz. set_solver.
Qed.

Lemma toolsOfPart_elem part tool :
  tool ∈ toolsOfPart part
  ↔ ∃ t, text part = Some t ∧ t ≠ "" ∧ tool ∈ toolsOfText (toLowerCase t).
Proof.
  unfold toolsOfPart. destruct (text part) as [t|]; simpl.
  - case_bool_decide; simpl.
    + split; [by intros ?%elem_of_nil|]. intros (t' & [= <-] & Hne & _).
      done.
    + split; [by exists t|]. by intros (t' & [= <-] & _ & ?).
  - split; [by intros ?%elem_of_nil|]. by intros (t' & ? & _).
Qed.

(** ** Telemetry around an exchange *)

Lemma responseEvents_app es es' :
  responseEvents (es ++ es') = responseEvents es ++ responseEvents es'.
Proof. apply List.filter_app. Qed.

Lemma errorEvents_app es es' :
  errorEvents (es ++ es') = errorEvents es ++ errorEvents es'.
Proof. apply List.filter_app. Qed.

Lemma logApiResponse_emitted s d p rid usage resp :
  emitted (_logApiResponse s d p rid usage resp)
  = emitted s
    ++ match usage with
       | Some u =>
           [ApiResponseEvent (getModel (chatConfig s)) d p rid
              (getAuthType (chatConfig s)) u (_detectResponseType resp)]
       | None => []
       end.
Proof.
  unfold _logApiResponse. destruct usage as [u|]; [|by rewrite app_nil_r].
  by case_bool_decide.
Qed.

Lemma logApiResponse_frame s d p rid usage resp :
  history (_logApiResponse s d p rid usage resp) = history s
  ∧ chatConfig (_logApiResponse s d p rid usage resp) = chatConfig s.
Proof.
  unfold _logApiResponse. destruct usage as [u|]; [|done].
  by case_bool_decide.
Qed.

Lemma collectChunk_chunks yielded acc :
  (foldl collectChunk acc yielded).2 = acc.2 ++ collected yielded.
Proof.
  revert acc. induction yielded as [|c yielded IH]; intros acc; simpl.
  - by rewrite app_nil_r.
  - rewrite IH. unfold collectChunk.
    destruct (isValidResponse c); [|done].
    destruct (firstContent c) as [ct|];
      [destruct (isThoughtContent (Some ct))|];
      simpl; by rewrite <- app_assoc.
Qed.

Lemma getFinalUsageMetadata_none chunks :
  Forall (λ c, usageMetadata c = None) chunks →
  getFinalUsageMetadata chunks = None.
Proof.
  intros Hall. unfold getFinalUsageMetadata.
  rewrite <- (app_nil_r (rev chunks)). rewrite find_rev_skip; [done|].
  intros c Hc. rewrite Forall_forall in Hall.
  apply list_elem_of_In, Hall in Hc. by rewrite Hc.
Qed.

Lemma getFinalUsageMetadata_last pre c post usage :
  usageMetadata c = Some usage →
  Forall (λ c, usageMetadata c = None) post →
  getFinalUsageMetadata (pre ++ c :: post) = Some usage.
Proof.
  intros Hc Hpost. unfold getFinalUsageMetadata.
  rewrite rev_app_distr. simpl. rewrite <- !app_assoc.
  rewrite find_rev_skip.
  - simpl. by rewrite Hc.
  - intros d Hd. rewrite Forall_forall in Hpost.
    apply list_elem_of_In, Hpost in Hd. by rewrite Hd.
Qed.

Lemma validateHistory_drop n h :
  validateHistory h = inr () → validateHistory (drop n h) = inr ().
Proof.
  revert h. induction n as [|n IH]; intros [|c h]; simpl; try done.
  destruct (negb (isUser c) && negb (isModel c)); [done|]. apply IH.
Qed.

Lemma extractCuratedHistory_total h :
  validateHistory h = inr () → is_Some (extractCuratedHistory h).
Proof.
  intros Hh. apply curate_total. by apply validateHistory_knownRole.
Qed.

Section SessionFacts.
Context (isFunctionResponse : Content → bool).
Local Abbreviation send := (sendMessage isFunctionResponse).
Local Abbreviation sendStream := (sendMessageStream isFunctionResponse).
Local Abbreviation record := (recordHistory isFunctionResponse).

Lemma recordHistory_total hist userInput modelOutput afc :
  match afc with Some h => validateHistory h = inr () | None => True end →
  is_Some (record hist userInput modelOutput afc).
Proof.
  intros Hafc. unfold recordHistory.
  destruct afc as [[|c afc]|].
  - cbn [mbind option_bind].
    destruct (consolidate _) as [|first others]; [by eexists|].
    destruct (last _); [|by eexists].
    destruct (_ && _ && _); by eexists.
  - destruct (extractCuratedHistory_total _ Hafc) as [cur ->].
    cbn [mbind option_bind].
    destruct (consolidate _) as [|first others]; [by eexists|].
    destruct (last _); [|by eexists].
    destruct (_ && _ && _); by eexists.
  - cbn [mbind option_bind].
    destruct (consolidate _) as [|first others]; [by eexists|].
    destruct (last _); [|by eexists].
    destruct (_ && _ && _); by eexists.
Qed.

Lemma sendMessage_request_spec s userContent prompt_id requestId curated :
  extractCuratedHistory (history s) = Some curated →
  ∃ request,
    sendMessage_request s userContent prompt_id requestId
    = Some (emit s request, curated ++ [userContent])
    ∧ isResponseEvent request = false ∧ isErrorEvent request = false.
Proof.
  intros Hc. unfold sendMessage_request, getHistory. rewrite Hc. simpl.
  unfold _logApiRequest. by eexists.
Qed.

(** What the two paths emit as response events.  [sendMessage] emits none
    when the response has no usage metadata and exactly one, with that
    metadata, when it has.  A stream pulled to its end emits none when no
    collected chunk has usage metadata and otherwise exactly one, with the
    metadata of the last collected chunk that has some; the collected chunks
    are the yielded ones that pass [isValidResponse], and
    [getFinalUsageMetadata] finds the last of them by going through them in
    reverse. *)
Lemma response_events_of_exchange s userContent prompt_id requestId
    startTime endTime cfg :
  validateHistory (history s) = inr () →
  (∀ response, afcOk response →
     ∃ s', sendMessage isFunctionResponse s userContent prompt_id requestId
             startTime endTime (mkRun cfg (inl response))
           = Some (s', inl response)
       ∧ responseEvents (emitted s')
         = responseEvents (emitted s)
           ++ match usageMetadata response with
              | Some usage =>
                  [ApiResponseEvent (getModel cfg) (endTime - startTime)
                     prompt_id requestId (getAuthType cfg) usage
                     (_detectResponseType (ParsedObject response))]
              | None => []
              end)
  ∧ (∀ yielded,
     ∃ s', sendMessageStream isFunctionResponse s userContent prompt_id
             requestId startTime endTime (mkRun cfg (inl (yielded, None)))
           = Some (s', None)
       ∧ responseEvents (emitted s')
         = responseEvents (emitted s)
           ++ match getFinalUsageMetadata (collected yielded) with
              | Some usage =>
                  [ApiResponseEvent (getModel cfg) (endTime - startTime)
                     prompt_id requestId (getAuthType cfg) usage "error"]
              | None => []
              end)
  ∧ (∀ chunks, Forall (λ c, usageMetadata c = None) chunks →
               getFinalUsageMetadata chunks = None)
  ∧ (∀ pre c post usage,
       usageMetadata c = Some usage →
       Forall (λ c, usageMetadata c = None) post →
       getFinalUsageMetadata (pre ++ c :: post) = Some usage).
Proof.
  intros Hh.
  destruct (extractCuratedHistory_total _ Hh) as [curated Hc].
  destruct (sendMessage_request_spec s userContent prompt_id requestId
              curated Hc) as (request & Hreq & Hnr & _).
  split; [|split; [|split]].
  - intros response Hafc. unfold sendMessage. rewrite Hreq.
    cbn [mbind option_bind settled configAfter].
    unfold sendMessage_commit, sendMessage_logResponse, sendMessage_record.
    set (s2 := withConfig (emit s request) cfg).
    pose proof (logApiResponse_emitted s2 (endTime - startTime) prompt_id
                  requestId (usageMetadata response) (ParsedObject response))
      as Hem.
    destruct (logApiResponse_frame s2 (endTime - startTime) prompt_id
                requestId (usageMetadata response) (ParsedObject response))
      as [Hhist Hcfg].
    set (s3 := _logApiResponse _ _ _ _ _ _) in *.
    unfold getHistory. rewrite Hhist. simpl history. rewrite Hc.
    cbn [mbind option_bind].
    edestruct (recordHistory_total (history s) userContent
                 match firstContent response with
                 | Some c => [c]
                 | None => []
                 end
                 match automaticFunctionCallingHistory response with
                 | Some full => Some (drop (length curated) full)
                 | None => Some []
                 end) as [hist Hrec].
    { unfold afcOk in Hafc.
      destruct (automaticFunctionCallingHistory response); [|done].
      by apply validateHistory_drop. }
    rewrite Hrec. cbn [mbind option_bind].
    eexists. split; [done|]. simpl emitted. rewrite Hem.
    rewrite responseEvents_app. simpl emitted.
    rewrite responseEvents_app. simpl. rewrite Hnr, app_nil_r.
    by destruct (usageMetadata response).
  - intros yielded. unfold sendMessageStream. rewrite Hreq.
    cbn [mbind option_bind settled configAfter].
    unfold processStreamResponse.
    pose proof (collectChunk_chunks yielded ([], [])) as Hchunks.
    destruct (foldl collectChunk ([], []) yielded) as [out chunks].
    simpl in Hchunks. subst chunks.
    set (s2 := withConfig (emit s request) cfg).
    pose proof (logApiResponse_emitted s2 (endTime - startTime) prompt_id
                  requestId (getFinalUsageMetadata (collected yielded))
                  (ParsedArray (collected yielded))) as Hem.
    set (s3 := _logApiResponse _ _ _ _ _ _) in *.
    destruct (recordHistory_total (history s3) userContent out None I)
      as [hist Hrec].
    rewrite Hrec. cbn [mbind option_bind].
    eexists. split; [done|]. simpl emitted. rewrite Hem.
    rewrite responseEvents_app. simpl emitted.
    rewrite responseEvents_app. simpl. rewrite Hnr, app_nil_r.
    by destruct (getFinalUsageMetadata _).
  - apply getFinalUsageMetadata_none.
  - apply getFinalUsageMetadata_last.
Qed.

Lemma collected_no_usage yielded :
  Forall (λ chunk, hasUsage chunk = true → isValidResponse chunk = false)
    yielded →
  Forall (λ c, usageMetadata c = None) (collected yielded).
Proof.
  intros Hall. apply Forall_forall. intros c Hc.
  apply list_elem_of_In, List.filter_In in Hc as [Hin Hvalid].
  rewrite Forall_forall in Hall. apply list_elem_of_In in Hin.
  destruct (usageMetadata c) as [usage|] eqn:E; [|done].
  assert (isValidResponse c = false) as Hno.
  { apply Hall; [done|]. unfold hasUsage. by rewrite E. }
  congruence.
Qed.

(** C5 on the source as it stands.  A stream pulled to its end looks for
    usage metadata among the collected chunks only, and a chunk that fails
    [isValidResponse] is not collected: when every yielded chunk that
    carries usage metadata fails that check, the exchange emits no response
    event, however many chunks carry usage metadata.  [sendMessage] has no
    such filter: a response that carries usage metadata gives exactly one
    response event with it, whatever else the response holds. *)
Theorem stream_usage_on_invalid_chunk_not_logged s userContent prompt_id
    requestId startTime endTime cfg :
  validateHistory (history s) = inr () →
  (∀ yielded,
     Forall (λ chunk, hasUsage chunk = true → isValidResponse chunk = false)
       yielded →
     ∃ s', sendMessageStream isFunctionResponse s userContent prompt_id
             requestId startTime endTime (mkRun cfg (inl (yielded, None)))
           = Some (s', None)
       ∧ responseEvents (emitted s') = responseEvents (emitted s))
  ∧ (∀ response usage,
     afcOk response → usageMetadata response = Some usage →
     ∃ s', sendMessage isFunctionResponse s userContent prompt_id requestId
             startTime endTime (mkRun cfg (inl response))
           = Some (s', inl response)
       ∧ responseEvents (emitted s')
         = responseEvents (emitted s)
           ++ [ApiResponseEvent (getModel cfg) (endTime - startTime)
                 prompt_id requestId (getAuthType cfg) usage
                 (_detectResponseType (ParsedObject response))]).
Proof.
  intros Hh.
  destruct (response_events_of_exchange s userContent prompt_id requestId
              startTime endTime cfg Hh)
    as (Hsend & Hstream & _ & _).
  split.
  - intros yielded Hall. destruct (Hstream yielded) as (s' & Hrun & Hev).
    exists s'. split; [done|]. rewrite Hev.
    rewrite getFinalUsageMetadata_none by by apply collected_no_usage.
    apply app_nil_r.
  - intros response usage Hafc Hu.
    destruct (Hsend response Hafc) as (s' & Hrun & Hev).
    exists s'. split; [done|]. by rewrite Hev, Hu.
Qed.
End SessionFacts.

Lemma stream_usage_on_invalid_chunk_not_logged_witness :
  validateHistory (history demoChat) = inr ()
  ∧ existsb hasUsage [textChunk "hi"; usageOnlyChunk] = true
  ∧ (∃ s',
      sendMessageStream demoIsFunctionResponse demoChat (userTurn "hi")
        "p1" "r1" 100 350
        (mkRun demoConfig (inl ([textChunk "hi"; usageOnlyChunk], None)))
      = Some (s', None)
      ∧ responseEvents (emitted s') = [])
  ∧ (∃ s',
      sendMessage demoIsFunctionResponse demoChat (userTurn "hi")
        "p1" "r1" 100 350 (mkRun demoConfig (inl usageOnlyChunk))
      = Some (s', inl usageOnlyChunk)
      ∧ responseEvents (emitted s')
        = [ApiResponseEvent "qwen3-coder-plus" 250 "p1" "r1"
             (Some "qwen-oauth") demoUsage "error"]).
Proof.
  split; [reflexivity|]. split; [reflexivity|].
  pose proof (stream_usage_on_invalid_chunk_not_logged
                demoIsFunctionResponse demoChat (userTurn "hi") "p1" "r1"
                100 350 demoConfig eq_refl) as [Hstream Hsend].
  split.
  - apply (Hstream [textChunk "hi"; usageOnlyChunk]).
    repeat constructor; done.
  - apply (Hsend usageOnlyChunk demoUsage); reflexivity.
Defined.


(** ** Two calls of [sendMessage] at once *)

Section EventLoopFacts.
Context (isFunctionResponse : Content → bool).
Local Abbreviation call := (callSendMessage).
Local Abbreviation run := (drain isFunctionResponse).
Local Abbreviation continue := (resume isFunctionResponse).

Lemma drain_step fuel l c rest :
  microtasks l = c :: rest →
  run (S fuel) l
  = run fuel
      (continue
         (mkLoop (chat l) (sendPromise l) (now l) (calls l) rest (observed l))
         c).
Proof. intros H. simpl. unfold runMicrotask. by rewrite H. Qed.

Lemma drain_done fuel l : microtasks l = [] → run fuel l = l.
Proof. intros H. destruct fuel; simpl; [done|]. by rewrite H. Qed.

Lemma resume_request l c u p r chat' contents :
  calls l !! c = Some (AtSendPromise u p r) →
  sendMessage_request (chat l) u p r = Some (chat', contents) →
  continue l c
  = mkLoop chat' (sendPromise l) (now l)
      (<[c := AtLogRequest u p r]> (calls l)) (microtasks l ++ [c])
      (observed l).
Proof.
  intros Hc Hr. unfold resume. rewrite Hc, Hr. by rewrite app_nil_r.
Qed.

Lemma resume_invoke l c u p r :
  calls l !! c = Some (AtLogRequest u p r) →
  continue l c
  = mkLoop (chat l) (sendPromise l) (now l)
      (<[c := AtTransport u p r (now l) None]> (calls l)) (microtasks l)
      (observed l ++ [TransportInvoked c]).
Proof. intros Hc. unfold resume. by rewrite Hc. Qed.

(** The promise stored in [this.sendPromise] has always settled: no step of
    any call stores a pending one, so no call ever waits at line 559. *)
Lemma sendPromise_stays_settled l :
  sendPromise l = Settled →
  (∀ u p r, sendPromise (call l u p r) = Settled)
  ∧ (∀ c, sendPromise (continue l c) = Settled)
  ∧ sendPromise (runMicrotask isFunctionResponse l) = Settled
  ∧ (∀ c outcome t, sendPromise (settleTransport l c outcome t) = Settled).
Proof.
  intros Hl.
  assert (∀ l c, sendPromise l = Settled → sendPromise (continue l c) = Settled)
    as Hresume.
  { clear. intros l c Hl. unfold resume.
    destruct (calls l !! c) as [[u p r|u p r|u p r t [o|]|u resp|resp| | |]|];
      try done.
    - by destruct (sendMessage_request _ _ _ _) as [[??]|].
    - by destruct (settled o).
    - by destruct (sendMessage_record _ _ _ _). }
  split; [done|]. split; [by auto|]. split.
  - unfold runMicrotask. destruct (microtasks l); [done|]. by apply Hresume.
  - intros c outcome t. unfold settleTransport.
    by destruct (calls l !! c) as [[| |???? []| | | | |]|].
Qed.

(** C2 on the source as it stands.  Two calls of [sendMessage] made one after
    the other without waiting, on a session whose history curation ends: both
    pass [await this.sendPromise], since the promise stored there has
    settled, both log their request and both invoke the transport; when the
    microtask queue is empty, two transports are in flight, nothing has been
    committed, and the history is what it was. *)
Theorem sendMessage_calls_overlap s u1 p1 r1 u2 p2 r2 :
  validateHistory (history s) = inr () →
  let l :=
    drain isFunctionResponse 4
      (callSendMessage (callSendMessage (newLoop s) u1 p1 r1) u2 p2 r2) in
  observed l = [TransportInvoked 0; TransportInvoked 1]
  ∧ serialized (observed l) = false
  ∧ calls l = [AtTransport u1 p1 r1 0 None; AtTransport u2 p2 r2 0 None]
  ∧ microtasks l = []
  ∧ history (chat l) = history s.
Proof.
  intros Hh l.
  destruct (extractCuratedHistory_total _ Hh) as [curated Hc].
  destruct (sendMessage_request_spec s u1 p1 r1 curated Hc)
    as (q1 & Hq1 & _).
  destruct (sendMessage_request_spec (emit s q1) u2 p2 r2 curated Hc)
    as (q2 & Hq2 & _).
  assert (l = mkLoop (emit (emit s q1) q2) Settled 0
                [AtTransport u1 p1 r1 0 None; AtTransport u2 p2 r2 0 None]
                [] [TransportInvoked 0; TransportInvoked 1]) as ->.
  { subst l.
    change (call (call (newLoop s) u1 p1 r1) u2 p2 r2)
      with (mkLoop s Settled 0
              [AtSendPromise u1 p1 r1; AtSendPromise u2 p2 r2] [0; 1] []).
    erewrite drain_step by reflexivity.
    erewrite resume_request; [|reflexivity|exact Hq1].
    cbn [chat sendPromise now calls microtasks observed insert list_insert app].
    erewrite drain_step by reflexivity.
    cbn [chat sendPromise now calls microtasks observed insert list_insert app].
    erewrite resume_request; [|reflexivity|exact Hq2].
    cbn [chat sendPromise now calls microtasks observed insert list_insert app].
    erewrite drain_step by reflexivity.
    cbn [chat sendPromise now calls microtasks observed insert list_insert app].
    erewrite resume_invoke; [|reflexivity].
    cbn [chat sendPromise now calls microtasks observed insert list_insert app].
    erewrite drain_step by reflexivity.
    cbn [chat sendPromise now calls microtasks observed insert list_insert app].
    erewrite resume_invoke; [|reflexivity].
    cbn [chat sendPromise now calls microtasks observed insert list_insert app].
    rewrite drain_done by reflexivity. reflexivity. }
  repeat split.
Qed.
End EventLoopFacts.

Lemma sendMessage_calls_overlap_witness :
  let l :=
    drain demoIsFunctionResponse 4
      (callSendMessage
         (callSendMessage (newLoop demoChat) (userTurn "one") "p1" "r1")
         (userTurn "two") "p2" "r2") in
  validateHistory (history demoChat) = inr ()
  ∧ observed l = [TransportInvoked 0; TransportInvoked 1]
  ∧ history (chat l) = [].
Proof.
  intros l. split; [reflexivity|].
  destruct (sendMessage_calls_overlap demoIsFunctionResponse demoChat
              (userTurn "one") "p1" "r1" (userTurn "two") "p2" "r2" eq_refl)
    as (Hobs & _ & _ & _ & Hhist).
  split; [exact Hobs|exact Hhist].
Defined.

(** For comparison, a second call made after the first has returned waits
    for nothing and finds the first exchange committed. *)
Lemma sendMessage_calls_in_turn :
  let reply := mkRun demoConfig (inl (responseOf (modelTurn "uno") None)) in
  let l1 :=
    drain demoIsFunctionResponse 4
      (callSendMessage (newLoop demoChat) (userTurn "one") "p1" "r1") in
  let l2 := drain demoIsFunctionResponse 4 (settleTransport l1 0 reply 40) in
  let l3 :=
    drain demoIsFunctionResponse 4
      (callSendMessage l2 (userTurn "two") "p2" "r2") in
  observed l3 = [TransportInvoked 0; HistoryCommitted 0; TransportInvoked 1]
  ∧ serialized (observed l3) = true
  ∧ history (chat l3) = [userTurn "one"; modelTurn "uno"].
Proof. repeat split; vm_compute; reflexivity. Qed.

(** ** [getHistory] returns a copy *)

Lemma cellSim_mono m m' c c' : m ⊆ m' → cellSim m c c' → cellSim m' c c'.
Proof.
  intros Hm. destruct c as [ls|r [pl|]|ls|p], c' as [ls'|r' [pl'|]|ls'|p'];
    simpl; try done.
  - intros H. eapply Forall2_impl; [exact H|].
    intros x x' Hx. by apply (lookup_weaken m).
  - intros [-> Hpl]. split; [done|]. by apply (lookup_weaken m).
  - intros H. eapply Forall2_impl; [exact H|].
    intros x x' Hx. by apply (lookup_weaken m).
Qed.

Lemma cloneInv_init h0 : cloneInv h0 (mkCloneState h0 ∅).
Proof.
  split; [simpl; reflexivity|].
  intros l l' Hl. simpl in Hl. by rewrite lookup_empty in Hl.
Qed.

(** Recording a new copy keeps the invariant. *)
Lemma allocClone_ok h0 st l c c' :
  cloneInv h0 st → memory st !! l = None → h0 !! l = Some c →
  cellSim (memory st) c c' →
  cloneInv h0 (allocClone st l c').1
  ∧ memory st ⊆ memory (allocClone st l c').1
  ∧ memory (allocClone st l c').1 !! l = Some (allocClone st l c').2
  ∧ ∀ k, k ≠ l →
         memory (allocClone st l c').1 !! k = memory st !! k.
Proof.
  intros [Hext Hmem] Hnone Hc Hsim. unfold allocClone. simpl.
  set (new := fresh (dom (heap st))).
  assert (heap st !! new = None) as Hnew
    by (apply not_elem_of_dom, is_fresh).
  assert (memory st ⊆ <[l:=new]> (memory st)) as Hsub
    by by apply insert_subseteq.
  split; [|split; [done|split; [by rewrite lookup_insert_eq|]]].
  - split.
    + etrans; [done|]. by apply insert_subseteq.
    + intros k k'. cbn [memory heap]. rewrite lookup_insert.
      case_decide as Hk.
      * intros [= <-]. subst k. split.
        -- intros Hin. apply elem_of_dom in Hin as [c0 Hc0].
           eapply lookup_weaken in Hc0; [|done]. congruence.
        -- exists c, c'. rewrite lookup_insert_eq.
           split; [done|]. split; [done|]. by eapply cellSim_mono.
      * intros Hk'.
        destruct (Hmem k k' Hk') as (Hfresh & d & d' & ? & ? & ?).
        split; [done|]. exists d, d'. split; [done|]. split.
        -- rewrite lookup_insert_ne; [done|]. congruence.
        -- by eapply cellSim_mono.
  - intros k Hk. by rewrite lookup_insert_ne.
Qed.

(** A step that finds the copy in the memory. *)
Lemma clonesWell_known h0 n cloneOne st l l' :
  cloneInv h0 st → memory st !! l = Some l' →
  cloneOne st l = Some (st, l') → clonesWell h0 n cloneOne st l.
Proof. intros Hinv Hm Hc. by exists st, l'. Qed.

(** A step that copies the object after its references. *)
Lemma clonesWell_alloc h0 n cloneOne st st1 l c c' :
  cloneInv h0 st1 → memory st ⊆ memory st1 →
  memory st1 !! l = None → h0 !! l = Some c → (level c ≤ n)%nat →
  cellSim (memory st1) c c' →
  (∀ k d, h0 !! k = Some d → n < level d →
          memory st1 !! k = memory st !! k) →
  cloneOne st l = Some (allocClone st1 l c') →
  clonesWell h0 n cloneOne st l.
Proof.
  intros Hinv Hsub Hnone Hc Hlev Hsim Hframe Hrun.
  destruct (allocClone_ok h0 st1 l c c' Hinv Hnone Hc Hsim)
    as (Hinv' & Hsub' & Hl & Hother).
  exists (allocClone st1 l c').1, (allocClone st1 l c').2.
  split; [by destruct (allocClone st1 l c')|].
  split; [done|]. split; [by etrans|]. split; [done|].
  intros k d Hk Hd. rewrite Hother; [by eapply Hframe|].
  intros ->. assert (d = c) as -> by congruence. lia.
Qed.

Lemma clonePart_ok h0 st l :
  cloneInv h0 st → is_Some (readPart h0 l) →
  clonesWell h0 0 clonePart st l.
Proof.
  intros Hinv [p Hp]. unfold readPart in Hp.
  destruct (h0 !! l) as [[| | |q]|] eqn:Hl; try done. injection Hp as ->.
  destruct (memory st !! l) as [l'|] eqn:Hm.
  - eapply clonesWell_known; [done..|]. unfold clonePart. by rewrite Hm.
  - eapply (clonesWell_alloc h0 0 _ st st l (PartCell p) (PartCell p));
      try done.
    unfold clonePart. rewrite Hm.
    by rewrite (lookup_weaken _ _ _ _ Hl (proj1 Hinv)).
Qed.

Lemma cloneEach_ok h0 n cloneOne (ok : loc → Prop) ls st :
  (∀ st l, cloneInv h0 st → ok l → clonesWell h0 n cloneOne st l) →
  cloneInv h0 st → Forall ok ls →
  ∃ st' ls',
    cloneEach cloneOne st ls = Some (st', ls') ∧ cloneInv h0 st'
    ∧ memory st ⊆ memory st'
    ∧ Forall2 (λ x x', memory st' !! x = Some x') ls ls'
    ∧ ∀ k d, h0 !! k = Some d → n < level d →
             memory st' !! k = memory st !! k.
Proof.
  intros Hone. revert st.
  induction ls as [|l ls IH]; intros st Hinv Hok.
  - exists st, []. split; [done|]. split; [done|]. split; [done|].
    split; [constructor|done].
  - apply Forall_cons in Hok as [Hl Hok].
    destruct (Hone st l Hinv Hl)
      as (st1 & l' & Hrun1 & Hinv1 & Hsub1 & Hl' & Hframe1).
    destruct (IH st1 Hinv1 Hok)
      as (st2 & ls' & Hrun2 & Hinv2 & Hsub2 & Hls' & Hframe2).
    exists st2, (l' :: ls'). simpl. rewrite Hrun1. simpl. rewrite Hrun2.
    split; [done|]. split; [done|]. split; [by etrans|]. split.
    + constructor; [|done]. by apply (lookup_weaken (memory st1)).
    + intros k d Hk Hd. rewrite (Hframe2 k d) by done. by eapply Hframe1.
Qed.

Lemma cloneParts_ok h0 st l :
  cloneInv h0 st → is_Some (readParts h0 l) →
  clonesWell h0 1 cloneParts st l.
Proof.
  intros Hinv [ps Hps]. unfold readParts in Hps.
  destruct (h0 !! l) as [[| |ls|]|] eqn:Hl; try done.
  destruct (memory st !! l) as [l'|] eqn:Hm.
  - eapply clonesWell_known; [done..|]. unfold cloneParts. by rewrite Hm.
  - destruct (cloneEach_ok h0 0 clonePart (λ x, is_Some (readPart h0 x))
                ls st) as (st1 & ls' & Hrun & Hinv1 & Hsub & Hls & Hframe).
    { intros. by apply clonePart_ok. }
    { done. }
    { apply mapM_Some in Hps. eapply Forall2_Forall_l; [exact Hps|].
      apply Forall_forall. intros p _ x Hx. by exists p. }
    eapply (clonesWell_alloc h0 1 _ st st1 l (PartsCell ls)
              (PartsCell ls')); try done.
    + rewrite (Hframe l (PartsCell ls)); [done..|simpl; lia].
    + intros k d Hk Hd. eapply Hframe; [done|lia].
    + unfold cloneParts. rewrite Hm.
      rewrite (lookup_weaken _ _ _ _ Hl (proj1 Hinv)). by rewrite Hrun.
Qed.

Lemma cloneContent_ok h0 st l :
  cloneInv h0 st → is_Some (readContent h0 l) →
  clonesWell h0 2 cloneContent st l.
Proof.
  intros Hinv [c Hc]. unfold readContent in Hc.
  destruct (h0 !! l) as [[|r pl| |]|] eqn:Hl; try done.
  destruct (memory st !! l) as [l'|] eqn:Hm.
  { eapply clonesWell_known; [done..|]. unfold cloneContent.
    by rewrite Hm. }
  pose proof (lookup_weaken _ _ _ _ Hl (proj1 Hinv)) as Hl'.
  destruct pl as [pl|].
  - destruct (readParts h0 pl) as [ps|] eqn:Hps; [|done].
    destruct (cloneParts_ok h0 st pl Hinv) as
      (st1 & pl' & Hrun & Hinv1 & Hsub & Hpl & Hframe); [by eexists|].
    eapply (clonesWell_alloc h0 2 _ st st1 l (ContentCell r (Some pl))
              (ContentCell r (Some pl'))); try done.
    + rewrite (Hframe l (ContentCell r (Some pl))); [done..|simpl; lia].
    + intros k d Hk Hd. eapply Hframe; [done|lia].
    + unfold cloneContent. rewrite Hm, Hl'. by rewrite Hrun.
  - eapply (clonesWell_alloc h0 2 _ st st l (ContentCell r None)
              (ContentCell r None)); try done.
    unfold cloneContent. by rewrite Hm, Hl'.
Qed.

Lemma cloneHistory_ok h0 st l :
  cloneInv h0 st → is_Some (readHistory h0 l) →
  clonesWell h0 3 cloneHistory st l.
Proof.
  intros Hinv [cs Hcs]. unfold readHistory in Hcs.
  destruct (h0 !! l) as [[ls| | |]|] eqn:Hl; try done.
  destruct (memory st !! l) as [l'|] eqn:Hm.
  - eapply clonesWell_known; [done..|]. unfold cloneHistory. by rewrite Hm.
  - destruct (cloneEach_ok h0 2 cloneContent
                (λ x, is_Some (readContent h0 x)) ls st)
      as (st1 & ls' & Hrun & Hinv1 & Hsub & Hls & Hframe).
    { intros. by apply cloneContent_ok. }
    { done. }
    { apply mapM_Some in Hcs. eapply Forall2_Forall_l; [exact Hcs|].
      apply Forall_forall. intros c _ x Hx. by exists c. }
    eapply (clonesWell_alloc h0 3 _ st st1 l (HistoryCell ls)
              (HistoryCell ls')); try done.
    + rewrite (Hframe l (HistoryCell ls)); [done..|simpl; lia].
    + intros k d Hk Hd. destruct d; simpl in Hd; lia.
    + unfold cloneHistory. rewrite Hm.
      rewrite (lookup_weaken _ _ _ _ Hl (proj1 Hinv)). by rewrite Hrun.
Qed.

(** What a copy reads as. *)
Lemma copy_readPart h0 st l l' p :
  cloneInv h0 st → memory st !! l = Some l' →
  readPart h0 l = Some p → readPart (heap st) l' = Some p.
Proof.
  intros [_ Hmem] Hl Hp.
  destruct (Hmem l l' Hl) as (_ & c & c' & Hc & Hc' & Hsim).
  unfold readPart in *. rewrite Hc in Hp. rewrite Hc'.
  destruct c as [| | |q]; try done. destruct c' as [| | |q']; try done.
  simpl in Hsim. congruence.
Qed.

Lemma copy_readEach {V} (read : store → loc → option V) h0 st ls ls' vs :
  (∀ l l' v, memory st !! l = Some l' → read h0 l = Some v →
             read (heap st) l' = Some v) →
  Forall2 (λ x x', memory st !! x = Some x') ls ls' →
  mapM (read h0) ls = Some vs → mapM (read (heap st)) ls' = Some vs.
Proof.
  intros Hone Hls Hvs. apply mapM_Some in Hvs. apply mapM_Some.
  revert vs Hvs. induction Hls as [|x x' ls ls' Hx Hls IH]; intros vs Hvs.
  - inversion Hvs. constructor.
  - inversion Hvs as [|? v ? vs' Hv Hvs']; subst.
    constructor; [by eapply Hone|by apply IH].
Qed.

Lemma copy_readParts h0 st l l' ps :
  cloneInv h0 st → memory st !! l = Some l' →
  readParts h0 l = Some ps → readParts (heap st) l' = Some ps.
Proof.
  intros Hinv Hl Hps.
  destruct (proj2 Hinv l l' Hl) as (_ & c & c' & Hc & Hc' & Hsim).
  unfold readParts in *. rewrite Hc in Hps. rewrite Hc'.
  destruct c as [| |ls|]; try done. destruct c' as [| |ls'|]; try done.
  simpl in Hsim. eapply copy_readEach; [|done..].
  intros. by eapply copy_readPart.
Qed.

Lemma copy_readContent h0 st l l' c :
  cloneInv h0 st → memory st !! l = Some l' →
  readContent h0 l = Some c → readContent (heap st) l' = Some c.
Proof.
  intros Hinv Hl Hread.
  destruct (proj2 Hinv l l' Hl) as (_ & d & d' & Hd & Hd' & Hsim).
  unfold readContent in *. rewrite Hd in Hread. rewrite Hd'.
  destruct d as [|r [pl|]| |]; try done;
    destruct d' as [|r' [pl'|]| |]; try done; simpl in Hsim.
  - destruct Hsim as [<- Hpl].
    destruct (readParts h0 pl) as [ps|] eqn:Hps; [|done].
    by rewrite (copy_readParts h0 st pl pl' ps).
  - congruence.
Qed.

Lemma copy_readHistory h0 st l l' cs :
  cloneInv h0 st → memory st !! l = Some l' →
  readHistory h0 l = Some cs → readHistory (heap st) l' = Some cs.
Proof.
  intros Hinv Hl Hcs.
  destruct (proj2 Hinv l l' Hl) as (_ & c & c' & Hc & Hc' & Hsim).
  unfold readHistory in *. rewrite Hc in Hcs. rewrite Hc'.
  destruct c as [ls| | |]; try done. destruct c' as [ls'| | |]; try done.
  simpl in Hsim. eapply copy_readEach; [|done..].
  intros. by eapply copy_readContent.
Qed.

(** Whatever one gets to from a copy is a copy. *)
Lemma reach_copy h0 st r x :
  cloneInv h0 st → (∃ l, memory st !! l = Some r) →
  reach (heap st) r x → ∃ l, memory st !! l = Some x.
Proof.
  intros Hinv Hr Hreach.
  induction Hreach as [|y c x _ IH Hy Hx]; [done|].
  destruct IH as [l Hl].
  destruct (proj2 Hinv l y Hl) as (_ & d & d' & Hd & Hd' & Hsim).
  assert (c = d') as -> by congruence.
  destruct d as [ls|r0 [pl|]|ls|p], d' as [ls'|r' [pl'|]|ls'|p'];
    simpl in Hsim, Hx; try done.
  - apply list_elem_of_lookup in Hx as [i Hi].
    destruct (Forall2_lookup_r _ _ _ _ _ Hsim Hi) as (z & _ & Hz).
    by exists z.
  - apply list_elem_of_singleton in Hx as ->. destruct Hsim as [_ Hpl].
    by exists pl.
  - by apply elem_of_nil in Hx.
  - apply list_elem_of_lookup in Hx as [i Hi].
    destruct (Forall2_lookup_r _ _ _ _ _ Hsim Hi) as (z & _ & Hz).
    by exists z.
  - by apply elem_of_nil in Hx.
Qed.

(** [structuredClone] of a readable history: every object of the store is
    as it was, the result reads as the original, and nothing one gets to
    from the result was there before. *)
Lemma structuredClone_ok h0 l cs :
  readHistory h0 l = Some cs →
  ∃ h1 r, structuredClone h0 l = Some (h1, r) ∧ h0 ⊆ h1
          ∧ readHistory h1 r = Some cs
          ∧ ∀ x, reach h1 r x → x ∉ dom h0.
Proof.
  intros Hcs.
  destruct (cloneHistory_ok h0 (mkCloneState h0 ∅) l (cloneInv_init h0))
    as (st & r & Hrun & Hinv & _ & Hr & _); [by eexists|].
  exists (heap st), r. unfold structuredClone. rewrite Hrun. simpl.
  split; [done|]. split; [apply Hinv|]. split.
  - by eapply copy_readHistory.
  - intros x Hx. destruct (reach_copy h0 st r x Hinv) as [k Hk];
      [by exists l|done|].
    by destruct (proj2 Hinv k x Hk).
Qed.

(** Reads go through to any store that has kept the objects. *)
Lemma readPart_mono h h' l p :
  h ⊆ h' → readPart h l = Some p → readPart h' l = Some p.
Proof.
  intros Hsub. unfold readPart.
  destruct (h !! l) as [c|] eqn:Hl; [|done].
  by rewrite (lookup_weaken _ _ _ _ Hl Hsub).
Qed.

Lemma mapM_mono {V} (f g : loc → option V) ls vs :
  (∀ l v, f l = Some v → g l = Some v) →
  mapM f ls = Some vs → mapM g ls = Some vs.
Proof.
  intros Hfg Hvs. apply mapM_Some in Hvs. apply mapM_Some.
  eapply Forall2_impl; [exact Hvs|]. auto.
Qed.

Lemma readParts_mono h h' l ps :
  h ⊆ h' → readParts h l = Some ps → readParts h' l = Some ps.
Proof.
  intros Hsub. unfold readParts.
  destruct (h !! l) as [c|] eqn:Hl; [|done].
  rewrite (lookup_weaken _ _ _ _ Hl Hsub).
  destruct c; try done. apply mapM_mono. intros. by eapply readPart_mono.
Qed.

Lemma readContent_mono h h' l c :
  h ⊆ h' → readContent h l = Some c → readContent h' l = Some c.
Proof.
  intros Hsub. unfold readContent.
  destruct (h !! l) as [d|] eqn:Hl; [|done].
  rewrite (lookup_weaken _ _ _ _ Hl Hsub).
  destruct d as [|r [pl|]| |]; try done.
  destruct (readParts h pl) as [ps|] eqn:Hps; [|done].
  by rewrite (readParts_mono h h' pl ps).
Qed.

Lemma readHistory_mono h h' l cs :
  h ⊆ h' → readHistory h l = Some cs → readHistory h' l = Some cs.
Proof.
  intros Hsub. unfold readHistory.
  destruct (h !! l) as [c|] eqn:Hl; [|done].
  rewrite (lookup_weaken _ _ _ _ Hl Hsub).
  destruct c; try done. apply mapM_mono. intros.
  by eapply readContent_mono.
Qed.

(** Curation only looks at roles and validity, so it commutes with any
    reading of the entries that keeps them. *)
Section CurateRel.
Context {A B : Type} (R : A → B → Prop).
Context (uA mA vA : A → bool) (uB mB vB : B → bool).
Hypothesis same :
  ∀ a b, R a b → uA a = uB b ∧ mA a = mB b ∧ vA a = vB b.

Lemma removelast_Forall2 la lb :
  Forall2 R la lb → Forall2 R (removelast la) (removelast lb).
Proof.
  induction 1 as [|a b la lb Hab Hl IH]; [constructor|].
  simpl. destruct Hl; [constructor|]. by constructor.
Qed.

Lemma modelRun_rel la lb oa ob iv :
  Forall2 R la lb → Forall2 R oa ob →
  Forall2 R (modelRun mA vA la oa iv).1.1 (modelRun mB vB lb ob iv).1.1
  ∧ (modelRun mA vA la oa iv).1.2 = (modelRun mB vB lb ob iv).1.2
  ∧ Forall2 R (modelRun mA vA la oa iv).2 (modelRun mB vB lb ob iv).2.
Proof.
  intros Hl. revert oa ob iv.
  induction Hl as [|a b la lb Hab Hl IH]; intros oa ob iv Ho; [done|].
  simpl. destruct (same a b Hab) as (_ & <- & <-).
  destruct (mA a).
  - apply IH. apply Forall2_app; [done|]. by repeat constructor.
  - simpl. split; [done|]. split; [done|]. by constructor.
Qed.

Lemma curateLoop_rel fuel la lb ca cb :
  Forall2 R la lb → Forall2 R ca cb →
  option_Forall2 (Forall2 R) (curateLoop uA mA vA fuel la ca)
    (curateLoop uB mB vB fuel lb cb).
Proof.
  revert la lb ca cb.
  induction fuel as [|fuel IH]; intros la lb ca cb Hl Hc; [constructor|].
  destruct Hl as [|a b la lb Hab Hl]; [by constructor|].
  cbn [curateLoop]. destruct (same a b Hab) as (<- & _ & _).
  destruct (uA a).
  - apply IH; [done|]. apply Forall2_app; [done|]. by repeat constructor.
  - assert (Forall2 R (a :: la) (b :: lb)) as Hl' by by constructor.
    destruct (modelRun_rel (a :: la) (b :: lb) [] [] true Hl')
      as (Ho & Hv & Hr); [constructor|].
    destruct (modelRun mA vA (a :: la) [] true) as [[oa ia] ra].
    destruct (modelRun mB vB (b :: lb) [] true) as [[ob ib] rb].
    simpl in Ho, Hv, Hr. subst ib. apply IH; [done|].
    destruct ia; [by apply Forall2_app|by apply removelast_Forall2].
Qed.

Lemma curate_rel la lb :
  Forall2 R la lb →
  option_Forall2 (Forall2 R) (curate uA mA vA la) (curate uB mB vB lb).
Proof.
  intros Hl. pose proof (Forall2_length _ _ _ Hl) as Hlen.
  unfold curate. destruct Hl as [|a b la lb Hab Hl].
  - repeat constructor.
  - rewrite Hlen. apply curateLoop_rel; [by constructor|constructor].
Qed.
End CurateRel.

Lemma readContent_preds h l c :
  readContent h l = Some c →
  isUserAt h l = isUser c ∧ isModelAt h l = isModel c
  ∧ isValidAt h l = isValidContent c.
Proof.
  intros Hc. unfold isUserAt, isModelAt, isValidAt, roleAt. rewrite Hc.
  unfold readContent in Hc.
  destruct (h !! l) as [[|r [pl|]| |]|]; try done.
  - destruct (readParts h pl); [|done]. by injection Hc as <-.
  - by injection Hc as <-.
Qed.

(** [getHistory] in the store against [getHistory] on values. *)
Lemma getHistoryIn_ok h historyRef (curated : bool) cs :
  readHistory h historyRef = Some cs →
  match (if curated then extractCuratedHistory cs else Some cs) with
  | Some out =>
      ∃ h1 r, getHistoryIn h historyRef curated = Some (h1, r) ∧ h ⊆ h1
              ∧ readHistory h1 r = Some out
              ∧ ∀ x, reach h1 r x → x ∉ dom h
  | None => getHistoryIn h historyRef curated = None
  end.
Proof.
  intros Hcs. destruct curated; [|by apply structuredClone_ok].
  unfold getHistoryIn. pose proof Hcs as Hread. unfold readHistory in Hcs.
  destruct (h !! historyRef) as [[ls| | |]|] eqn:Hl; try done.
  apply mapM_Some in Hcs.
  pose proof (curate_rel (λ l c, readContent h l = Some c)
                (isUserAt h) (isModelAt h) (isValidAt h)
                isUser isModel isValidContent
                (readContent_preds h) ls cs Hcs) as Hcur.
  fold (extractCuratedHistory cs) in Hcur.
  destruct Hcur as [kept out Hkept|]; [|done].
  cbn [mbind option_bind].
  set (a := fresh (dom h)).
  assert (h !! a = None) as Ha by (apply not_elem_of_dom, is_fresh).
  assert (h ⊆ <[a:=HistoryCell kept]> h) as Hsub by by apply insert_subseteq.
  destruct (structuredClone_ok (<[a:=HistoryCell kept]> h) a out)
    as (h1 & r & Hrun & Hsub1 & Hout & Hreach).
  { unfold readHistory. rewrite lookup_insert_eq. apply mapM_Some.
    eapply Forall2_impl; [exact Hkept|].
    intros l c. by apply readContent_mono. }
  exists h1, r. split; [done|]. split; [by etrans|]. split; [done|].
  intros x Hx Hin. apply (Hreach x Hx).
  apply elem_of_dom. apply elem_of_dom in Hin as [c Hc].
  exists c. by apply (lookup_weaken h).
Qed.

Lemma getHistoryValues_ok h historyRef (curated : bool) cs :
  readHistory h historyRef = Some cs →
  getHistoryValues h historyRef curated
  = if curated then extractCuratedHistory cs else Some cs.
Proof.
  intros Hcs. unfold getHistoryValues.
  pose proof (getHistoryIn_ok h historyRef curated cs Hcs) as H.
  destruct (if curated then extractCuratedHistory cs else Some cs)
    as [out|].
  - destruct H as (h1 & r & -> & _ & Hout & _). done.
  - by rewrite H.
Qed.

(** C9.  [getHistory] leaves every object of the session as it was and
    returns a deep copy: on a session whose stored history reads as [cs],
    and whose curation ends when the curated history is asked for, the call
    returns an array that reads as the history asked for and from which no
    object that existed before the call can be reached; so whatever is done
    to the returned array or to anything under it, the stored history still
    reads as [cs], and every later [getHistory], curated (what requests are
    built from) or not, returns the values it would have returned before. *)
Theorem getHistory_independent_copy h0 historyRef (curated : bool) cs out :
  readHistory h0 historyRef = Some cs →
  (if curated then extractCuratedHistory cs else Some cs) = Some out →
  ∃ h1 r,
    getHistoryIn h0 historyRef curated = Some (h1, r)
    ∧ h0 ⊆ h1
    ∧ readHistory h1 r = Some out
    ∧ (∀ l, reach h1 r l → l ∉ dom h0)
    ∧ ∀ h2, mutatedThrough h1 r h2 →
        readHistory h2 historyRef = Some cs
        ∧ ∀ c, getHistoryValues h2 historyRef c
               = getHistoryValues h0 historyRef c.
Proof.
  intros Hcs Hout.
  pose proof (getHistoryIn_ok h0 historyRef curated cs Hcs) as H.
  rewrite Hout in H. destruct H as (h1 & r & Hrun & Hsub & Hread & Hreach).
  exists h1, r. split; [done|]. split; [done|]. split; [done|].
  split; [done|]. intros h2 Hmut.
  assert (h0 ⊆ h2) as Hsub2.
  { apply map_subseteq_spec. intros l c Hl. apply Hmut.
    - by apply (lookup_weaken h0).
    - intros Hl'. apply (Hreach l Hl'). apply elem_of_dom. by exists c. }
  assert (readHistory h2 historyRef = Some cs) as Hcs2
    by by apply (readHistory_mono h0).
  split; [done|]. intros c.
  by rewrite (getHistoryValues_ok h2 historyRef c cs),
    (getHistoryValues_ok h0 historyRef c cs).
Qed.

Lemma getHistory_independent_copy_witness :
  readHistory demoStore 0 = Some [userTurn "hi"; emptyModelTurn]
  ∧ ∃ h1 r,
      getHistoryIn demoStore 0 false = Some (h1, r)
      ∧ readHistory h1 r = Some [userTurn "hi"; emptyModelTurn]
      ∧ ∀ h2, mutatedThrough h1 r h2 →
          readHistory h2 0 = Some [userTurn "hi"; emptyModelTurn]
          ∧ getHistoryValues h2 0 true = Some [].
Proof.
  split; [reflexivity|].
  destruct (getHistory_independent_copy demoStore 0 false
              [userTurn "hi"; emptyModelTurn]
              [userTurn "hi"; emptyModelTurn] eq_refl eq_refl)
    as (h1 & r & Hrun & _ & Hread & _ & Hmut).
  exists h1, r. split; [exact Hrun|]. split; [exact Hread|].
  intros h2 Hh2. destruct (Hmut h2 Hh2) as [Hcs Hget].
  split; [exact Hcs|]. rewrite (Hget true). reflexivity.
Defined.

(** The same on a concrete mutation: the copy returned for [demoStore] is
    the array at location 11; emptying that array and rewriting the first
    turn under it leaves what the session reads of its own history. *)
Lemma getHistory_copy_mutated :
  snd <$> getHistoryIn demoStore 0 false = Some 11
  ∧ (λ r : store * loc,
       readHistory
         (<[8 := ContentCell (Some "model") None]>
            (<[r.2 := HistoryCell []]> r.1)) 0)
      <$> getHistoryIn demoStore 0 false
    = Some (Some [userTurn "hi"; emptyModelTurn]).
Proof. split; reflexivity. Qed.

(** * Further properties of the session and the log writer *)

(** ** Validation and curation *)

Lemma validateHistory_app a b :
  validateHistory (a ++ b) = inr ()
  ↔ validateHistory a = inr () ∧ validateHistory b = inr ().
Proof. by rewrite !validateHistory_knownRole, forallb_app, andb_true_iff. Qed.

Lemma extractCuratedHistory_known h c :
  extractCuratedHistory h = Some c → validateHistory h = inr ().
Proof.
  intros Hc. destruct (validateHistory h) as [msg|[]] eqn:E; [|done].
  apply extractCuratedHistory_diverges in E. congruence.
Qed.

Lemma curatedSpec_sublist b h :
  curatedSpec isUser isModel isValidContent b h `sublist_of` h.
Proof.
  revert b. induction h as [|c h IH]; intros b; simpl; [done|].
  destruct (isUser c).
  - destruct (runValid _ _ _); simpl; by constructor.
  - destruct (isModel c); [|by constructor].
    destruct (_ && _ && _); simpl; by constructor.
Qed.

Lemma keeps_known (c : Content) :
  keeps isUser isModel isValidContent c = true →
  knownRole isUser isModel c = true.
Proof.
  unfold keeps, knownRole. destruct (isUser c); [done|].
  by destruct (isModel c).
Qed.

(** X1.  [validateHistory] accepts a history exactly when every role is [user]
    or [model]; otherwise the error names the role of the first entry that has
    another one. The order of the turns is not checked: a history that starts
    with a model turn is accepted. The constructor makes a session, with this
    history and nothing emitted, exactly for the histories accepted. *)
Theorem validateHistory_reports_first_unknown_role :
  (∀ h, validateHistory h = inr ()
        ↔ Forall (λ c, role c = Some "user" ∨ role c = Some "model") h)
  ∧ (∀ pre c post,
       validateHistory pre = inr () → isUser c = false → isModel c = false →
       validateHistory (pre ++ c :: post)
       = inl ("Role must be user or model, but got " +:+ roleText c +:+ "."))
  ∧ (∀ m rest,
       isModel m = true → validateHistory rest = inr () →
       validateHistory (m :: rest) = inr ())
  ∧ (∀ cfg generationConfig h,
       validateHistory h = inr () →
       newGeminiChat cfg generationConfig h
       = inr (mkChat cfg generationConfig h [] []))
  ∧ (∀ cfg generationConfig h msg,
       validateHistory h = inl msg →
       newGeminiChat cfg generationConfig h = inl msg).
Proof.
  split; [|split; [|split; [|split]]].
  - induction h as [|c h IH]; simpl.
    + split; [by constructor|done].
    + rewrite Forall_cons, <- IH. unfold isUser, isModel.
      repeat case_bool_decide; simpl; naive_solver.
  - induction pre as [|d pre IH]; intros c post Hpre Hu Hm; simpl.
    + by rewrite Hu, Hm.
    + simpl in Hpre.
      destruct (negb (isUser d) && negb (isModel d)); [done|]. by apply IH.
  - intros m rest Hm Hrest. simpl. by rewrite Hm, andb_false_r.
  - intros cfg gc h Hh. unfold newGeminiChat. by rewrite Hh.
  - intros cfg gc h msg Hh. unfold newGeminiChat. by rewrite Hh.
Qed.

Lemma validateHistory_reports_first_unknown_role_witness :
  validateHistory [userTurn "a"] = inr ()
  ∧ validateHistory
      ([userTurn "a"] ++ mkContent (Some "tool") None :: [modelTurn "b"])
    = inl "Role must be user or model, but got tool.".
Proof.
  split; [reflexivity|].
  exact (proj1 (proj2 validateHistory_reports_first_unknown_role)
           [userTurn "a"] (mkContent (Some "tool") None) [modelTurn "b"]
           eq_refl eq_refl eq_refl).
Defined.

Lemma extractCuratedHistory_valid h c :
  extractCuratedHistory h = Some c → validateHistory c = inr ().
Proof.
  intros Hc. unfold extractCuratedHistory in Hc.
  rewrite (curate_loop _ _ _ (S (length h))) in Hc by lia.
  apply curateLoop_keeps in Hc; [|done].
  apply validateHistory_knownRole.
  rewrite forallb_forall in Hc. apply forallb_forall.
  intros x Hx. by apply keeps_known, Hc.
Qed.

(** X2.  Whatever curation returns is a sub-sequence of the history it was given
    (nothing is invented, reordered or repeated), holds only user turns and
    content-valid model turns, and is itself a history the constructor accepts. *)
Theorem extractCuratedHistory_sublist h c :
  extractCuratedHistory h = Some c →
  c `sublist_of` h
  ∧ Forall (λ x, isUser x = true
                 ∨ (isModel x = true ∧ isValidContent x = true)) c
  ∧ validateHistory c = inr ().
Proof.
  intros Hc.
  pose proof (extractCuratedHistory_known _ _ Hc) as Hh.
  assert (forallb (keeps isUser isModel isValidContent) c = true) as Hk.
  { unfold extractCuratedHistory in Hc.
    rewrite (curate_loop _ _ _ (S (length h))) in Hc
      by lia.
    by apply curateLoop_keeps in Hc. }
  split; [|split].
  - unfold extractCuratedHistory in Hc.
    rewrite (curate_curatedSpec _ _ _ isUser_not_isModel) in Hc
      by (by apply validateHistory_knownRole).
    injection Hc as <-. apply curatedSpec_sublist.
  - apply Forall_forall. intros x Hx.
    rewrite forallb_forall in Hk. apply list_elem_of_In, Hk in Hx.
    unfold keeps in Hx. destruct (isUser x); [by left|right].
    by apply andb_true_iff in Hx.
  - apply validateHistory_knownRole.
    rewrite forallb_forall in Hk. apply forallb_forall.
    intros x Hx. by apply keeps_known, Hk.
Qed.

Lemma extractCuratedHistory_sublist_witness :
  extractCuratedHistory [userTurn "a"; emptyModelTurn; userTurn "b"]
  = Some [userTurn "b"]
  ∧ [userTurn "b"] `sublist_of` [userTurn "a"; emptyModelTurn; userTurn "b"].
Proof.
  split; [reflexivity|].
  exact (proj1 (extractCuratedHistory_sublist
                  [userTurn "a"; emptyModelTurn; userTurn "b"]
                  [userTurn "b"] eq_refl)).
Defined.

(** X3.  A history with no invalid model turn (and no role other than user and
    model) is its own curated history: curation only ever removes something when
    a model turn is invalid. *)
Theorem extractCuratedHistory_keeps_clean_history h :
  Forall (λ x, isUser x = true
               ∨ (isModel x = true ∧ isValidContent x = true)) h →
  extractCuratedHistory h = Some h.
Proof.
  intros Hh. unfold extractCuratedHistory.
  rewrite (curate_loop _ _ _ (S (length h))) by lia.
  rewrite (curateLoop_id _ _ _ isUser_not_isModel); [done| |lia].
  apply forallb_forall. intros x Hx.
  rewrite Forall_forall in Hh. apply list_elem_of_In, Hh in Hx.
  unfold keeps. destruct Hx as [->|[-> ->]]; [done|]. apply orb_true_r.
Qed.

Lemma extractCuratedHistory_keeps_clean_history_witness :
  extractCuratedHistory [userTurn "a"; modelTurn "b"; userTurn "c"]
  = Some [userTurn "a"; modelTurn "b"; userTurn "c"].
Proof.
  apply extractCuratedHistory_keeps_clean_history.
  repeat constructor; (by left) || (by right).
Defined.

Lemma runValid_app_user tl u rest :
  isUser u = true →
  runValid isModel isValidContent (tl ++ u :: rest)
  = runValid isModel isValidContent tl.
Proof.
  intros Hu. induction tl as [|c tl IH]; simpl.
  - by rewrite (isUser_not_isModel _ Hu).
  - by rewrite IH.
Qed.

Lemma curatedSpec_app_dropped b h u e :
  isUser u = true → isModel e = true → isValidContent e = false →
  curatedSpec isUser isModel isValidContent b (h ++ [u; e])
  = curatedSpec isUser isModel isValidContent b h.
Proof.
  intros Hu He Hv. revert b.
  induction h as [|c h IH]; intros b.
  - simpl. rewrite Hu, He, Hv. simpl.
    destruct (isUser e) eqn:Hue.
    + apply isUser_not_isModel in Hue. congruence.
    + done.
  - simpl. rewrite !IH, runValid_app_user by done. done.
Qed.

Lemma extractCuratedHistory_unanswered h u e :
  isUser u = true → isModel e = true → isValidContent e = false →
  extractCuratedHistory (h ++ [u; e]) = extractCuratedHistory h.
Proof.
  intros Hu He Hv. unfold extractCuratedHistory.
  assert (knownRole isUser isModel u = true) as Hku
    by (unfold knownRole; by rewrite Hu).
  assert (knownRole isUser isModel e = true) as Hke
    by (unfold knownRole; rewrite He; apply orb_true_r).
  destruct (forallb (knownRole isUser isModel) h) eqn:Hk.
  - rewrite !(curate_curatedSpec _ _ _ isUser_not_isModel).
    + by rewrite curatedSpec_app_dropped.
    + done.
    + rewrite forallb_app, Hk. simpl. by rewrite Hku, Hke.
  - rewrite !curate_diverges; [done|done|].
    by rewrite forallb_app, Hk.
Qed.

Lemma curatedSpec_snoc_user b h u :
  isUser u = true →
  curatedSpec isUser isModel isValidContent b (h ++ [u])
  = curatedSpec isUser isModel isValidContent b h ++ [u].
Proof.
  intros Hu. revert b. induction h as [|c h IH]; intros b.
  - simpl. by rewrite Hu.
  - cbn [app curatedSpec]. rewrite !IH, runValid_app_user by done.
    destruct (isUser c); [by rewrite <- app_assoc|].
    destruct (isModel c); [by rewrite <- app_assoc|done].
Qed.

Lemma extractCuratedHistory_snoc_user h u :
  isUser u = true →
  extractCuratedHistory (h ++ [u])
  = (λ curated, curated ++ [u]) <$> extractCuratedHistory h.
Proof.
  intros Hu. unfold extractCuratedHistory.
  assert (knownRole isUser isModel u = true) as Hku
    by (unfold knownRole; by rewrite Hu).
  destruct (forallb (knownRole isUser isModel) h) eqn:Hk.
  - rewrite !(curate_curatedSpec _ _ _ isUser_not_isModel).
    + by rewrite curatedSpec_snoc_user.
    + done.
    + rewrite forallb_app, Hk. simpl. by rewrite Hku.
  - rewrite !curate_diverges; [done|done|].
    by rewrite forallb_app, Hk.
Qed.

Lemma curatedSpec_app_dropped_run b h u run :
  isUser u = true → forallb isModel run = true →
  forallb isValidContent run = false →
  curatedSpec isUser isModel isValidContent b (h ++ u :: run)
  = curatedSpec isUser isModel isValidContent b h.
Proof.
  intros Hu Hrun Hv. revert b.
  induction h as [|c h IH]; intros b.
  - cbn [app curatedSpec]. rewrite Hu.
    pose proof (runValid_app isModel isValidContent run [] Hrun eq_refl) as H1.
    pose proof (curatedSpec_run isUser isModel isValidContent
                  isUser_not_isModel true run [] Hrun eq_refl) as H2.
    rewrite app_nil_r in H1, H2. rewrite H1, H2, Hv. done.
  - cbn [app curatedSpec]. rewrite !IH, runValid_app_user by done. done.
Qed.

(** X4.  An exchange that ended in a run of model turns one of which is invalid
    leaves the curated history as it was: the user turn and the whole run
    recorded after it are dropped, and nothing before them is affected. (On a
    history with another role neither curation returns.) *)
Theorem extractCuratedHistory_drops_unanswered_turn h u run :
  isUser u = true → forallb isModel run = true →
  forallb isValidContent run = false →
  extractCuratedHistory (h ++ u :: run) = extractCuratedHistory h.
Proof.
  intros Hu Hrun Hv. unfold extractCuratedHistory.
  assert (forallb (knownRole isUser isModel) (u :: run) = true) as Hk'.
  { simpl. unfold knownRole at 1. rewrite Hu. simpl.
    clear Hv. induction run as [|m run IH]; [done|]. simpl in *.
    apply andb_true_iff in Hrun as [Hm Hrun].
    unfold knownRole at 1. rewrite Hm, orb_true_r. by apply IH. }
  destruct (forallb (knownRole isUser isModel) h) eqn:Hk.
  - rewrite !(curate_curatedSpec _ _ _ isUser_not_isModel).
    + by rewrite curatedSpec_app_dropped_run.
    + done.
    + by rewrite forallb_app, Hk.
  - rewrite !curate_diverges; [done|done|].
    by rewrite forallb_app, Hk.
Qed.

Lemma extractCuratedHistory_drops_unanswered_turn_witness :
  extractCuratedHistory
    ([userTurn "a"; modelTurn "b"]
     ++ userTurn "c" :: [modelTurn "x"; emptyModelTurn])
  = extractCuratedHistory [userTurn "a"; modelTurn "b"].
Proof.
  exact (extractCuratedHistory_drops_unanswered_turn
           [userTurn "a"; modelTurn "b"] (userTurn "c")
           [modelTurn "x"; emptyModelTurn] eq_refl eq_refl eq_refl).
Defined.
(** ** What [recordHistory] stores *)

Local Abbreviation consolidateStep :=
  (λ (consolidated : list Content) (c : Content),
     if isThoughtContent (Some c) then consolidated
     else
       match last consolidated with
       | Some lastContent =>
           if isTextContent (Some lastContent) && isTextContent (Some c)
           then removelast consolidated ++ [mergeText lastContent c]
           else consolidated ++ [c]
       | None => consolidated ++ [c]
       end).

Lemma mergeText_facts a c :
  isTextContent (Some a) = true → isTextContent (Some c) = true →
  isTextContent (Some (mergeText a c)) = true
  ∧ role (mergeText a c) = role a
  ∧ isThoughtContent (Some (mergeText a c)) = isThoughtContent (Some a).
Proof.
  unfold isTextContent, isThoughtContent, mergeText, isModel.
  destruct a as [ra [[|p ps]|]], c as [rc [[|q qs]|]]; simpl;
    rewrite ?andb_false_r; try done.
  intros [Ha Hp]%andb_true_iff [Hc Hq]%andb_true_iff.
  rewrite Ha. simpl. split; [|done].
  unfold truthyString in *. destruct (text p) as [t|]; [|done].
  destruct (text q) as [t'|]; [|done]. simpl.
  apply negb_true_iff, bool_decide_eq_false.
  apply negb_true_iff, bool_decide_eq_false in Hp.
  destruct t; [done|]. done.
Qed.

Lemma noAdjacentText_snoc init x c :
  noAdjacentText (init ++ [x]) = true →
  isTextContent (Some x) && isTextContent (Some c) = false →
  noAdjacentText (init ++ [x; c]) = true.
Proof.
  intros Hn Hxc. induction init as [|a [|b init] IH].
  - cbn [app noAdjacentText]. by rewrite Hxc.
  - cbn [app noAdjacentText] in *. rewrite Hxc.
    by rewrite andb_true_r in Hn |- *.
  - cbn [app noAdjacentText] in *.
    apply andb_true_iff in Hn as [-> Hn]. by apply IH.
Qed.

Lemma noAdjacentText_last init x y :
  isTextContent (Some x) = isTextContent (Some y) →
  noAdjacentText (init ++ [x]) = noAdjacentText (init ++ [y]).
Proof.
  intros Hxy. induction init as [|a [|b init] IH]; [done| |].
  - cbn [app noAdjacentText]. by rewrite Hxy.
  - cbn [app noAdjacentText] in *. by rewrite IH.
Qed.

(** What the consolidation loop keeps true of its accumulator. *)
Lemma consolidate_inv (P : option string → Prop) l acc :
  noAdjacentText acc = true →
  Forall (λ c, isThoughtContent (Some c) = false) acc →
  Forall (λ c, P (role c)) acc → Forall (λ c, P (role c)) l →
  noAdjacentText (foldl consolidateStep acc l) = true
  ∧ Forall (λ c, isThoughtContent (Some c) = false)
      (foldl consolidateStep acc l)
  ∧ Forall (λ c, P (role c)) (foldl consolidateStep acc l).
Proof.
  revert acc.
  induction l as [|c l IH]; intros acc Hn Ht Hq Hl; [simpl; auto|].
  apply Forall_cons in Hl as [Hc Hl]. cbn [foldl].
  destruct (isThoughtContent (Some c)) eqn:Hth; [by apply IH|].
  destruct (last acc) as [x|] eqn:Hlast.
  - apply last_Some in Hlast as [init ->].
    apply Forall_app in Ht as [Ht1 Ht2]. apply Forall_app in Hq as [Hq1 Hq2].
    rewrite Forall_singleton in Ht2, Hq2.
    destruct (isTextContent (Some x) && isTextContent (Some c)) eqn:Hxc.
    + apply andb_true_iff in Hxc as [Hx Hc'].
      destruct (mergeText_facts x c Hx Hc') as (Hm1 & Hm2 & Hm3).
      rewrite removelast_last. apply IH; [| | |done].
      * rewrite (noAdjacentText_last init _ x); [done|]. by rewrite Hm1, Hx.
      * apply Forall_app. split; [done|]. apply Forall_singleton.
        by rewrite Hm3.
      * apply Forall_app. split; [done|]. apply Forall_singleton.
        by rewrite Hm2.
    + rewrite <- app_assoc. apply IH; [| | |done].
      * by apply noAdjacentText_snoc.
      * rewrite app_assoc. apply Forall_app. split.
        -- apply Forall_app. split; [done|]. by apply Forall_singleton.
        -- by apply Forall_singleton.
      * rewrite app_assoc. apply Forall_app. split.
        -- apply Forall_app. split; [done|]. by apply Forall_singleton.
        -- by apply Forall_singleton.
  - apply last_None in Hlast as ->. cbn [app]. apply IH; try done.
    + by apply Forall_singleton.
    + by apply Forall_singleton.
Qed.

Lemma consolidate_facts (P : option string → Prop) l :
  Forall (λ c, P (role c)) l →
  noAdjacentText (consolidate l) = true
  ∧ Forall (λ c, isThoughtContent (Some c) = false) (consolidate l)
  ∧ Forall (λ c, P (role c)) (consolidate l).
Proof. intros Hl. by apply (consolidate_inv P l []). Qed.

Lemma isUser_not_text u : isUser u = true → isTextContent (Some u) = false.
Proof.
  intros Hu. unfold isTextContent. by rewrite (isUser_not_isModel _ Hu).
Qed.

Section RecordFacts.
Context (isFunctionResponse : Content → bool).

(** The [outputContents] of [recordHistory]. *)
Local Abbreviation outputContentsOf userInput modelOutput :=
  (let nonThoughtModelOutput :=
     List.filter (λ c, negb (isThoughtContent (Some c))) modelOutput in
   if bool_decide (0 < length nonThoughtModelOutput)
      && forallb (λ c, truthyObj (role c)) nonThoughtModelOutput
   then nonThoughtModelOutput
   else if bool_decide (length nonThoughtModelOutput = 0)
           && bool_decide (0 < length modelOutput)
   then []
   else if negb (isFunctionResponse userInput) then [emptyModelTurn]
   else []).

Lemma recordHistory_user hist userInput modelOutput afc :
  isUser userInput = true → afc = None ∨ afc = Some [] →
  recordHistory isFunctionResponse hist userInput modelOutput afc
  = Some (hist ++ userInput
            :: consolidate (outputContentsOf userInput modelOutput)).
Proof.
  intros Hu Hafc. unfold recordHistory.
  set (out := consolidate _).
  assert ((Some (hist ++ [userInput]) ≫= λ hist1,
               match out with
               | [] => Some hist1
               | first :: others =>
                   match last hist1 with
                   | Some lastHistoryEntry =>
                       if negb false && isTextContent (Some lastHistoryEntry)
                          && isTextContent (Some first)
                       then Some (removelast hist1
                                    ++ [mergeText lastHistoryEntry first]
                                    ++ others)
                       else Some (hist1 ++ out)
                   | None => Some (hist1 ++ out)
                   end
               end) = Some (hist ++ userInput :: out)) as Hgoal.
  { cbn [mbind option_bind]. destruct out as [|first others].
    - done.
    - rewrite last_snoc. rewrite (isUser_not_text _ Hu). simpl.
      by rewrite <- app_assoc. }
  destruct Hafc as [-> | ->]; exact Hgoal.
Qed.

Lemma consolidate_single c :
  isThoughtContent (Some c) = false → consolidate [c] = [c].
Proof. intros H. unfold consolidate. cbn [foldl]. by rewrite H. Qed.

Lemma filter_nonThought_all modelOutput :
  Forall (λ c, isThoughtContent (Some c) = true) modelOutput →
  List.filter (λ c, negb (isThoughtContent (Some c))) modelOutput = [].
Proof.
  induction 1 as [|c l Hc _ IH]; [done|]. cbn [List.filter].
  by rewrite Hc.
Qed.

Lemma filter_nonThought_none modelOutput :
  Forall (λ c, isThoughtContent (Some c) = false) modelOutput →
  List.filter (λ c, negb (isThoughtContent (Some c))) modelOutput
  = modelOutput.
Proof.
  induction 1 as [|c l Hc _ IH]; [done|]. cbn [List.filter].
  by rewrite Hc, IH.
Qed.

(** X5.  [recordHistory] for a user input and no automatic-function-calling
    history: the history it had stays as it was, entry by entry, the input is
    put right after it, and what follows holds no thought and no two
    neighbouring text contents. With no model output a single empty model turn
    follows (nothing when the input is a function response); with thoughts only,
    nothing follows; one content that is no thought follows as it is when it has
    a role, and gives way to the empty model turn when it has none. *)
Theorem recordHistory_appends_after_user_input hist userInput modelOutput
    afc :
  isUser userInput = true → afc = None ∨ afc = Some [] →
  ∃ out,
    recordHistory isFunctionResponse hist userInput modelOutput afc
    = Some (hist ++ userInput :: out)
    ∧ Forall (λ c, isThoughtContent (Some c) = false) out
    ∧ noAdjacentText out = true
    ∧ (modelOutput = [] →
       out = if isFunctionResponse userInput then [] else [emptyModelTurn])
    ∧ (modelOutput ≠ [] →
       Forall (λ c, isThoughtContent (Some c) = true) modelOutput →
       out = [])
    ∧ (∀ c, modelOutput = [c] → isThoughtContent (Some c) = false →
            out = if truthyObj (role c) then [c]
                  else if isFunctionResponse userInput then []
                  else [emptyModelTurn]).
Proof.
  intros Hu Hafc.
  exists (consolidate (outputContentsOf userInput modelOutput)).
  split; [by apply recordHistory_user|].
  destruct (consolidate_facts (λ _, True)
              (outputContentsOf userInput modelOutput)) as (Hn & Ht & _).
  { by apply Forall_forall. }
  split; [done|]. split; [done|]. split; [|split].
  - intros ->. simpl. by destruct (isFunctionResponse userInput).
  - intros Hne Hall. cbn zeta. rewrite filter_nonThought_all by done.
    simpl. rewrite bool_decide_eq_true_2; [done|].
    destruct modelOutput; [done|simpl; lia].
  - intros c -> Hc. cbn zeta. cbn [List.filter]. rewrite Hc. simpl.
    destruct (truthyObj (role c)); simpl.
    + by apply consolidate_single.
    + by destruct (isFunctionResponse userInput).
Qed.

(** X6.  With an automatic-function-calling history that is not empty (and
    of known roles), the user input itself is not stored: the history stays
    as it was, the curated form of the automatic-function-calling history is
    put after it, and the model output follows with no merge into the last
    stored entry.  What follows holds no thought and no two neighbouring text
    contents and is tied to the model output as without such a history: with
    no model output a single empty model turn (nothing when the input is a
    function response); with thoughts only, nothing; one content that is no
    thought as it is when it has a role, and the empty model turn in its place
    when it has none. *)
Theorem recordHistory_stores_curated_afc hist userInput modelOutput afc :
  afc ≠ [] → validateHistory afc = inr () →
  ∃ curated out,
    extractCuratedHistory afc = Some curated
    ∧ recordHistory isFunctionResponse hist userInput modelOutput (Some afc)
      = Some (hist ++ curated ++ out)
    ∧ Forall (λ c, isThoughtContent (Some c) = false) out
    ∧ noAdjacentText out = true
    ∧ (modelOutput = [] →
       out = if isFunctionResponse userInput then [] else [emptyModelTurn])
    ∧ (modelOutput ≠ [] →
       Forall (λ c, isThoughtContent (Some c) = true) modelOutput →
       out = [])
    ∧ (∀ c, modelOutput = [c] → isThoughtContent (Some c) = false →
            out = if truthyObj (role c) then [c]
                  else if isFunctionResponse userInput then []
                  else [emptyModelTurn]).
Proof.
  intros Hne Hafc.
  destruct (extractCuratedHistory_total _ Hafc) as [curated Hc].
  exists curated, (consolidate (outputContentsOf userInput modelOutput)).
  destruct (consolidate_facts (λ _, True)
              (outputContentsOf userInput modelOutput)) as (Hn & Ht & _).
  { by apply Forall_forall. }
  split; [done|]. split; [|split; [done|split; [done|]]].
  - unfold recordHistory. destruct afc as [|a afc]; [done|]. rewrite Hc.
    cbn [mbind option_bind].
    destruct (consolidate _) as [|first others]; [by rewrite app_nil_r|].
    destruct (last (hist ++ curated)); simpl; by rewrite app_assoc.
  - split; [|split].
    + intros ->. simpl. by destruct (isFunctionResponse userInput).
    + intros Hne' Hall. cbn zeta. rewrite filter_nonThought_all by done.
      simpl. rewrite bool_decide_eq_true_2; [done|].
      destruct modelOutput; [done|simpl; lia].
    + intros c -> Hth. cbn zeta. cbn [List.filter]. rewrite Hth. simpl.
      destruct (truthyObj (role c)); simpl.
      * by apply consolidate_single.
      * by destruct (isFunctionResponse userInput).
Qed.
End RecordFacts.

(** ** What an exchange stores *)

Lemma validateHistory_Forall h :
  validateHistory h = inr () ↔ Forall (λ c, knownContent c = true) h.
Proof.
  rewrite validateHistory_knownRole, forallb_forall, Forall_forall.
  unfold knownContent. split; intros H x Hx; apply H; by apply list_elem_of_In.
Qed.

Section ExchangeFacts.
Context (isFunctionResponse : Content → bool).

(** A [sendMessage] whose transport resolved stores what [recordHistory]
    makes of the response. *)
Lemma sendMessage_success s u p r t0 t1 cfg response curated hist' :
  extractCuratedHistory (history s) = Some curated →
  recordHistory isFunctionResponse (history s) u
    (match firstContent response with Some c => [c] | None => [] end)
    (match automaticFunctionCallingHistory response with
     | Some full => Some (drop (length curated) full)
     | None => Some []
     end) = Some hist' →
  ∃ s',
    sendMessage isFunctionResponse s u p r t0 t1 (mkRun cfg (inl response))
    = Some (s', inl response)
    ∧ history s' = hist' ∧ chatConfig s' = cfg
    ∧ ∀ id, id ∈ loggedResponses s' → id ∈ loggedResponses s.
Proof.
  intros Hc Hrec.
  destruct (sendMessage_request_spec s u p r curated Hc)
    as (request & Hreq & _ & _).
  unfold sendMessage. rewrite Hreq.
  cbn [mbind option_bind settled configAfter].
  unfold sendMessage_commit, sendMessage_logResponse, sendMessage_record.
  set (s2 := withConfig (emit s request) cfg).
  destruct (logApiResponse_frame s2 (t1 - t0) p r (usageMetadata response)
              (ParsedObject response)) as [Hhist Hcfg].
  assert (∀ id, id ∈ loggedResponses
                       (_logApiResponse s2 (t1 - t0) p r
                          (usageMetadata response) (ParsedObject response)) →
                id ∈ loggedResponses s) as Hlog.
  { intros id. unfold _logApiResponse.
    destruct (usageMetadata response); [|done].
    case_bool_decide; simpl; [|done]. apply subseteq_drop. }
  set (s3 := _logApiResponse _ _ _ _ _ _) in *.
  unfold getHistory. rewrite Hhist. simpl history. rewrite Hc.
  cbn [mbind option_bind]. rewrite Hrec. cbn [mbind option_bind].
  eexists. split; [done|]. split; [done|]. split; [|done].
  simpl. by rewrite Hcfg.
Qed.

Lemma recordHistory_valid hist userInput modelOutput afc h' :
  validateHistory hist = inr () → knownContent userInput = true →
  Forall (λ c, role c = None ∨ knownContent c = true) modelOutput →
  recordHistory isFunctionResponse hist userInput modelOutput afc = Some h' →
  validateHistory h' = inr ().
Proof.
  rewrite !validateHistory_Forall. intros Hhist Hu Hout.
  unfold recordHistory.
  set (nonThought := List.filter _ modelOutput).
  set (oc := if _ && _ then _ else _).
  assert (Forall (λ c, knownContent c = true) oc) as Hoc.
  { subst oc.
    destruct (bool_decide (0 < length nonThought)
              && forallb (λ c, truthyObj (role c)) nonThought) eqn:E1.
    - apply andb_true_iff in E1 as [_ E1].
      rewrite forallb_forall in E1. apply Forall_forall. intros c Hc.
      assert (c ∈ modelOutput) as Hm.
      { apply list_elem_of_In. apply list_elem_of_In in Hc.
        by apply List.filter_In in Hc as [? _]. }
      apply list_elem_of_In, E1 in Hc.
      rewrite Forall_forall in Hout. destruct (Hout c Hm) as [Hn|?]; [|done].
      by rewrite Hn in Hc.
    - destruct (bool_decide (length nonThought = 0) && _); [by constructor|].
      destruct (negb _); [|by constructor]. by apply Forall_singleton. }
  destruct (consolidate_facts
              (λ r, bool_decide (r = Some "user")
                    || bool_decide (r = Some "model") = true) oc Hoc)
    as (_ & _ & Hcons).
  change (Forall (λ c, knownContent c = true) (consolidate oc)) in Hcons.
  assert (∀ hist1, Forall (λ c, knownContent c = true) hist1 →
            match consolidate oc with
            | [] => Some hist1
            | first :: others =>
                match last hist1 with
                | Some lastHistoryEntry =>
                    if negb match afc with Some (_ :: _) => true | _ => false end
                       && isTextContent (Some lastHistoryEntry)
                       && isTextContent (Some first)
                    then Some (removelast hist1
                                 ++ [mergeText lastHistoryEntry first]
                                 ++ others)
                    else Some (hist1 ++ consolidate oc)
                | None => Some (hist1 ++ consolidate oc)
                end
            end = Some h' → Forall (λ c, knownContent c = true) h') as Hend.
  { intros hist1 H1. destruct (consolidate oc) as [|first others] eqn:Ec.
    - by intros [= <-].
    - destruct (last hist1) as [l|] eqn:Hl.
      + apply last_Some in Hl as [init ->].
        destruct (_ && _ && _) eqn:E; intros [= <-].
        * apply andb_true_iff in E as [[_ E1]%andb_true_iff E2].
          destruct (mergeText_facts l first E1 E2) as (_ & Hr & _).
          rewrite removelast_last.
          apply Forall_app in H1 as [H1 H2]. rewrite Forall_singleton in H2.
          apply Forall_cons in Hcons as [_ Hcons].
          apply Forall_app. split; [done|]. apply Forall_cons. split; [|done].
          unfold knownContent, knownRole, isUser, isModel in *.
          by rewrite Hr.
        * by apply Forall_app.
      + intros [= <-]. by apply Forall_app. }
  destruct afc as [[|a afc]|]; cbn [mbind option_bind].
  - apply Hend. apply Forall_app. split; [done|]. by apply Forall_singleton.
  - destruct (extractCuratedHistory (a :: afc)) as [curated|] eqn:Ecur;
      [|done].
    cbn [mbind option_bind]. apply Hend. apply Forall_app. split; [done|].
    apply validateHistory_Forall. by apply extractCuratedHistory_valid in Ecur.
  - apply Hend. apply Forall_app. split; [done|]. by apply Forall_singleton.
Qed.

(** X7.  What [sendMessage] stores for a user message when the response carries
    no automatic-function-calling history: the history so far, unchanged, then
    the message, then the first candidate's content as it is when it has a role
    and is no thought, nothing when it is a thought, and the empty model turn
    when there is no content or it has no role (nothing when the message is a
    function response). *)
Theorem sendMessage_records_exchange s u p r t0 t1 cfg response :
  validateHistory (history s) = inr () → isUser u = true →
  automaticFunctionCallingHistory response = None →
  ∃ s',
    sendMessage isFunctionResponse s u p r t0 t1 (mkRun cfg (inl response))
    = Some (s', inl response)
    ∧ history s'
      = history s
        ++ u :: match firstContent response with
                | Some c =>
                    if isThoughtContent (Some c) then []
                    else if truthyObj (role c) then [c]
                    else if isFunctionResponse u then []
                    else [emptyModelTurn]
                | None =>
                    if isFunctionResponse u then [] else [emptyModelTurn]
                end.
Proof.
  intros Hh Hu Hafc.
  destruct (extractCuratedHistory_total _ Hh) as [curated Hc].
  edestruct (sendMessage_success s u p r t0 t1 cfg response curated)
    as (s' & Hrun & Hhist & _); [done| |].
  { rewrite Hafc. apply recordHistory_user; [done|by right]. }
  exists s'. split; [done|]. rewrite Hhist. f_equal. f_equal.
  destruct (firstContent response) as [c|].
  - cbn zeta. cbn [List.filter].
    destruct (isThoughtContent (Some c)) eqn:Hth; simpl; [done|].
    destruct (truthyObj (role c)); simpl.
    + by apply consolidate_single.
    + by destruct (isFunctionResponse u).
  - simpl. by destruct (isFunctionResponse u).
Qed.

(** X8.  An exchange for a user message whose response carries no
    automatic-function-calling history and whose answer is missing or is an
    invalid model turn that is no thought.  The message and the invalid turn
    are stored, the empty model turn standing in for a missing answer, and
    the curated history is the one from before the exchange, so the next
    request is built from the same context.  The one exception is a missing
    answer to a message that is a function response: then the message alone
    is stored, and the curated history gains it. *)
Theorem sendMessage_invalid_answer_keeps_curated_history s u p r t0 t1 cfg
    response :
  validateHistory (history s) = inr () → isUser u = true →
  automaticFunctionCallingHistory response = None →
  match firstContent response with
  | Some c => isModel c = true ∧ isValidContent c = false
              ∧ isThoughtContent (Some c) = false
  | None => True
  end →
  ∃ s',
    sendMessage isFunctionResponse s u p r t0 t1 (mkRun cfg (inl response))
    = Some (s', inl response)
    ∧ history s'
      = history s
        ++ u :: match firstContent response with
                | Some c => [c]
                | None =>
                    if isFunctionResponse u then [] else [emptyModelTurn]
                end
    ∧ getHistory s' true
      = match firstContent response with
        | Some _ => getHistory s true
        | None =>
            if isFunctionResponse u
            then (λ curated, curated ++ [u]) <$> getHistory s true
            else getHistory s true
        end.
Proof.
  intros Hh Hu Hafc Hc.
  destruct (extractCuratedHistory_total _ Hh) as [curated Hcur].
  edestruct (sendMessage_success s u p r t0 t1 cfg response curated)
    as (s' & Hrun & Hhist & _); [done| |].
  { rewrite Hafc. apply recordHistory_user; [done|by right]. }
  exists s'. split; [done|].
  assert (history s'
          = history s
            ++ u :: match firstContent response with
                    | Some c => [c]
                    | None =>
                        if isFunctionResponse u then [] else [emptyModelTurn]
                    end) as Hhist'.
  { rewrite Hhist. f_equal. f_equal.
    destruct (firstContent response) as [c|].
    - destruct Hc as (Hm & _ & Hth). cbn zeta. cbn [List.filter].
      rewrite Hth. cbn [negb length forallb]. unfold isModel in Hm.
      apply bool_decide_eq_true in Hm. rewrite Hm. simpl.
      by apply consolidate_single.
    - simpl. by destruct (isFunctionResponse u). }
  split; [done|]. unfold getHistory. rewrite Hhist'.
  destruct (firstContent response) as [c|].
  - destruct Hc as (Hm & Hv & _).
    by apply (extractCuratedHistory_unanswered (history s) u c).
  - destruct (isFunctionResponse u).
    + by apply extractCuratedHistory_snoc_user.
    + by apply (extractCuratedHistory_unanswered (history s) u emptyModelTurn).
Qed.

(** X9.  [sendMessage] keeps the history one the constructor accepts, so the
    curation of the next call ends: this holds when the message has a known
    role, the content of the response has a known role or none, and the
    automatic-function-calling history of the response has known roles; it holds
    as well when the transport failed. *)
Theorem sendMessage_keeps_history_valid s u p r t0 t1 run :
  validateHistory (history s) = inr () → knownContent u = true →
  match settled run with
  | inl response =>
      afcOk response
      ∧ ∀ c, firstContent response = Some c →
             role c = None ∨ knownContent c = true
  | inr _ => True
  end →
  ∃ s' result,
    sendMessage isFunctionResponse s u p r t0 t1 run = Some (s', result)
    ∧ validateHistory (history s') = inr ()
    ∧ is_Some (getHistory s' true).
Proof.
  intros Hh Hu Hrun.
  destruct (extractCuratedHistory_total _ Hh) as [curated Hc].
  assert (∃ s' result,
            sendMessage isFunctionResponse s u p r t0 t1 run
            = Some (s', result)
            ∧ validateHistory (history s') = inr ()) as (s' & res & H1 & H2).
  { destruct run as [cfg [response|error]]; simpl in Hrun.
    - destruct Hrun as [Hafc Hrole].
      set (out := match firstContent response with
                  | Some c => [c] | None => [] end).
      set (afc := match automaticFunctionCallingHistory response with
                  | Some full => Some (drop (length curated) full)
                  | None => Some []
                  end).
      destruct (recordHistory_total isFunctionResponse (history s) u out afc)
        as [hist' Hrec].
      { subst afc. unfold afcOk in Hafc.
        destruct (automaticFunctionCallingHistory response); [|done].
        by apply validateHistory_drop. }
      destruct (sendMessage_success s u p r t0 t1 cfg response curated hist'
                  Hc Hrec) as (s' & Hs & Hhist & _).
      exists s', (inl response). split; [done|]. rewrite Hhist.
      apply (recordHistory_valid _ _ _ _ _ Hh Hu) in Hrec; [done|].
      subst out. destruct (firstContent response) as [c|];
        [|by constructor].
      apply Forall_singleton. by apply Hrole.
    - destruct (sendMessage_request_spec s u p r curated Hc)
        as (request & Hreq & _ & _).
      unfold sendMessage. rewrite Hreq.
      cbn [mbind option_bind settled configAfter].
      by eexists _, _. }
  exists s', res. split; [done|]. split; [done|].
  unfold getHistory. by apply extractCuratedHistory_total.
Qed.
End ExchangeFacts.
(** ** What a stream stores *)

Lemma string_app_nil_r (s : string) : s +:+ "" = s.
Proof.
  induction s as [|c s IH]; [done|].
  change (String c (s +:+ "") = String c s). by rewrite IH.
Qed.

Lemma string_app_assoc (a b c : string) : (a +:+ b) +:+ c = a +:+ b +:+ c.
Proof.
  induction a as [|x a IH]; [done|].
  change (String x ((a +:+ b) +:+ c) = String x (a +:+ b +:+ c)).
  by rewrite IH.
Qed.

Lemma string_app_nonempty (a b : string) : a ≠ "" → a +:+ b ≠ "".
Proof. by destruct a. Qed.

Lemma joined_filter ts :
  joined (List.filter (λ t, negb (bool_decide (t = ""))) ts) = joined ts.
Proof.
  induction ts as [|t ts IH]; [done|]. cbn [List.filter].
  case_bool_decide as E; simpl; [by subst|]. by rewrite IH.
Qed.

Lemma isTextContent_modelTurn t :
  isTextContent (Some (modelTurn t)) = negb (bool_decide (t = "")).
Proof. done. Qed.

Lemma mergeText_modelTurn a b :
  mergeText (modelTurn a) (modelTurn b) = modelTurn (a +:+ b).
Proof. done. Qed.

Lemma consolidate_textTurns acc ts :
  acc ≠ "" → Forall (λ t, t ≠ "") ts →
  foldl
    (λ consolidated c,
       if isThoughtContent (Some c) then consolidated
       else
         match last consolidated with
         | Some lastContent =>
             if isTextContent (Some lastContent) && isTextContent (Some c)
             then removelast consolidated ++ [mergeText lastContent c]
             else consolidated ++ [c]
         | None => consolidated ++ [c]
         end)
    [modelTurn acc] (map modelTurn ts)
  = [modelTurn (acc +:+ joined ts)].
Proof.
  intros Hacc Hts. revert acc Hacc.
  induction Hts as [|t ts Ht _ IH]; intros acc Hacc.
  - simpl. by rewrite string_app_nil_r.
  - cbn [map foldl last]. 
    change (isThoughtContent (Some (modelTurn t))) with false. cbv iota.
    rewrite !isTextContent_modelTurn.
    rewrite !bool_decide_eq_false_2 by done. cbn [negb andb removelast app].
    rewrite mergeText_modelTurn, IH by (by apply string_app_nonempty).
    by rewrite string_app_assoc.
Qed.

Lemma consolidate_modelTurns ts :
  Forall (λ t, t ≠ "") ts →
  consolidate (map modelTurn ts)
  = match ts with [] => [] | _ => [modelTurn (joined ts)] end.
Proof.
  intros Hts. destruct Hts as [|t ts Ht Hts]; [done|].
  unfold consolidate. cbn [map foldl last].
  change (isThoughtContent (Some (modelTurn t))) with false. cbv iota.
  cbn [app]. by rewrite consolidate_textTurns.
Qed.

Section StreamFacts.
Context (isFunctionResponse : Content → bool).

Lemma Forall_filter_nonempty ts :
  Forall (λ t, t ≠ "")
    (List.filter (λ t : string, negb (bool_decide (t = ""))) ts).
Proof.
  apply Forall_forall. intros t Ht.
  apply list_elem_of_In, List.filter_In in Ht as [_ Ht].
  apply negb_true_iff in Ht. by apply bool_decide_eq_false in Ht.
Qed.

Lemma forallb_role_modelTurns ts :
  forallb (λ c, truthyObj (role c)) (map modelTurn ts) = true.
Proof. by induction ts. Qed.

(** X12.  A stream that fails, before its first chunk or after some, emits one
    error event after the request event and no response event, whatever usage
    metadata the chunks carried, hands on the error, and stores nothing: not
    even the user message. *)
Theorem sendMessageStream_failure_logs_error_keeps_history s u p r t0 t1 cfg
    error outcome :
  validateHistory (history s) = inr () →
  outcome = inr error ∨ (∃ yielded, outcome = inl (yielded, Some error)) →
  ∃ s' request,
    sendMessageStream isFunctionResponse s u p r t0 t1 (mkRun cfg outcome)
    = Some (s', Some error)
    ∧ history s' = history s
    ∧ emitted s'
      = emitted s
        ++ [request;
            ApiErrorEvent (getModel cfg) (errorMessageOf error) (t1 - t0) p
              (getAuthType cfg) (errorTypeOf error)]
    ∧ isErrorEvent request = false ∧ isResponseEvent request = false.
Proof.
  intros Hh Hout.
  destruct (extractCuratedHistory_total _ Hh) as [curated Hc].
  destruct (sendMessage_request_spec s u p r curated Hc)
    as (request & Hreq & Hnr & Hne).
  unfold sendMessageStream. rewrite Hreq.
  cbn [mbind option_bind settled configAfter].
  destruct Hout as [->|[yielded ->]].
  - eexists _, request. split; [done|]. split; [done|].
    split; [|done]. simpl. by rewrite <- app_assoc.
  - unfold processStreamResponse.
    destruct (foldl collectChunk ([], []) yielded) as [out chunks].
    eexists _, request. split; [done|]. split; [done|].
    split; [|done]. simpl. by rewrite <- app_assoc.
Qed.
End StreamFacts.

(** ** [recordHistory] on objects *)


Local Abbreviation holds h := (λ (l : loc) (v : Content), readContent h l = Some v).
Local Abbreviation holdsPart h :=
  (λ (l : loc) (p : Part), h !! l = Some (PartCell p)).

Lemma readParts_shape h pl vs :
  readParts h pl = Some vs
  ↔ ∃ ps, h !! pl = Some (PartsCell ps) ∧ Forall2 (holdsPart h) ps vs.
Proof.
  unfold readParts. split.
  - destruct (h !! pl) as [[| |ps|]|]; try done. intros Hm.
    exists ps. split; [done|]. apply mapM_Some in Hm.
    eapply Forall2_impl; [exact Hm|]. intros p x. unfold readPart.
    destruct (h !! p) as [[| | |y]|]; try done. by intros [= ->].
  - intros (ps & -> & Hps). apply mapM_Some.
    eapply Forall2_impl; [exact Hps|]. intros p x Hp. unfold readPart.
    by rewrite Hp.
Qed.

(** The two shapes of a content one can read. *)
Lemma readContent_shape h l v :
  readContent h l = Some v →
  (h !! l = Some (ContentCell (role v) None) ∧ parts v = None
   ∧ footprint h l = [l])
  ∨ (∃ pl ps vs,
       h !! l = Some (ContentCell (role v) (Some pl))
       ∧ h !! pl = Some (PartsCell ps) ∧ Forall2 (holdsPart h) ps vs
       ∧ parts v = Some vs ∧ footprint h l = l :: pl :: ps).
Proof.
  unfold readContent, footprint.
  destruct (h !! l) as [[|r [pl|]| |]|] eqn:Hl; try done.
  - destruct (readParts h pl) as [vs|] eqn:Hps; [|done].
    intros [= <-]. right. apply readParts_shape in Hps as (ps & Hpl & Hps).
    exists pl, ps, vs. by rewrite Hpl.
  - intros [= <-]. by left.
Qed.

Lemma readContent_parts h l r pl ps vs :
  h !! l = Some (ContentCell r (Some pl)) → h !! pl = Some (PartsCell ps) →
  Forall2 (holdsPart h) ps vs →
  readContent h l = Some (mkContent r (Some vs))
  ∧ footprint h l = l :: pl :: ps.
Proof.
  intros Hl Hpl Hps. unfold readContent, footprint. rewrite Hl, Hpl.
  assert (readParts h pl = Some vs) as ->; [|done].
  apply readParts_shape. by exists ps.
Qed.

(** Reading a content depends on its footprint only. *)
Lemma readContent_agree h h' l v :
  readContent h l = Some v →
  (∀ x, x ∈ footprint h l → h' !! x = h !! x) →
  readContent h' l = Some v ∧ footprint h' l = footprint h l.
Proof.
  intros Hv Hagree.
  destruct (readContent_shape h l v Hv)
    as [(Hl & Hp & Hf)|(pl & ps & vs & Hl & Hpl & Hps & Hp & Hf)].
  - rewrite Hf in Hagree.
    assert (h' !! l = Some (ContentCell (role v) None)) as Hl'
      by (rewrite Hagree; [done|apply list_elem_of_here]).
    split.
    + unfold readContent. rewrite Hl'. destruct v as [r p]. simpl in *.
      by rewrite Hp.
    + rewrite Hf. unfold footprint. by rewrite Hl'.
  - rewrite Hf in Hagree.
    assert (h' !! l = Some (ContentCell (role v) (Some pl))) as Hl'
      by (rewrite Hagree; [done|apply list_elem_of_here]).
    assert (h' !! pl = Some (PartsCell ps)) as Hpl'.
    { rewrite Hagree; [done|]. apply list_elem_of_further, list_elem_of_here. }
    assert (Forall2 (holdsPart h') ps vs) as Hps'.
    { assert (∀ p, p ∈ ps → h' !! p = h !! p) as Hsub.
      { intros p Hin. apply Hagree. by do 2 apply list_elem_of_further. }
      clear -Hps Hsub. induction Hps as [|p x ps vs Hp Hps IH]; [done|].
      constructor.
      - rewrite Hsub; [done|apply list_elem_of_here].
      - apply IH. intros q Hq. apply Hsub. by apply list_elem_of_further. }
    destruct (readContent_parts h' l (role v) pl ps vs Hl' Hpl' Hps')
      as [-> ->].
    rewrite Hf. destruct v as [r p]. simpl in *. by rewrite Hp.
Qed.

Lemma readAll_agree h h' ls vs :
  Forall2 (holds h) ls vs →
  (∀ x, x ∈ footprints h ls → h' !! x = h !! x) →
  Forall2 (holds h') ls vs ∧ footprints h' ls = footprints h ls.
Proof.
  induction 1 as [|l v ls vs Hl Hls IH]; intros Hagree; [done|].
  unfold footprints in *. cbn [flat_map] in *.
  destruct (readContent_agree h h' l v Hl) as [Hl' Hf].
  { intros x Hx. apply Hagree, elem_of_app. by left. }
  destruct IH as [Hls' Hfs].
  { intros x Hx. apply Hagree, elem_of_app. by right. }
  split; [by constructor|]. by rewrite Hf, Hfs.
Qed.

(** No content one can read has an array of contents in its footprint. *)
Lemma footprint_no_history h l v array ls :
  readContent h l = Some v → h !! array = Some (HistoryCell ls) →
  array ∉ footprint h l.
Proof.
  intros Hv Ha Hin.
  destruct (readContent_shape h l v Hv)
    as [(Hl & _ & Hf)|(pl & ps & vs & Hl & Hpl & Hps & _ & Hf)];
    rewrite Hf in Hin.
  - apply list_elem_of_singleton in Hin as ->. congruence.
  - apply elem_of_cons in Hin as [->|Hin]; [congruence|].
    apply elem_of_cons in Hin as [->|Hin]; [congruence|].
    apply list_elem_of_lookup in Hin as [i Hi].
    destruct (Forall2_lookup_l _ _ _ _ _ Hps Hi) as (x & _ & Hx). congruence.
Qed.

Lemma footprints_no_history h ls vs array elems :
  Forall2 (holds h) ls vs → h !! array = Some (HistoryCell elems) →
  array ∉ footprints h ls.
Proof.
  intros Hls Ha. unfold footprints. induction Hls as [|l v ls vs Hl _ IH];
    [by intros ?%elem_of_nil|].
  cbn [flat_map]. rewrite elem_of_app. intros [Hin|Hin]; [|done].
  by eapply footprint_no_history.
Qed.

Lemma holds_preds h l v :
  readContent h l = Some v →
  isThoughtAt h l = isThoughtContent (Some v)
  ∧ isTextAt h l = isTextContent (Some v)
  ∧ roleAt h l = role v.
Proof.
  intros Hv. unfold isThoughtAt, isTextAt, roleAt. rewrite Hv.
  split; [done|]. split; [done|].
  by destruct (readContent_shape h l v Hv)
    as [(-> & _)|(pl & ps & vs & -> & _)].
Qed.

Lemma holdsPart_agree (h h' : store) ps (vs : list Part) :
  Forall2 (holdsPart h) ps vs → (∀ p, p ∈ ps → h' !! p = h !! p) →
  Forall2 (holdsPart h') ps vs.
Proof.
  induction 1 as [|p x ps vs Hp Hps IH]; intros Hsame; [done|].
  constructor.
  - rewrite Hsame; [done|apply list_elem_of_here].
  - apply IH. intros q Hq. apply Hsame. by apply list_elem_of_further.
Qed.

Lemma isTextContent_shape v :
  isTextContent (Some v) = true →
  ∃ x xs, parts v = Some (x :: xs) ∧ role v = Some "model".
Proof.
  unfold isTextContent, isModel. intros [Hr Hp]%andb_true_iff.
  apply bool_decide_eq_true in Hr.
  destruct (parts v) as [[|x xs]|]; try done. by exists x, xs.
Qed.

(** What the merge of [content] into [lastContent] does to the store, when
    the two are text contents that share no object. *)
Lemma mergeInto_spec h a c va vc :
  readContent h a = Some va → readContent h c = Some vc →
  isTextContent (Some va) = true → isTextContent (Some vc) = true →
  NoDup (footprint h a ++ footprint h c) →
  ∃ h' added,
    mergeInto h a c = Some h'
    ∧ readContent h' a = Some (mergeText va vc)
    ∧ footprint h' a = footprint h a ++ added
    ∧ added `sublist_of` footprint h c
    ∧ ∀ x, x ∉ footprint h a → h' !! x = h !! x.
Proof.
  intros Ha Hc Hta Htc Hnd.
  destruct (isTextContent_shape va Hta) as (x0 & xs & Hpa & Hra).
  destruct (isTextContent_shape vc Htc) as (y0 & ys & Hpc & Hrc).
  destruct (readContent_shape h a va Ha)
    as [(_ & Hn & _)|(pl & ps & vs & Hla & Hpl & Hps & Hvs & Hfa)];
    [congruence|].
  destruct (readContent_shape h c vc Hc)
    as [(_ & Hn & _)|(ql & qs & ws & Hlc & Hql & Hqs & Hws & Hfc)];
    [congruence|].
  rewrite Hpa in Hvs. injection Hvs as <-.
  rewrite Hpc in Hws. injection Hws as <-.
  apply Forall2_cons_inv_r in Hps as (p0 & ps' & Hp0 & Hps & ->).
  apply Forall2_cons_inv_r in Hqs as (q0 & qs' & Hq0 & Hqs & ->).
  rewrite Hfa, Hfc in Hnd.
  set (new := PartCell (setText x0 (orEmpty (text x0) +:+ orEmpty (text y0)))).
  set (h' := <[pl := PartsCell ((p0 :: ps') ++ qs')]> (<[p0 := new]> h)).
  assert (pl ≠ p0) as Hplp0.
  { intros ->. apply NoDup_app in Hnd as (Hnd & _).
    apply NoDup_cons in Hnd as [_ Hnd]. apply NoDup_cons in Hnd as [Hnd _].
    apply Hnd, list_elem_of_here. }
  assert (mergeInto h a c = Some h') as Hm.
  { unfold mergeInto, partsAt. rewrite Hla, Hpl, Hlc, Hql.
    cbn [mbind option_bind]. unfold readPart. rewrite Hp0, Hq0.
    cbn [mbind option_bind]. fold new. case_bool_decide as Hlen;
      [done|].
    destruct qs' as [|q1 qs']; [|simpl in Hlen; lia].
    f_equal. subst h'. rewrite app_nil_r.
    rewrite (insert_id (<[p0:=new]> h) pl); [done|].
    by rewrite lookup_insert_ne. }
  assert (∀ x, x ≠ p0 → x ≠ pl → h' !! x = h !! x) as Hframe.
  { intros x H1 H2. subst h'. by rewrite !lookup_insert_ne. }
  assert (∀ x, x ∉ a :: pl :: p0 :: ps' → h' !! x = h !! x) as Hframe'.
  { intros x Hx. apply Hframe; intros ->; apply Hx.
    - do 2 apply list_elem_of_further. apply list_elem_of_here.
    - apply list_elem_of_further, list_elem_of_here. }
  exists h', qs'. split; [done|].
  assert (h' !! a = Some (ContentCell (role va) (Some pl))) as Hla'.
  { rewrite Hframe; [done| |].
    - intros ->. apply NoDup_app in Hnd as (Hnd & _).
      apply NoDup_cons in Hnd as [Hnd _]. apply Hnd.
      apply list_elem_of_further, list_elem_of_here.
    - intros ->. apply NoDup_app in Hnd as (Hnd & _).
      apply NoDup_cons in Hnd as [Hnd _]. apply Hnd, list_elem_of_here. }
  assert (h' !! pl = Some (PartsCell ((p0 :: ps') ++ qs'))) as Hpl'
    by (subst h'; by rewrite lookup_insert_eq).
  assert (Forall2 (holdsPart h') ((p0 :: ps') ++ qs')
            (setText x0 (orEmpty (text x0) +:+ orEmpty (text y0))
               :: xs ++ ys)) as Hparts.
  { cbn [app]. constructor.
    - subst h'. rewrite lookup_insert_ne by done.
      by rewrite lookup_insert_eq.
    - apply Forall2_app.
      + assert (∀ p, p ∈ ps' → h' !! p = h !! p) as Hsame.
        { intros p Hp. apply Hframe; intros ->.
          - apply NoDup_app in Hnd as (Hnd & _).
            do 2 apply NoDup_cons in Hnd as [_ Hnd].
            by apply NoDup_cons in Hnd as [Hnd _].
          - apply NoDup_app in Hnd as (Hnd & _).
            apply NoDup_cons in Hnd as [_ Hnd].
            apply NoDup_cons in Hnd as [Hnd _]. apply Hnd.
            by apply list_elem_of_further. }
        by apply (holdsPart_agree h).
      + assert (∀ q, q ∈ qs' → h' !! q = h !! q) as Hsame.
        { intros q Hq. apply NoDup_app in Hnd as (_ & Hnd & _).
          apply Hframe; intros ->.
          - apply (Hnd p0).
            + do 2 apply list_elem_of_further. apply list_elem_of_here.
            + by do 3 apply list_elem_of_further.
          - apply (Hnd pl).
            + apply list_elem_of_further, list_elem_of_here.
            + by do 3 apply list_elem_of_further. }
        by apply (holdsPart_agree h). }
  destruct (readContent_parts h' a (role va) pl _ _ Hla' Hpl' Hparts)
    as [Hread Hfoot].
  split; [|split; [|split]].
  - rewrite Hread. unfold mergeText. by rewrite Hpa, Hpc.
  - by rewrite Hfoot, Hfa.
  - rewrite Hfc. by do 3 apply sublist_cons.
  - rewrite Hfa. exact Hframe'.
Qed.

Lemma Forall2_last_inv {A B} (R : A → B → Prop) l k a :
  Forall2 R l k → last l = Some a →
  ∃ init init' b, l = init ++ [a] ∧ k = init' ++ [b]
                  ∧ Forall2 R init init' ∧ R a b.
Proof.
  intros HR [init ->]%last_Some.
  apply Forall2_app_inv_l in HR as (init' & k' & Hinit & Ha & ->).
  apply Forall2_cons_inv_l in Ha as (b & k'' & Hab & Hnil & ->).
  apply Forall2_nil_inv_l in Hnil as ->. by exists init, init', b.
Qed.

Lemma footprints_app h a b :
  footprints h (a ++ b) = footprints h a ++ footprints h b.
Proof. apply flat_map_app. Qed.

(** The consolidation loop on objects computes what the loop on values
    computes, as long as the contents it goes through share no object; it
    touches no object outside their footprints. *)
Lemma consolidateIn_refines (F0 : list loc) (h0 : store) rest :
  ∀ h cons cvals rvals,
    Forall2 (holds h) cons cvals → Forall2 (holds h) rest rvals →
    NoDup (footprints h (cons ++ rest)) →
    (∀ x, x ∈ footprints h (cons ++ rest) → x ∈ F0) →
    (∀ x, x ∉ F0 → h !! x = h0 !! x) →
    ∃ h' cons',
      consolidateIn (h, cons) rest = Some (h', cons')
      ∧ Forall2 (holds h') cons' (foldl consolidateStep cvals rvals)
      ∧ (∀ x, x ∉ F0 → h' !! x = h0 !! x).
Proof.
  induction rest as [|c rest IH];
    intros h cons cvals rvals Hcons Hrest Hnd Hin Hout.
  - apply Forall2_nil_inv_l in Hrest as ->. by exists h, cons.
  - apply Forall2_cons_inv_l in Hrest as (vc & rvals' & Hc & Hrest & ->).
    destruct (holds_preds h c vc Hc) as (Hth & Htx & _).
    cbn [consolidateIn foldl]. unfold consolidateStepIn. cbn [fst snd].
    rewrite Hth.
    assert (footprints h (cons ++ c :: rest)
            = footprints h cons ++ footprint h c ++ footprints h rest)
      as Hfp by (by rewrite footprints_app).
    destruct (isThoughtContent (Some vc)).
    { cbn [mbind option_bind]. apply IH; try done.
      - rewrite footprints_app. rewrite Hfp in Hnd.
        eapply sublist_NoDup; [exact Hnd|].
        apply sublist_app; [done|]. by apply sublist_inserts_l.
      - intros x Hx. apply Hin. rewrite Hfp. rewrite footprints_app in Hx.
        rewrite !elem_of_app in Hx. rewrite !elem_of_app. tauto. }
    destruct (last cons) as [a|] eqn:Hlast.
    + destruct (Forall2_last_inv _ _ _ _ Hcons Hlast)
        as (init & ivals & va & -> & -> & Hinit & Ha).
      rewrite last_snoc.
      destruct (holds_preds h a va Ha) as (_ & Hta & _). rewrite Hta, Htx.
      destruct (isTextContent (Some va) && isTextContent (Some vc)) eqn:Hboth.
      * apply andb_true_iff in Hboth as [Hva Hvc].
        assert (footprints h ((init ++ [a]) ++ c :: rest)
                = footprints h init ++ footprint h a ++ footprint h c
                  ++ footprints h rest) as Hfp2.
        { rewrite !footprints_app. unfold footprints at 2 3.
          cbn [flat_map]. by rewrite !app_nil_r, <- !app_assoc. }
        rewrite Hfp2 in Hnd.
        assert (NoDup (footprint h a ++ footprint h c)) as Hac.
        { eapply sublist_NoDup; [exact Hnd|].
          apply sublist_inserts_l. rewrite app_assoc.
          by apply sublist_inserts_r. }
        destruct (mergeInto_spec h a c va vc Ha Hc Hva Hvc Hac)
          as (h' & added & Hm & Ha' & Hfa' & Hadded & Hframe).
        rewrite Hm. cbn [mbind option_bind].
        assert (∀ x, x ∈ footprints h init ++ footprints h rest →
                     h' !! x = h !! x) as Hsame.
        { intros x Hx. apply Hframe. intros Hxa.
          rewrite elem_of_app in Hx. destruct Hx as [Hx|Hx].
          - apply NoDup_app in Hnd as (_ & Hnd & _). apply (Hnd x Hx).
            rewrite elem_of_app. by left.
          - apply NoDup_app in Hnd as (_ & _ & Hnd).
            apply NoDup_app in Hnd as (_ & Hnd & _). apply (Hnd x Hxa).
            rewrite elem_of_app. by right. }
        destruct (readAll_agree h h' init ivals Hinit) as [Hinit' Hfi].
        { intros x Hx. apply Hsame, elem_of_app. by left. }
        destruct (readAll_agree h h' rest rvals' Hrest) as [Hrest' Hfr].
        { intros x Hx. apply Hsame, elem_of_app. by right. }
        assert (footprints h' ((init ++ [a]) ++ rest)
                = footprints h init ++ (footprint h a ++ added)
                  ++ footprints h rest) as Hfp'.
        { rewrite !footprints_app, Hfi, Hfr. unfold footprints at 2.
          cbn [flat_map]. by rewrite app_nil_r, Hfa', <- !app_assoc. }
        assert (footprints h' ((init ++ [a]) ++ rest)
                `sublist_of` footprints h init
                             ++ (footprint h a ++ footprint h c)
                             ++ footprints h rest) as Hsub.
        { rewrite Hfp'. apply sublist_app; [done|].
          apply sublist_app; [|done]. by apply sublist_app. }
        rewrite (app_assoc (footprint h a)) in Hnd.
        rewrite removelast_last.
        apply (IH h' (init ++ [a]) (ivals ++ [mergeText va vc]) rvals').
        -- apply Forall2_app; [done|]. by repeat constructor.
        -- done.
        -- eapply sublist_NoDup; [exact Hnd|exact Hsub].
        -- intros x Hx. apply Hin. rewrite Hfp2.
           apply (sublist_subseteq _ _ Hsub) in Hx.
           by rewrite (app_assoc (footprint h a)).
        -- intros x Hx. rewrite <- Hout by done. apply Hframe.
           intros Hxa. apply Hx, Hin. rewrite Hfp2.
           rewrite !elem_of_app. by right; left.
      * cbn [mbind option_bind].
        apply (IH h ((init ++ [a]) ++ [c]) ((ivals ++ [va]) ++ [vc]) rvals');
          try done.
        -- apply Forall2_app; [done|]. by repeat constructor.
        -- by rewrite <- (app_assoc (init ++ [a]) [c] rest).
        -- by rewrite <- (app_assoc (init ++ [a]) [c] rest).
    + apply last_None in Hlast as ->.
      apply Forall2_nil_inv_l in Hcons as ->.
      cbn [mbind option_bind app].
      apply (IH h [c] [vc] rvals'); try done. by repeat constructor.
Qed.

Lemma footprint_dom h l v x :
  readContent h l = Some v → x ∈ footprint h l → is_Some (h !! x).
Proof.
  intros Hv Hx.
  destruct (readContent_shape h l v Hv)
    as [(Hl & _ & Hf)|(pl & ps & vs & Hl & Hpl & Hps & _ & Hf)];
    rewrite Hf in Hx.
  - apply list_elem_of_singleton in Hx as ->. by eexists.
  - apply elem_of_cons in Hx as [->|Hx]; [by eexists|].
    apply elem_of_cons in Hx as [->|Hx]; [by eexists|].
    apply list_elem_of_lookup in Hx as [i Hi].
    destruct (Forall2_lookup_l _ _ _ _ _ Hps Hi) as (y & _ & Hy).
    by eexists.
Qed.

Lemma footprints_dom h ls vs x :
  Forall2 (holds h) ls vs → x ∈ footprints h ls → is_Some (h !! x).
Proof.
  unfold footprints. induction 1 as [|l v ls vs Hl _ IH];
    [by intros ?%elem_of_nil|].
  cbn [flat_map]. rewrite elem_of_app. intros [Hx|Hx]; [|by apply IH].
  by eapply footprint_dom.
Qed.

Lemma readAll_mono h h' ls vs :
  h ⊆ h' → Forall2 (holds h) ls vs →
  Forall2 (holds h') ls vs ∧ footprints h' ls = footprints h ls.
Proof.
  intros Hsub Hls. apply readAll_agree; [done|]. intros x Hx.
  destruct (footprints_dom h ls vs x Hls Hx) as [c Hc].
  rewrite Hc. by eapply lookup_weaken.
Qed.

Lemma holds_filter_nonThought h ls vs :
  Forall2 (holds h) ls vs →
  Forall2 (holds h) (List.filter (λ l, negb (isThoughtAt h l)) ls)
    (List.filter (λ c, negb (isThoughtContent (Some c))) vs)
  ∧ footprints h (List.filter (λ l, negb (isThoughtAt h l)) ls)
    `sublist_of` footprints h ls.
Proof.
  unfold footprints. induction 1 as [|l v ls vs Hl Hls [IH1 IH2]]; [done|].
  cbn [List.filter flat_map].
  destruct (holds_preds h l v Hl) as (-> & _).
  destruct (isThoughtContent (Some v)); cbn [negb flat_map].
  - split; [done|]. by apply sublist_inserts_l.
  - split; [by constructor|]. by apply sublist_app.
Qed.

Lemma holds_forallb_role h ls vs :
  Forall2 (holds h) ls vs →
  forallb (λ l, truthyObj (roleAt h l)) ls
  = forallb (λ c, truthyObj (role c)) vs.
Proof.
  induction 1 as [|l v ls vs Hl Hls IH]; [done|]. cbn [forallb].
  destruct (holds_preds h l v Hl) as (_ & _ & ->). by rewrite IH.
Qed.

Lemma readHistory_holds h array ls vs :
  h !! array = Some (HistoryCell ls) → Forall2 (holds h) ls vs →
  readHistory h array = Some vs.
Proof.
  intros Ha Hls. unfold readHistory. rewrite Ha. by apply mapM_Some.
Qed.

Section RecordInFacts.
Context (isFunctionResponse : Content → bool).

(** [recordHistory] on objects stores the values [recordHistory] on values
    computes, for a user message and model contents that are objects of
    their own: no two of them share an object, and none shares one with the
    stored history or the message. *)
Lemma recordHistoryIn_refines h historyRef hist hvals userInput u outs
    ovals :
  h !! historyRef = Some (HistoryCell hist) →
  Forall2 (holds h) hist hvals →
  readContent h userInput = Some u → isUser u = true →
  Forall2 (holds h) outs ovals →
  NoDup (footprints h outs) →
  (∀ x, x ∈ footprints h outs → x ∉ footprints h (hist ++ [userInput])) →
  ∃ h',
    recordHistoryIn isFunctionResponse h historyRef userInput outs = Some h'
    ∧ readHistory h' historyRef
      = recordHistory isFunctionResponse hvals u ovals None.
Proof.
  intros Hhist Hhvals Hu Huser Houts Hnd Hdisj.
  rewrite (recordHistory_user isFunctionResponse hvals u ovals None)
    by (done || by left).
  cbn zeta. unfold recordHistoryIn.
  destruct (holds_filter_nonThought h outs ovals Houts) as [Hnt Hntsub].
  set (nt := List.filter (λ l, negb (isThoughtAt h l)) outs) in *.
  set (ntvals := List.filter (λ c, negb (isThoughtContent (Some c))) ovals)
    in *.
  rewrite (holds_forallb_role h nt ntvals Hnt).
  rewrite (Forall2_length _ _ _ Hnt), (Forall2_length _ _ _ Houts).
  assert (Forall2 (holds h) (hist ++ [userInput]) (hvals ++ [u])) as Hprev.
  { apply Forall2_app; [done|]. by repeat constructor. }
  set (ocvals :=
         if bool_decide (0 < length ntvals)
            && forallb (λ c, truthyObj (role c)) ntvals
         then ntvals
         else if bool_decide (length ntvals = 0)
                 && bool_decide (0 < length ovals)
         then []
         else if negb (isFunctionResponse u) then [emptyModelTurn] else []).
  (* the contents to consolidate, and the store they live in *)
  assert (∃ h1 ocs,
            (if bool_decide (0 < length ntvals)
                && forallb (λ c, truthyObj (role c)) ntvals
             then Some (h, nt)
             else if bool_decide (length ntvals = 0)
                     && bool_decide (0 < length ovals)
             then Some (h, [])
             else
               readContent h userInput ≫= λ u0,
                 if negb (isFunctionResponse u0)
                 then
                   Some (<[fresh (dom (<[fresh (dom h) := PartsCell []]> h))
                           := ContentCell (Some "model")
                                (Some (fresh (dom h)))]>
                           (<[fresh (dom h) := PartsCell []]> h),
                         [fresh (dom (<[fresh (dom h) := PartsCell []]> h))])
                 else Some (h, []))
            = Some (h1, ocs)
            ∧ h ⊆ h1 ∧ Forall2 (holds h1) ocs ocvals
            ∧ NoDup (footprints h1 ocs)
            ∧ (∀ x, x ∈ footprints h1 ocs →
                    x ∉ footprints h (hist ++ [userInput])))
    as (h1 & ocs & -> & Hsub & Hocs & Hnd1 & Hdisj1).
  { subst ocvals.
    destruct (bool_decide (0 < length ntvals)
              && forallb (λ c, truthyObj (role c)) ntvals).
    { exists h, nt. split; [done|]. split; [done|]. split; [done|].
      split; [by eapply sublist_NoDup|]. intros x Hx. apply Hdisj.
      by apply (sublist_subseteq _ _ Hntsub). }
    destruct (bool_decide (length ntvals = 0)
              && bool_decide (0 < length ovals)).
    { exists h, []. split; [done|]. split; [done|]. split; [done|].
      split; [constructor|]. by intros x ?%elem_of_nil. }
    rewrite Hu. cbn [mbind option_bind].
    destruct (isFunctionResponse u); cbn [negb].
    { exists h, []. split; [done|]. split; [done|]. split; [done|].
      split; [constructor|]. by intros x ?%elem_of_nil. }
    set (pl := fresh (dom h)).
    set (hp := <[pl := PartsCell []]> h).
    set (cl := fresh (dom hp)).
    assert (h !! pl = None) as Hpl
      by (apply not_elem_of_dom, is_fresh).
    assert (hp !! cl = None) as Hcl
      by (apply not_elem_of_dom, is_fresh).
    assert (cl ≠ pl) as Hne.
    { intros E. rewrite E in Hcl. subst hp.
      by rewrite lookup_insert_eq in Hcl. }
    assert (h !! cl = None) as Hcl'.
    { subst hp. by rewrite lookup_insert_ne in Hcl by done. }
    eexists _, [cl]. split; [done|].
    assert (readContent (<[cl := ContentCell (Some "model") (Some pl)]> hp)
              cl = Some emptyModelTurn
            ∧ footprint (<[cl := ContentCell (Some "model") (Some pl)]> hp)
                cl = [cl; pl]) as [Hread Hfoot].
    { apply (readContent_parts _ cl (Some "model") pl [] []).
      - by rewrite lookup_insert_eq.
      - rewrite lookup_insert_ne by done. subst hp.
        by rewrite lookup_insert_eq.
      - constructor. }
    split; [|split; [by repeat constructor|split]].
    - etrans; [apply (insert_subseteq h pl); done|].
      by apply insert_subseteq.
    - unfold footprints. cbn [flat_map]. rewrite Hfoot, app_nil_r.
      apply NoDup_cons. split; [|apply NoDup_singleton].
      by intros ->%list_elem_of_singleton.
    - unfold footprints at 1. cbn [flat_map]. rewrite Hfoot, app_nil_r.
      intros x Hx Hin.
      destruct (footprints_dom h _ _ x Hprev Hin) as [c Hc].
      apply elem_of_cons in Hx as [->|Hx]; [congruence|].
      apply list_elem_of_singleton in Hx as ->. congruence. }
  cbn [mbind option_bind].
  (* the message is pushed *)
  assert (h1 !! historyRef = Some (HistoryCell hist)) as Hhist1
    by (by eapply lookup_weaken).
  destruct (readAll_mono h h1 _ _ Hsub Hprev) as [Hprev1 Hfp1].
  set (h2 := <[historyRef := HistoryCell (hist ++ [userInput])]> h1).
  assert (pushTo h1 historyRef [userInput] = Some h2) as ->
    by (unfold pushTo; by rewrite Hhist1).
  cbn [mbind option_bind].
  assert (∀ ls vs, Forall2 (holds h1) ls vs →
            Forall2 (holds h2) ls vs ∧ footprints h2 ls = footprints h1 ls)
    as Hstep2.
  { intros ls vs Hls. apply readAll_agree; [done|]. intros x Hx.
    subst h2. rewrite lookup_insert_ne; [done|]. intros <-.
    by apply (footprints_no_history h1 ls vs historyRef hist Hls Hhist1). }
  destruct (Hstep2 _ _ Hprev1) as [Hprev2 Hfp2].
  destruct (Hstep2 _ _ Hocs) as [Hocs2 Hfo2].
  (* the loop *)
  destruct (consolidateIn_refines (footprints h2 ocs) h2 ocs h2 [] []
              ocvals) as (h3 & cons & -> & Hcons & Hframe); try done.
  { cbn [app]. by rewrite Hfo2. }
  cbn [mbind option_bind].
  fold (consolidate ocvals) in Hcons.
  assert (h3 !! historyRef = Some (HistoryCell (hist ++ [userInput])))
    as Hhist3.
  { rewrite Hframe; [subst h2; by rewrite lookup_insert_eq|].
    eapply footprints_no_history; [exact Hocs2|].
    subst h2. by rewrite lookup_insert_eq. }
  destruct (readAll_agree h2 h3 _ _ Hprev2) as [Hprev3 Hfp3].
  { intros x Hx. apply Hframe. rewrite Hfo2. intros Hin.
    apply (Hdisj1 x Hin). by rewrite <- Hfp1, <- Hfp2. }
  destruct cons as [|first others].
  - apply Forall2_nil_inv_l in Hcons. rewrite Hcons.
    exists h3. split; [done|].
    by apply (readHistory_holds h3 historyRef (hist ++ [userInput])).
  - unfold lastOf. rewrite Hhist3, last_snoc.
    assert (isTextAt h3 userInput = false) as ->.
    { apply Forall2_app_inv_l in Hprev3
        as (k1 & k2 & _ & Hu3 & Hk).
      apply Forall2_cons_inv_l in Hu3 as (u' & k3 & Hu3 & Hnil & ->).
      apply Forall2_nil_inv_l in Hnil as ->.
      apply app_inj_tail in Hk as [_ <-].
      destruct (holds_preds h3 userInput u Hu3) as (_ & -> & _).
      by apply isUser_not_text. }
    cbn [andb]. unfold pushTo. rewrite Hhist3.
    eexists. split; [done|].
    set (h4 := <[historyRef := _]> h3).
    apply (readHistory_holds h4 historyRef
             ((hist ++ [userInput]) ++ first :: others)).
    { subst h4. by rewrite lookup_insert_eq. }
    assert (Forall2 (holds h3) ((hist ++ [userInput]) ++ first :: others)
              ((hvals ++ [u]) ++ consolidate ocvals)) as Hall
      by (by apply Forall2_app).
    replace (hvals ++ u :: consolidate ocvals)
      with ((hvals ++ [u]) ++ consolidate ocvals)
      by (by rewrite <- app_assoc).
    refine (proj1 (readAll_agree h3 h4 _ _ Hall _)).
    intros x Hx. subst h4. rewrite lookup_insert_ne; [done|]. intros <-.
    by eapply (footprints_no_history h3).
Qed.
End RecordInFacts.

Lemma holds_outputContentIn h ls vs :
  Forall2 (holds h) ls vs →
  Forall2 (holds h) (outputContentIn h ls) (recordedValues vs)
  ∧ footprints h (outputContentIn h ls) `sublist_of` footprints h ls.
Proof.
  unfold footprints, outputContentIn, recordedValues.
  induction 1 as [|l v ls vs Hl Hls [IH1 IH2]]; [done|].
  cbn [List.filter flat_map].
  destruct (holds_preds h l v Hl) as (-> & _).
  destruct (readContent_preds h l v Hl) as (_ & _ & ->).
  destruct (isValidContent v && negb (isThoughtContent (Some v)));
    cbn [flat_map].
  - split; [by constructor|]. by apply sublist_app.
  - split; [done|]. by apply sublist_inserts_l.
Qed.

Lemma recordedValues_nonThought vs :
  Forall (λ c, isThoughtContent (Some c) = false) (recordedValues vs).
Proof.
  apply Forall_forall. intros c Hc.
  apply list_elem_of_In, List.filter_In in Hc as [_ Hc].
  apply andb_true_iff in Hc as [_ Hc]. by apply negb_true_iff in Hc.
Qed.

Section StreamInFacts.
Context (isFunctionResponse : Content → bool).

Lemma streamRecordIn_values h historyRef hist hvals inputContent u yielded
    yvals :
  h !! historyRef = Some (HistoryCell hist) →
  Forall2 (holds h) hist hvals →
  readContent h inputContent = Some u → isUser u = true →
  Forall2 (holds h) yielded yvals →
  ownObjects h yielded (hist ++ [inputContent]) →
  ∃ h',
    streamRecordIn isFunctionResponse h historyRef inputContent yielded
    = Some h'
    ∧ readHistory h' historyRef
      = Some (hvals
              ++ u :: (if bool_decide (recordedValues yvals ≠ [])
                          && forallb (λ c, truthyObj (role c))
                               (recordedValues yvals)
                       then consolidate (recordedValues yvals)
                       else if isFunctionResponse u then []
                       else [emptyModelTurn])).
Proof.
  intros Hhist Hhvals Hu Huser Hy [Hnd Hdisj].
  destruct (holds_outputContentIn h yielded yvals Hy) as [Hout Hsub].
  destruct (recordHistoryIn_refines isFunctionResponse h historyRef hist
              hvals inputContent u (outputContentIn h yielded)
              (recordedValues yvals)) as (h' & Hrun & Hread); try done.
  { by eapply sublist_NoDup. }
  { intros x Hx. rewrite Forall_forall in Hdisj. apply Hdisj.
    by apply (sublist_subseteq _ _ Hsub). }
  exists h'. split; [done|]. rewrite Hread.
  rewrite (recordHistory_user isFunctionResponse) by (done || by left).
  f_equal. f_equal. f_equal. cbn zeta.
  rewrite filter_nonThought_none by apply recordedValues_nonThought.
  destruct (recordedValues yvals) as [|c cs] eqn:E.
  - simpl. by destruct (isFunctionResponse u).
  - rewrite (bool_decide_eq_true_2 (0 < length (c :: cs))) by (simpl; lia).
    rewrite (bool_decide_eq_true_2 (c :: cs ≠ [])) by done.
    destruct (forallb _ (c :: cs)); simpl; [done|].
    by destruct (isFunctionResponse u).
Qed.

(** X10.  What a stream pulled to its end stores, when the contents it
    yielded are objects of their own: no two of them share an object, and
    none shares one with the stored history or the message.  The history so
    far stays as it was, the user message follows, and then the contents of
    the yielded chunks that pass [isValidResponse] and are no thoughts,
    consolidated as [consolidate] does on values (so with no thought and no
    two neighbouring text contents), provided there is one and all have a
    role; otherwise the empty model turn (nothing when the message is a
    function response).  A stream of thoughts only is thus stored with the
    empty model turn. *)
Theorem stream_records_consolidated_chunks h historyRef hist hvals
    inputContent u yielded yvals :
  h !! historyRef = Some (HistoryCell hist) →
  Forall2 (holds h) hist hvals →
  readContent h inputContent = Some u → isUser u = true →
  Forall2 (holds h) yielded yvals →
  ownObjects h yielded (hist ++ [inputContent]) →
  ∃ h' out,
    streamRecordIn isFunctionResponse h historyRef inputContent yielded
    = Some h'
    ∧ readHistory h' historyRef = Some (hvals ++ u :: out)
    ∧ out = (if bool_decide (recordedValues yvals ≠ [])
                && forallb (λ c, truthyObj (role c)) (recordedValues yvals)
             then consolidate (recordedValues yvals)
             else if isFunctionResponse u then [] else [emptyModelTurn])
    ∧ noAdjacentText out = true
    ∧ Forall (λ c, isThoughtContent (Some c) = false) out.
Proof.
  intros Hhist Hhvals Hu Huser Hy Hown.
  destruct (streamRecordIn_values h historyRef hist hvals inputContent u
              yielded yvals) as (h' & Hrun & Hread); try done.
  eexists h', _. split; [done|]. split; [done|]. split; [done|].
  destruct (consolidate_facts (λ _, True) (recordedValues yvals))
    as (Hn & Ht & _); [by apply Forall_forall|].
  destruct (_ && _); [done|].
  destruct (isFunctionResponse u); [by split; [|constructor]|].
  split; [done|]. by apply Forall_singleton.
Qed.

Lemma recordedValues_modelTurns ts :
  recordedValues (map modelTurn ts)
  = map modelTurn (List.filter (λ t, negb (bool_decide (t = ""))) ts).
Proof.
  induction ts as [|t ts IH]; [done|].
  unfold recordedValues in *. cbn [map List.filter]. rewrite IH.
  assert (isValidContent (modelTurn t) = negb (bool_decide (t = ""))) as ->.
  { unfold isValidContent, modelTurn.
    cbn [parts forallb]. unfold partOk, textPart. cbn.
    rewrite (bool_decide_eq_false_2 (1 = 0)) by done.
    rewrite andb_true_r. case_bool_decide as E.
    - injection E as ->. by rewrite bool_decide_eq_true_2.
    - rewrite bool_decide_eq_false_2 by congruence. done. }
  change (isThoughtContent (Some (modelTurn t))) with false.
  cbn [negb]. rewrite andb_true_r.
  by destruct (negb (bool_decide (t = ""))).
Qed.

(** X11.  A stream of text contents that are objects of their own is stored
    as one model turn whose text is the texts joined in order; contents with
    an empty text are skipped, and when no text is left the empty model turn
    is stored in its place (nothing when the message is a function
    response).  (An object yielded twice is merged into itself:
    [stream_same_object_yielded_again].) *)
Theorem stream_joins_text_chunks h historyRef hist hvals inputContent u
    yielded ts :
  h !! historyRef = Some (HistoryCell hist) →
  Forall2 (holds h) hist hvals →
  readContent h inputContent = Some u → isUser u = true →
  Forall2 (holds h) yielded (map modelTurn ts) →
  ownObjects h yielded (hist ++ [inputContent]) →
  ∃ h',
    streamRecordIn isFunctionResponse h historyRef inputContent yielded
    = Some h'
    ∧ readHistory h' historyRef
      = Some (hvals
              ++ u :: (if bool_decide (joined ts = "")
                       then if isFunctionResponse u then []
                            else [emptyModelTurn]
                       else [modelTurn (joined ts)])).
Proof.
  intros Hhist Hhvals Hu Huser Hy Hown.
  destruct (streamRecordIn_values h historyRef hist hvals inputContent u
              yielded (map modelTurn ts)) as (h' & Hrun & Hread); try done.
  exists h'. split; [done|]. rewrite Hread. f_equal. f_equal. f_equal.
  rewrite recordedValues_modelTurns, forallb_role_modelTurns, andb_true_r.
  rewrite consolidate_modelTurns by apply Forall_filter_nonempty.
  rewrite <- (joined_filter ts).
  pose proof (Forall_filter_nonempty ts) as Hne.
  destruct (List.filter _ ts) as [|t ts'].
  - done.
  - rewrite bool_decide_eq_true_2 by done.
    rewrite bool_decide_eq_false_2; [done|].
    apply Forall_cons in Hne as [Ht _]. simpl.
    by apply string_app_nonempty.
Qed.
End StreamInFacts.

(** Without that the merge is not the one on values: a content yielded three
    times has its text doubled twice, and one yielded again after another is
    merged into itself. *)
Example stream_same_object_yielded_again :
  (h' ← streamRecordIn demoIsFunctionResponse demoStreamStore 0 1 [4; 4; 4];
   readHistory h' 0)
  = Some [userTurn "hi"; modelTurn "aaaa"]
  ∧ (h' ← streamRecordIn demoIsFunctionResponse demoStreamStore 0 1
            [4; 7; 4];
     readHistory h' 0)
    = Some [userTurn "hi"; modelTurn "abab"].
Proof. split; reflexivity. Qed.

(** ** One response event for each correlation id *)

Lemma responsesFor_app rid es es' :
  responsesFor rid (es ++ es') = responsesFor rid es ++ responsesFor rid es'.
Proof. apply List.filter_app. Qed.

(** What one call of [_logApiResponse] adds for a correlation id, and that
    it adds no id to [loggedResponses]. *)
Lemma logApiResponse_responsesFor s d p r usage resp rid :
  ∃ new,
    responsesFor rid (emitted (_logApiResponse s d p r usage resp))
    = responsesFor rid (emitted s) ++ new
    ∧ (length new ≤ 1)%nat ∧ (rid ≠ r → new = [])
    ∧ ∀ id, id ∈ loggedResponses (_logApiResponse s d p r usage resp) →
            id ∈ loggedResponses s.
Proof.
  rewrite logApiResponse_emitted, responsesFor_app.
  eexists. split; [done|]. split; [|split].
  - destruct usage; simpl; [|lia]. case_bool_decide; simpl; lia.
  - intros Hne. destruct usage; simpl; [|done].
    by rewrite bool_decide_eq_false_2 by done.
  - intros id. unfold _logApiResponse. destruct usage; [|done].
    case_bool_decide; simpl; [|done]. apply subseteq_drop.
Qed.

Lemma collectChunk_answerOk yielded acc :
  Forall answerOk yielded →
  Forall (λ c, role c = None ∨ knownContent c = true) acc.1 →
  Forall (λ c, role c = None ∨ knownContent c = true)
    (foldl collectChunk acc yielded).1.
Proof.
  revert acc. induction yielded as [|chunk yielded IH]; intros acc Hy Hacc;
    [done|].
  apply Forall_cons in Hy as [Hchunk Hy]. cbn [foldl]. apply IH; [done|].
  unfold collectChunk. destruct (isValidResponse chunk); [|done].
  destruct (firstContent chunk) as [c|] eqn:Hc; [|done].
  destruct (isThoughtContent (Some c)); [done|]. cbn [fst].
  apply Forall_app. split; [done|]. apply Forall_singleton. by apply Hchunk.
Qed.

Section ExchangesTotal.
Context (isFunctionResponse : Content → bool).

(** An exchange on a history the constructor accepts returns and leaves such
    a history, when the message has a known role and the contents that come
    back have a known role or none. *)
Lemma runExchange_total s e :
  validateHistory (history s) = inr () → exchangeOk e →
  ∃ s', runExchange isFunctionResponse s e = Some s'
        ∧ validateHistory (history s') = inr ().
Proof.
  intros Hh Hok.
  destruct (extractCuratedHistory_total _ Hh) as [curated Hc].
  destruct e as [u p r t0 t1 [cfg out]|u p r t0 t1 [cfg out]];
    cbn [runExchange exchangeOk settled] in *; destruct Hok as [Hu Hout].
  - destruct (sendMessage_request_spec s u p r curated Hc)
      as (request & Hreq & _ & _).
    destruct out as [response|error].
    + destruct Hout as [Hafc Hans].
      set (outc := match firstContent response with
                   | Some c => [c] | None => [] end).
      set (afc := match automaticFunctionCallingHistory response with
                  | Some full => Some (drop (length curated) full)
                  | None => Some []
                  end).
      destruct (recordHistory_total isFunctionResponse (history s) u outc
                  afc) as [hist' Hrec].
      { subst afc. unfold afcOk in Hafc.
        destruct (automaticFunctionCallingHistory response); [|done].
        by apply validateHistory_drop. }
      destruct (sendMessage_success isFunctionResponse s u p r t0 t1 cfg
                  response curated hist' Hc Hrec) as (s' & -> & Hhist & _).
      exists s'. split; [done|]. rewrite Hhist.
      apply (recordHistory_valid isFunctionResponse _ _ _ _ _ Hh Hu)
        in Hrec; [done|].
      subst outc. destruct (firstContent response) as [c|] eqn:Hfc;
        [|by constructor].
      apply Forall_singleton. by apply Hans.
    + unfold sendMessage. rewrite Hreq.
      cbn [mbind option_bind settled configAfter].
      by eexists.
  - destruct (sendMessage_request_spec s u p r curated Hc)
      as (request & Hreq & _ & _).
    unfold sendMessageStream. rewrite Hreq.
    cbn [mbind option_bind settled configAfter].
    destruct out as [[yielded raised]|error]; [|by eexists].
    unfold processStreamResponse.
    pose proof (collectChunk_answerOk yielded ([], []) Hout) as Hcontents.
    destruct (foldl collectChunk ([], []) yielded) as [outc chunks].
    cbn [fst] in Hcontents.
    destruct raised as [error|]; [by eexists|].
    set (s2 := withConfig (emit s request) cfg).
    destruct (logApiResponse_frame s2 (t1 - t0) p r
                (getFinalUsageMetadata chunks) (ParsedArray chunks))
      as [Hhist _].
    set (s3 := _logApiResponse _ _ _ _ _ _) in *.
    destruct (recordHistory_total isFunctionResponse (history s3) u outc
                None I) as [hist' Hrec].
    rewrite Hrec. cbn [mbind option_bind fmap option_fmap option_map fst].
    eexists. split; [done|]. cbn [history withHistory].
    rewrite Hhist in Hrec. cbn [history] in Hrec.
    apply (recordHistory_valid isFunctionResponse _ _ _ _ _ Hh Hu) in Hrec;
      [done|].
    apply Hcontents. constructor.
Qed.

Lemma runExchanges_total es s :
  validateHistory (history s) = inr () → Forall exchangeOk es →
  is_Some (runExchanges isFunctionResponse s es).
Proof.
  revert s. induction es as [|e es IH]; intros s Hh Hok; [by eexists|].
  apply Forall_cons in Hok as [He Hes].
  destruct (runExchange_total s e Hh He) as (s' & Hrun & Hh').
  cbn [runExchanges]. rewrite Hrun. cbn [mbind option_bind]. by apply IH.
Qed.
End ExchangesTotal.

Section ExchangesFacts.
Context (isFunctionResponse : Content → bool).

Lemma runExchange_responsesFor s e s' rid :
  runExchange isFunctionResponse s e = Some s' →
  ∃ new,
    responsesFor rid (emitted s') = responsesFor rid (emitted s) ++ new
    ∧ (length new ≤ 1)%nat ∧ (rid ≠ requestIdOf e → new = [])
    ∧ ∀ id, id ∈ loggedResponses s' → id ∈ loggedResponses s.
Proof.
  destruct e as [u p r t0 t1 [cfg out]|u p r t0 t1 [cfg out]];
    cbn [runExchange requestIdOf]; unfold sendMessage, sendMessageStream;
    unfold sendMessage_request, _logApiRequest;
    (destruct (getHistory s true) as [curated|]; [|done]);
    cbn [mbind option_bind settled configAfter].
  - set (s2 := withConfig (emit s _) cfg).
    assert (∀ x, responsesFor rid (emitted s2 ++ x)
                 = responsesFor rid (emitted s) ++ responsesFor rid x)
      as Hs2.
    { intros x. subst s2. simpl. by rewrite !responsesFor_app, app_nil_r. }
    destruct out as [response|error].
    + unfold sendMessage_commit, sendMessage_logResponse, sendMessage_record.
      destruct (logApiResponse_responsesFor s2 (t1 - t0) p r
                  (usageMetadata response) (ParsedObject response) rid)
        as (new & Hnew & Hlen & Hother & Hlog).
      set (s3 := _logApiResponse _ _ _ _ _ _) in *.
      destruct (getHistory s3 true) as [cur3|]; [|done].
      cbn [mbind option_bind].
      destruct (recordHistory _ _ _ _ _) as [hist|]; [|done].
      cbn [mbind option_bind fmap option_fmap option_map fst].
      intros [= <-]. exists new. simpl emitted. simpl loggedResponses.
      rewrite Hnew. specialize (Hs2 []). rewrite app_nil_r in Hs2.
      rewrite Hs2. simpl. by rewrite app_nil_r.
    + cbn [fmap option_fmap option_map fst]. intros [= <-]. exists [].
      unfold sendMessage_fail, _logApiError. simpl emitted.
      rewrite Hs2. simpl. split; [done|]. split; [lia|]. done.
  - set (s2 := withConfig (emit s _) cfg).
    assert (∀ x, responsesFor rid (emitted s2 ++ x)
                 = responsesFor rid (emitted s) ++ responsesFor rid x)
      as Hs2.
    { intros x. subst s2. simpl. by rewrite !responsesFor_app, app_nil_r. }
    destruct out as [[yielded raised]|error].
    + unfold processStreamResponse.
      destruct (foldl collectChunk ([], []) yielded) as [outc chunks].
      destruct raised as [error|].
      * cbn [fmap option_fmap option_map fst]. intros [= <-]. exists [].
        unfold _logApiError. simpl emitted. rewrite Hs2. simpl.
        split; [done|]. split; [lia|]. done.
      * destruct (logApiResponse_responsesFor s2 (t1 - t0) p r
                    (getFinalUsageMetadata chunks) (ParsedArray chunks) rid)
          as (new & Hnew & Hlen & Hother & Hlog).
        set (s3 := _logApiResponse _ _ _ _ _ _) in *.
        destruct (recordHistory _ _ _ _ _) as [hist|]; [|done].
        cbn [mbind option_bind fmap option_fmap option_map fst].
        intros [= <-]. exists new. simpl emitted. simpl loggedResponses.
        rewrite Hnew. specialize (Hs2 []). rewrite app_nil_r in Hs2.
        rewrite Hs2. simpl. by rewrite app_nil_r.
    + cbn [fmap option_fmap option_map fst]. intros [= <-]. exists [].
      unfold sendMessage_fail, _logApiError. simpl emitted.
      rewrite Hs2. simpl. split; [done|]. split; [lia|]. done.
Qed.

(** C1, as the source keeps it.  Over a run of exchanges whose correlation
    ids differ from one another and have not been used on the session
    before, every correlation id has at most one response event: each
    exchange reaches [_logApiResponse] at most once, with its own id.  An id
    outside the run gets no event, and [loggedResponses] gains no id: the
    test and the insertion on it are commented out, so it is not this set
    that keeps the events apart.  The run returns when the history is one
    the constructor accepts and no content with another role comes in. *)
Theorem response_event_once_per_request_id es s :
  NoDup (requestIdOf <$> es) →
  (∀ e, e ∈ es → responsesFor (requestIdOf e) (emitted s) = []) →
  (∀ rid, length (responsesFor rid (emitted s)) ≤ 1)%nat →
  (validateHistory (history s) = inr () → Forall exchangeOk es →
   is_Some (runExchanges isFunctionResponse s es))
  ∧ ∀ s',
      runExchanges isFunctionResponse s es = Some s' →
      (∀ rid, length (responsesFor rid (emitted s')) ≤ 1)%nat
      ∧ (∀ rid, rid ∉ requestIdOf <$> es →
                responsesFor rid (emitted s') = responsesFor rid (emitted s))
      ∧ (∀ id, id ∈ loggedResponses s' → id ∈ loggedResponses s).
Proof.
  intros Hnd Hfresh Hone.
  split; [intros Hh Hok; by apply runExchanges_total|].
  revert s Hnd Hfresh Hone.
  induction es as [|e es IH]; intros s Hnd Hfresh Hone s' Hrun.
  - injection Hrun as <-. done.
  - cbn [runExchanges] in Hrun.
    destruct (runExchange isFunctionResponse s e) as [s1|] eqn:He; [|done].
    cbn [mbind option_bind] in Hrun.
    rewrite fmap_cons in Hnd. apply NoDup_cons in Hnd as [Hnotin Hnd].
    assert (∀ rid, ∃ new,
              responsesFor rid (emitted s1)
              = responsesFor rid (emitted s) ++ new
              ∧ (length new ≤ 1)%nat ∧ (rid ≠ requestIdOf e → new = []))
      as Hstep.
    { intros rid.
      destruct (runExchange_responsesFor s e s1 rid He)
        as (new & ? & ? & ? & _). by exists new. }
    destruct (IH s1) with (s' := s') as (IH1 & IH2 & IH3); [done| | |done|].
    + intros e' He'. destruct (Hstep (requestIdOf e'))
        as (new & -> & _ & Hother).
      rewrite Hfresh by by apply list_elem_of_further.
      rewrite Hother; [done|]. intros Heq. apply Hnotin. rewrite <- Heq.
      by apply list_elem_of_fmap_2.
    + intros rid. destruct (Hstep rid) as (new & -> & Hlen & Hother).
      rewrite length_app.
      destruct (decide (rid = requestIdOf e)) as [->|Hne].
      * rewrite Hfresh by apply list_elem_of_here. simpl. lia.
      * rewrite Hother by done. simpl. specialize (Hone rid). lia.
    + split; [done|]. split.
      * intros rid Hrid. rewrite fmap_cons, not_elem_of_cons in Hrid.
        destruct Hrid as [Hne Hrid]. rewrite IH2 by done.
        destruct (Hstep rid) as (new & -> & _ & Hother).
        rewrite Hother by done. apply app_nil_r.
      * intros id Hid. apply IH3 in Hid.
        by destruct (runExchange_responsesFor s e s1 id He)
          as (_ & _ & _ & _ & Hlog); apply Hlog.
Qed.
End ExchangesFacts.

Lemma response_event_once_per_request_id_witness :
  NoDup (requestIdOf <$> demoExchanges)
  ∧ ∃ s',
      runExchanges demoIsFunctionResponse demoChat demoExchanges = Some s'
      ∧ (length (responsesFor "r1" (emitted s')) ≤ 1)%nat
      ∧ (length (responsesFor "r2" (emitted s')) ≤ 1)%nat
      ∧ (length (responsesFor "r3" (emitted s')) ≤ 1)%nat.
Proof.
  assert (NoDup (requestIdOf <$> demoExchanges)) as Hnd
    by (by apply (bool_decide_unpack _)).
  split; [exact Hnd|].
  destruct (response_event_once_per_request_id demoIsFunctionResponse
              demoExchanges demoChat Hnd) as [Hsome Hone].
  - intros e _. reflexivity.
  - intros rid. simpl. lia.
  - destruct Hsome as [s' Hrun].
    + reflexivity.
    + constructor; [|constructor; [|constructor; [|constructor]]].
      * split; [reflexivity|]. split; [exact I|]. intros c [= <-].
        by right.
      * split; [reflexivity|].
        constructor; [|constructor; [|constructor]];
          intros c [= <-]; by right.
      * split; [reflexivity|exact I].
    + exists s'. split; [exact Hrun|].
      destruct (Hone s' Hrun) as (Hle & _ & _).
      split; [apply Hle|]. split; apply Hle.
Defined.

(** C1 as stated fails: the response-logging path records no correlation
    id (after an exchange that logged its response the set of logged ids is
    still empty), and an id presented to it twice, usage metadata present
    both times, is logged twice. *)
Lemma logApiResponse_records_no_id :
  (λ r : GeminiChat * (GenerateContentResponse + Thrown),
     (responsesFor "r1" (emitted r.1), loggedResponses r.1))
    <$> sendMessage demoIsFunctionResponse demoChat (userTurn "hi") "p1"
          "r1" 100 350
          (mkRun demoConfig
             (inl (responseOf (modelTurn "hello") (Some demoUsage))))
  = Some ([ApiResponseEvent "qwen3-coder-plus" 250 "p1" "r1"
             (Some "qwen-oauth") demoUsage "text_response"], [])
  ∧ responsesFor "r1"
      (emitted
         (_logApiResponse
            (_logApiResponse demoChat 10 "p1" "r1" (Some demoUsage)
               (ParsedArray []))
            12 "p1" "r1" (Some demoUsage) (ParsedArray [])))
    = [ApiResponseEvent "qwen3-coder-plus" 10 "p1" "r1" (Some "qwen-oauth")
         demoUsage "error";
       ApiResponseEvent "qwen3-coder-plus" 12 "p1" "r1" (Some "qwen-oauth")
         demoUsage "error"].
Proof. split; reflexivity. Qed.

(** ** The accessors of the history bypass validation *)

Section AccessorFacts.
Context (isFunctionResponse : Content → bool).

(** X13.  [addHistory] and [setHistory] do not validate what they store. After a
    content with a role other than user and model has been added, the
    comprehensive history is still returned, but the curation loop never gets
    past that entry, whatever its fuel: [getHistory(true)] and every
    [sendMessage] hang, although the constructor refuses the very same history.
    [clearHistory] makes the session usable again. *)
Theorem addHistory_unknown_role_blocks_curation s c :
  isUser c = false → isModel c = false →
  getHistory (addHistory s c) false = Some (history s ++ [c])
  ∧ getHistory (addHistory s c) true = None
  ∧ getHistory (setHistory s (history s ++ [c])) true = None
  ∧ (∀ fuel curated,
       curateLoop isUser isModel isValidContent fuel
         (history (addHistory s c)) curated = None)
  ∧ (∀ u p r t0 t1 run,
       sendMessage isFunctionResponse (addHistory s c) u p r t0 t1 run = None)
  ∧ (∀ cfg generationConfig,
       ∃ msg, newGeminiChat cfg generationConfig (history s ++ [c]) = inl msg)
  ∧ getHistory (clearHistory (addHistory s c)) true = Some [].
Proof.
  intros Hu Hm.
  assert (forallb (knownRole isUser isModel) (history s ++ [c]) = false)
    as Hk.
  { rewrite forallb_app. simpl. unfold knownRole at 2. rewrite Hu, Hm.
    apply andb_false_r. }
  assert (extractCuratedHistory (history s ++ [c]) = None) as Hcur
    by (by apply curate_diverges).
  split; [done|]. split; [done|]. split; [done|]. split; [|split; [|split]].
  - intros fuel curated. by apply curateLoop_diverges.
  - intros u p r t0 t1 run. unfold sendMessage, sendMessage_request, getHistory.
    simpl history. by rewrite Hcur.
  - intros cfg gc. unfold newGeminiChat.
    destruct (validateHistory (history s ++ [c])) as [msg|[]] eqn:E.
    + by exists msg.
    + apply validateHistory_knownRole in E. congruence.
  - done.
Qed.
End AccessorFacts.

Lemma addHistory_unknown_role_blocks_curation_witness :
  getHistory (addHistory demoChat (mkContent (Some "system") None)) true
  = None.
Proof.
  exact (proj1 (proj2 (addHistory_unknown_role_blocks_curation
                         demoIsFunctionResponse demoChat
                         (mkContent (Some "system") None) eq_refl eq_refl))).
Defined.
(** ** The request classifier *)

Lemma prefix_spec (a s : string) :
  String.prefix a s = true ↔ ∃ post, s = a +:+ post.
Proof.
  revert s. induction a as [|x a IH]; intros s.
  - split; [|by destruct s]. intros _. by exists s.
  - destruct s as [|y s]; simpl.
    + split; [done|]. by intros [post ?].
    + destruct (Ascii.ascii_dec x y) as [->|Hne].
      * rewrite IH. split; intros [post Hp]; exists post.
        -- by rewrite Hp.
        -- by injection Hp.
      * split; [done|]. intros [post Hp]. by injection Hp.
Qed.

(** [includes] finds exactly the texts in which the needle occurs. *)
Lemma includes_spec needle s :
  includes needle s = true ↔ occursIn needle s.
Proof.
  unfold occursIn. induction s as [|y s IH]; cbn [includes].
  - rewrite orb_false_r, prefix_spec. split.
    + intros [post Hp]. by exists "", post.
    + intros (pre & post & Hp). destruct pre; [by exists post|done].
  - rewrite orb_true_iff, IH, prefix_spec. split.
    + intros [[post Hp]|(pre & post & Hp)].
      * by exists "", post.
      * exists (String y pre), post. by rewrite Hp.
    + intros (pre & post & Hp). destruct pre as [|z pre].
      * left. by exists post.
      * right. injection Hp as _ Hp. by exists pre, post.
Qed.

Lemma partsOf_app a b : partsOf (a ++ b) = partsOf a ++ partsOf b.
Proof. unfold partsOf. by rewrite flat_map_app. Qed.

Lemma foldl_add_parts (f : Part → Z) acc ps :
  foldl (λ n p, n + f p)%Z acc ps
  = (acc + foldr (λ p n, f p + n) 0 ps)%Z.
Proof.
  revert acc. induction ps as [|p ps IH]; intros acc; simpl; [lia|].
  rewrite IH. lia.
Qed.

Lemma foldr_add_app (f : Part → Z) ps qs :
  foldr (λ p n, f p + n)%Z 0%Z (ps ++ qs)
  = (foldr (λ p n, f p + n) 0 ps + foldr (λ p n, f p + n) 0 qs)%Z.
Proof. induction ps as [|p ps IH]; simpl; [done|]. rewrite IH. lia. Qed.

Lemma estimateTokens_parts contents :
  _estimateTokens contents
  = foldr (λ p n, textLength p + n)%Z 0%Z (partsOf contents).
Proof.
  unfold _estimateTokens.
  assert (∀ acc,
            foldl (λ tokenCount c,
                     match parts c with
                     | Some ps => foldl (λ n p, n + textLength p)%Z
                                    tokenCount ps
                     | None => tokenCount
                     end) acc contents
            = (acc + foldr (λ p n, textLength p + n) 0 (partsOf contents))%Z)
    as H; [|by rewrite H].
  induction contents as [|c contents IH]; intros acc; simpl; [lia|].
  rewrite IH. unfold partsOf at 2. cbn [flat_map].
  fold (partsOf contents). rewrite foldr_add_app.
  destruct (parts c) as [ps|]; simpl; [|lia].
  rewrite foldl_add_parts. lia.
Qed.

Lemma ceilDiv4_bounds n : (0 ≤ n → n ≤ 4 * ceilDiv n 4 ≤ n + 3)%Z.
Proof.
  intros Hn. unfold ceilDiv.
  pose proof (Z.div_mod (n + 4 - 1) 4 ltac:(lia)).
  pose proof (Z.mod_pos_bound (n + 4 - 1) 4 ltac:(lia)). lia.
Qed.

(** X14.  [_estimateTokens] counts every text part on its own, a quarter of its
    length rounded up: the estimate of two lists of contents put together is the
    sum of their estimates, and four times the estimate lies between the number
    of characters of all texts and that number plus three for every text that is
    not empty. *)
Theorem estimateTokens_additive_and_bounded a b :
  _estimateTokens (a ++ b) = (_estimateTokens a + _estimateTokens b)%Z
  ∧ (textChars a ≤ 4 * _estimateTokens a ≤ textChars a + 3 * textCount a)%Z.
Proof.
  rewrite !estimateTokens_parts, partsOf_app, foldr_add_app.
  split; [done|]. unfold textChars, textCount.
  induction (partsOf a) as [|p ps IH]; [simpl; lia|].
  cbn [foldr List.filter].
  set (chars :=
         foldr (λ p n, Z.of_nat (String.length (orEmpty (text p))) + n)%Z
           0%Z ps) in *.
  set (est := foldr (λ p n, textLength p + n)%Z 0%Z ps) in *.
  set (kept := List.filter _ ps) in *.
  unfold textLength. destruct (text p) as [t|]; simpl orEmpty.
  - destruct (truthyString (Some t)) eqn:E.
    + pose proof (ceilDiv4_bounds (Z.of_nat (String.length t)) ltac:(lia)).
      cbn [length]. lia.
    + unfold truthyString in E. apply negb_false_iff in E.
      apply bool_decide_eq_true in E. subst t. simpl String.length. lia.
  - simpl. lia.
Qed.

Lemma occursIn_nonempty m t : m ≠ "" → occursIn m t → t ≠ "".
Proof.
  intros Hm (pre & post & ->). destruct pre; [|done].
  by destruct m.
Qed.

(** ** Tool prediction by keywords *)

Lemma whenAny_elem needles t name (tool : string) :
  tool ∈ whenAny needles t name
  ↔ tool = name ∧ ∃ k, k ∈ needles ∧ occursIn k t.
Proof.
  unfold whenAny. destruct (existsb _ needles) eqn:E.
  - apply existsb_exists in E as (k & Hk & Hin).
    rewrite list_elem_of_singleton. split; [|by intros [? _]].
    intros ->. split; [done|]. exists k.
    split; [by apply list_elem_of_In|by apply includes_spec].
  - split; [by intros ?%elem_of_nil|]. intros (_ & k & Hk & Hocc).
    apply includes_spec in Hocc.
    assert (existsb (λ needle, includes needle t) needles = true) as E'.
    { apply existsb_exists. exists k. by rewrite <- list_elem_of_In. }
    congruence.
Qed.

Local Ltac inList :=
  repeat first [apply list_elem_of_here | apply list_elem_of_further].

Local Ltac tableRow :=
  (apply list_elem_of_here) + (apply list_elem_of_further; tableRow).

Local Ltac pickTool k :=
  first [ by (split; [reflexivity|exists k])
        | left; by (split; [reflexivity|exists k])
        | right; pickTool k ].

Lemma toolsOfText_elem t (tool : string) :
  tool ∈ toolsOfText t
  ↔ ∃ kws k, (tool, kws) ∈ toolKeywords ∧ k ∈ kws ∧ occursIn k t.
Proof.
  unfold toolsOfText, toolKeywords.
  rewrite !elem_of_app, !whenAny_elem. split.
  - intros H.
    repeat (destruct H as [(-> & k & Hk & Hocc)|H];
            [eexists _, k; split; [inList|done]|]).
    destruct H as (-> & k & Hk & Hocc). eexists _, k. split; [inList|done].
  - intros (kws & k & Hin & Hk & Hocc).
    rewrite !elem_of_cons, elem_of_nil in Hin.
    repeat (destruct Hin as [[= -> ->]|Hin]; [pickTool k|]). done.
Qed.

Lemma keywords_table k :
  k ∈ keywords ↔ ∃ tool kws, (tool, kws) ∈ toolKeywords ∧ k ∈ kws.
Proof.
  unfold keywords, toolKeywords. split.
  - intros H. rewrite !elem_of_cons, elem_of_nil in H.
    repeat (destruct H as [->|H];
            [eexists _, _; (split; [tableRow|]); solve [inList]|]).
    done.
  - intros (tool & kws & Hin & Hk).
    rewrite !elem_of_cons, elem_of_nil in Hin.
    repeat (destruct Hin as [[= -> ->]|Hin];
            [rewrite !elem_of_cons, elem_of_nil in Hk;
             rewrite !elem_of_cons, elem_of_nil; tauto|]).
    done.
Qed.

Lemma extractToolsCalled_elem u (tool : string) :
  isUser u = true →
  tool ∈ _extractToolsCalled [u]
  ↔ ∃ ps part t, parts u = Some ps ∧ part ∈ ps ∧ text part = Some t
                 ∧ t ≠ "" ∧ tool ∈ toolsOfText (toLowerCase t).
Proof.
  intros Hu. unfold _extractToolsCalled, potentialTools.
  assert (latestUserContent [u] = Some u) as ->
    by (by apply (latestUserContent_last [] u [])).
  rewrite setFrom_elem.
  destruct (parts u) as [ps|].
  - rewrite list_elem_of_In, in_flat_map. split.
    + intros [(part & Hin & Ht)|Hn]; [|by apply elem_of_nil in Hn].
      apply list_elem_of_In, toolsOfPart_elem in Ht as (t & ? & ? & ?).
      exists ps, part, t. by rewrite list_elem_of_In.
    + intros (ps' & part & t & [= <-] & Hin & Ht & Hne & Htool).
      left. exists part. rewrite <- !list_elem_of_In. split; [done|].
      apply toolsOfPart_elem. by exists t.
  - split.
    + intros [Hn|Hn]; by apply elem_of_nil in Hn.
    + by intros (ps' & part & t & ? & _).
Qed.

Lemma keyword_nonempty tool kws k :
  (tool, kws) ∈ toolKeywords → k ∈ kws → k ≠ "".
Proof.
  intros Hin Hk ->. unfold toolKeywords in Hin.
  rewrite !elem_of_cons, elem_of_nil in Hin.
  repeat (destruct Hin as [[= -> ->]|Hin];
          [rewrite !elem_of_cons, elem_of_nil in Hk;
           repeat (destruct Hk as [?|Hk]; [done|]); done|]).
  done.
Qed.

Lemma occursIn_toLowerCase_nonempty k t :
  k ≠ "" → occursIn k (toLowerCase t) → t ≠ "".
Proof.
  intros Hk Hocc ->. by apply (occursIn_nonempty k "" Hk).
Qed.

(** C8, with the test of the source.  Tool prediction reads the most recent
    user turn of the outgoing contents and nothing else: contents that end
    in a user turn [u] followed by non-user turns give what [u] alone gives,
    whatever comes before, and contents without a user turn give no tool.
    The result has no duplicate and holds exactly the tools one of whose
    keywords occurs, as a run of consecutive characters, in the lowered text
    of a part of that turn; it is empty exactly when no keyword occurs in
    any of these texts.  The text "read @notes.md" gives ["read_file"], and
    "hello, how are you" gives []. *)
Theorem extractToolsCalled_latest_user_turn :
  (∀ pre u post,
      isUser u = true → (∀ c, In c post → isUser c = false) →
      _extractToolsCalled (pre ++ u :: post) = _extractToolsCalled [u])
  ∧ (∀ contents,
      (∀ c, In c contents → isUser c = false) →
      _extractToolsCalled contents = [])
  ∧ (∀ contents, NoDup (_extractToolsCalled contents))
  ∧ (∀ u tool,
      isUser u = true →
      tool ∈ _extractToolsCalled [u]
      ↔ ∃ ps part t kws k,
          parts u = Some ps ∧ part ∈ ps ∧ text part = Some t
          ∧ (tool, kws) ∈ toolKeywords ∧ k ∈ kws
          ∧ occursIn k (toLowerCase t))
  ∧ (∀ u,
      isUser u = true →
      _extractToolsCalled [u] = []
      ↔ ∀ ps part t k,
          parts u = Some ps → part ∈ ps → text part = Some t →
          k ∈ keywords → ¬ occursIn k (toLowerCase t))
  ∧ _extractToolsCalled [userTurn "read @notes.md"] = ["read_file"]
  ∧ _extractToolsCalled [userTurn "hello, how are you"] = [].
Proof.
  assert (∀ u tool,
            isUser u = true →
            tool ∈ _extractToolsCalled [u]
            ↔ ∃ ps part t kws k,
                parts u = Some ps ∧ part ∈ ps ∧ text part = Some t
                ∧ (tool, kws) ∈ toolKeywords ∧ k ∈ kws
                ∧ occursIn k (toLowerCase t)) as Helem.
  { intros u tool Hu. rewrite extractToolsCalled_elem by done. split.
    - intros (ps & part & t & Hps & Hin & Ht & _ & Htool).
      apply toolsOfText_elem in Htool as (kws & k & Hrow & Hk & Hocc).
      by exists ps, part, t, kws, k.
    - intros (ps & part & t & kws & k & Hps & Hin & Ht & Hrow & Hk & Hocc).
      exists ps, part, t. split; [done|]. split; [done|]. split; [done|].
      split.
      + eapply occursIn_toLowerCase_nonempty; [|done].
        by eapply keyword_nonempty.
      + apply toolsOfText_elem. by exists kws, k. }
  split; [|split; [|split; [|split; [|split; [|split]]]]].
  - intros pre u post Hu Hpost. unfold _extractToolsCalled, potentialTools.
    rewrite latestUserContent_last by done.
    assert (latestUserContent [u] = Some u) as ->
      by (by apply (latestUserContent_last [] u [])).
    done.
  - intros contents Hc. unfold _extractToolsCalled, potentialTools.
    by rewrite latestUserContent_none.
  - intros contents. apply setFrom_NoDup, NoDup_nil_2.
  - exact Helem.
  - intros u Hu. split.
    + intros Hnil ps part t k Hps Hin Ht Hk Hocc.
      apply keywords_table in Hk as (tool & kws & Hrow & Hk).
      assert (tool ∈ _extractToolsCalled [u]) as Htool.
      { apply Helem; [done|]. by exists ps, part, t, kws, k. }
      rewrite Hnil in Htool. by apply elem_of_nil in Htool.
    + intros Hnone. destruct (_extractToolsCalled [u]) as [|tool l] eqn:E;
        [done|].
      assert (tool ∈ _extractToolsCalled [u]) as Htool
        by (rewrite E; apply list_elem_of_here).
      apply Helem in Htool
        as (ps & part & t & kws & k & Hps & Hin & Ht & Hrow & Hk & Hocc);
        [|done].
      destruct (Hnone ps part t k Hps Hin Ht); [|done].
      apply keywords_table. by exists tool, kws.
  - reflexivity.
  - reflexivity.
Qed.

Lemma extractToolsCalled_latest_user_turn_witness :
  isUser (userTurn "hello, how are you") = true
  ∧ _extractToolsCalled
      [userTurn "write the file and save it"; modelTurn "done";
       userTurn "hello, how are you"; modelTurn "fine"]
    = _extractToolsCalled [userTurn "hello, how are you"].
Proof.
  split; [reflexivity|].
  apply (proj1 extractToolsCalled_latest_user_turn
           [userTurn "write the file and save it"; modelTurn "done"]
           (userTurn "hello, how are you") [modelTurn "fine"] eq_refl).
  intros c [<-|[]]. reflexivity.
Defined.

(** C8 as stated fails on conversational text that holds a keyword inside a
    word: "else" and "also" hold "ls", the keyword of list_directory. *)
Lemma extractToolsCalled_chat_text_gives_tool :
  _extractToolsCalled [userTurn "what else can you do?"] = ["list_directory"]
  ∧ _extractToolsCalled [userTurn "thanks, that also works"]
    = ["list_directory"]
  ∧ includes "ls" (toLowerCase "what else can you do?") = true.
Proof. repeat split; reflexivity. Qed.

(** X15.  [_hasFileContext] answers whether one of its six markers occurs,
    letter case as it is, in the text of some part; it is false on no contents,
    and on two lists of contents put together it is true when it is on one of
    them, so contents added to a request never take the flag away. *)
Theorem hasFileContext_iff_marker_occurs :
  (∀ contents,
     _hasFileContext contents = true
     ↔ ∃ p t m, p ∈ partsOf contents ∧ text p = Some t ∧ m ∈ fileMarkers
                ∧ occursIn m t)
  ∧ (∀ a b, _hasFileContext (a ++ b) = _hasFileContext a || _hasFileContext b)
  ∧ _hasFileContext [] = false.
Proof.
  split; [|split; [|done]].
  - intros contents. unfold _hasFileContext, partsOf.
    rewrite existsb_exists. split.
    + intros (c & Hc & H). destruct (parts c) as [ps|] eqn:Eps; [|done].
      apply existsb_exists in H as (p & Hp & H).
      destruct (text p) as [t|] eqn:Et; [|done].
      apply andb_true_iff in H as [_ H].
      apply existsb_exists in H as (m & Hm & H).
      exists p, t, m. split; [|split; [done|split]].
      * apply list_elem_of_In, in_flat_map. exists c. split; [done|].
        by rewrite Eps.
      * by apply list_elem_of_In.
      * by apply includes_spec.
    + intros (p & t & m & Hp & Et & Hm & Hocc).
      apply list_elem_of_In, in_flat_map in Hp as (c & Hc & Hp).
      exists c. split; [done|]. destruct (parts c) as [ps|]; [|done].
      apply existsb_exists. exists p. split; [done|]. rewrite Et.
      apply andb_true_iff. split.
      * unfold truthyString. apply negb_true_iff, bool_decide_eq_false.
        apply (occursIn_nonempty m); [|done].
        intros ->. unfold fileMarkers in Hm.
        rewrite !elem_of_cons, elem_of_nil in Hm.
        by destruct Hm as [?|[?|[?|[?|[?|[?|[]]]]]]].
      * apply existsb_exists. exists m. split; [by apply list_elem_of_In|].
        by apply includes_spec.
  - intros a b. unfold _hasFileContext. by rewrite existsb_app.
Qed.

(** X16.  [_detectOperationType] has three answers only: "tool_call" exactly
    when some content of role model has a part with a function call (one in a
    user content does not count), "unknown" exactly on no contents, and "chat"
    in every other case. *)
Theorem detectOperationType_cases contents :
  (_detectOperationType contents = "tool_call"
   ↔ ∃ c ps part, c ∈ contents ∧ isModel c = true ∧ parts c = Some ps
                  ∧ part ∈ ps ∧ is_Some (functionCall part))
  ∧ (_detectOperationType contents = "unknown" ↔ contents = [])
  ∧ (_detectOperationType contents = "tool_call"
     ∨ _detectOperationType contents = "chat"
     ∨ _detectOperationType contents = "unknown").
Proof.
  unfold _detectOperationType.
  set (called := existsb _ contents).
  assert (called = true
          ↔ ∃ c ps part, c ∈ contents ∧ isModel c = true ∧ parts c = Some ps
                         ∧ part ∈ ps ∧ is_Some (functionCall part)) as Hc.
  { subst called. rewrite existsb_exists. split.
    - intros (c & Hin & [Hm H]%andb_true_iff).
      destruct (parts c) as [ps|] eqn:Eps; [|done].
      apply existsb_exists in H as (part & Hp & H).
      exists c, ps, part. rewrite <- !list_elem_of_In in *.
      repeat split; try done. by destruct (functionCall part).
    - intros (c & ps & part & Hin & Hm & Eps & Hp & [f Hf]).
      exists c. rewrite <- list_elem_of_In. split; [done|].
      rewrite Hm, Eps. simpl. apply existsb_exists. exists part.
      rewrite <- list_elem_of_In. by rewrite Hf. }
  destruct called.
  - split; [|split; [|by left]].
    + split; [intros _; by apply Hc|done].
    + split; [done|]. intros ->. destruct Hc as [Hc _].
      destruct (Hc eq_refl) as (c & _ & _ & Hin & _).
      by apply elem_of_nil in Hin.
  - split; [|split].
    + split; [|intros H; by apply Hc in H].
      by repeat case_bool_decide.
    + destruct contents as [|c [|d contents]]; simpl; try done.
    + repeat case_bool_decide; auto.
Qed.

(** X17.  [_determineRequestContext]: "tool_result" exactly when the last
    content is a user content with a function-response part, whatever comes
    before it; otherwise "continuation" for more than one content and "new" for
    one or none. *)
Theorem determineRequestContext_cases contents :
  (_determineRequestContext contents = "tool_result"
   ↔ ∃ pre lastContent ps part,
       contents = pre ++ [lastContent] ∧ isUser lastContent = true
       ∧ parts lastContent = Some ps ∧ part ∈ ps
       ∧ is_Some (functionResponse part))
  ∧ (_determineRequestContext contents = "continuation"
     → (1 < length contents)%nat)
  ∧ (_determineRequestContext contents = "new" → (length contents ≤ 1)%nat)
  ∧ (_determineRequestContext contents = "tool_result"
     ∨ _determineRequestContext contents = "continuation"
     ∨ _determineRequestContext contents = "new").
Proof.
  unfold _determineRequestContext.
  destruct (last contents) as [lastContent|] eqn:Hl.
  - apply last_Some in Hl as [pre ->].
    set (result := isUser lastContent && _).
    assert (result = true
            ↔ isUser lastContent = true
              ∧ ∃ ps part, parts lastContent = Some ps ∧ part ∈ ps
                           ∧ is_Some (functionResponse part)) as Hr.
    { subst result. rewrite andb_true_iff.
      split; intros [Hu H]; (split; [done|]).
      - destruct (parts lastContent) as [ps|]; [|done].
        apply existsb_exists in H as (part & Hp & H).
        exists ps, part. rewrite <- list_elem_of_In in Hp.
        repeat split; try done. by destruct (functionResponse part).
      - destruct H as (ps & part & -> & Hp & [f Hf]).
        apply existsb_exists. exists part. rewrite <- list_elem_of_In.
        by rewrite Hf. }
    destruct result.
    + split; [|split; [done|split; [done|by left]]].
      split; [intros _|done]. destruct Hr as [Hr _].
      destruct (Hr eq_refl) as (Hu & ps & part & ? & ? & ?).
      by exists pre, lastContent, ps, part.
    + split; [|split; [|split]].
      * split; [by case_bool_decide|].
        intros (pre' & l' & ps & part & Heq & Hu & Hps & Hp & Hf).
        apply app_inj_tail in Heq as [_ <-].
        destruct Hr as [_ Hr]. discriminate Hr. split; [done|].
        by exists ps, part.
      * case_bool_decide; [done|]. done.
      * case_bool_decide; [done|]. intros _. lia.
      * case_bool_decide; auto.
  - apply last_None in Hl as ->.
    split; [|split; [done|split; [simpl; lia|by right; right]]].
    split; [done|]. intros (pre & l & ? & ? & Heq & _).
    by destruct pre.
Qed.

Lemma joinedText_length ps :
  Z.of_nat (String.length (foldr (λ p acc, orEmpty (text p) +:+ acc) "" ps))
  = foldr (λ p n, Z.of_nat (String.length (orEmpty (text p))) + n)%Z 0%Z ps.
Proof.
  induction ps as [|p ps IH]; [done|]. cbn [foldr].
  rewrite string_length_app. lia.
Qed.

(** X18.  [_getSystemPromptLength] is the number of characters of the system
    instruction: none when there is no instruction, the length of the string
    when it is one, the lengths of the texts of the parts added up when it has
    parts (a part without text counts for nothing), and the length of the text
    when it is a text object. *)
Theorem getSystemPromptLength_counts_text :
  _getSystemPromptLength None = 0%Z
  ∧ (∀ s, _getSystemPromptLength (Some (InstructionString s))
          = Z.of_nat (String.length s))
  ∧ (∀ ps, _getSystemPromptLength (Some (InstructionParts (Some ps)))
           = textChars [mkContent None (Some ps)])
  ∧ (∀ t, _getSystemPromptLength (Some (InstructionText (Some t)))
          = Z.of_nat (String.length t))
  ∧ (∀ instruction, (0 ≤ _getSystemPromptLength instruction)%Z).
Proof.
  split; [done|]. split; [by intros []|]. split; [|split; [done|]].
  - intros ps. unfold _getSystemPromptLength, textChars, partsOf.
    cbn [flat_map parts default from_option id]. rewrite app_nil_r.
    apply joinedText_length.
  - intros [[[|c s]|ps|t|]|]; simpl; lia.
Qed.

Lemma candidateHas_offers (f : Part → bool) (P : Part → Prop) r cs :
  (∀ p, f p = true ↔ P p) → candidates r = Some cs →
  existsb (candidateHas f) cs = true ↔ offersPart P r.
Proof.
  intros HfP Hcs. unfold offersPart. rewrite existsb_exists. split.
  - intros (c & Hc & H). unfold candidateHas in H.
    destruct (content c) as [ct|] eqn:Ect; [|done].
    destruct (parts ct) as [ps|] eqn:Eps; [|done].
    apply existsb_exists in H as (p & Hp & H).
    exists cs, c, ct, ps, p. rewrite <- !list_elem_of_In in *.
    repeat split; try done. by apply HfP.
  - intros (cs' & c & ct & ps & p & Hcs' & Hc & Ect & Eps & Hp & H).
    rewrite Hcs in Hcs'. injection Hcs' as <-.
    exists c. rewrite <- list_elem_of_In. split; [done|].
    unfold candidateHas. rewrite Ect, Eps. apply existsb_exists.
    exists p. rewrite <- list_elem_of_In. split; [done|]. by apply HfP.
Qed.

(** X19.  [_detectResponseType] on what the session passes to it. The collected
    chunks of a stream are an array, for which the answer is "error" whatever
    the chunks hold. For a response it is "mixed" when some candidate has a
    function call and some candidate a text that is not empty, "tool_call" and
    "text_response" when only the one or the other is there, and "error" when
    neither is. *)
Theorem detectResponseType_cases :
  (∀ chunks, _detectResponseType (ParsedArray chunks) = "error")
  ∧ ∀ r,
      let t := _detectResponseType (ParsedObject r) in
      (t = "mixed" ↔ offersPart isCallPart r ∧ offersPart isTextPart r)
      ∧ (t = "tool_call"
         ↔ offersPart isCallPart r ∧ ¬ offersPart isTextPart r)
      ∧ (t = "text_response"
         ↔ ¬ offersPart isCallPart r ∧ offersPart isTextPart r)
      ∧ (t = "error"
         ↔ ¬ offersPart isCallPart r ∧ ¬ offersPart isTextPart r).
Proof.
  split; [done|]. intros r t. subst t. unfold _detectResponseType.
  destruct (candidates r) as [cs|] eqn:Hcs.
  - pose proof (candidateHas_offers (λ p, truthyObj (functionCall p))
                  isCallPart r cs) as Hcall.
    pose proof (candidateHas_offers (λ p, truthyString (text p))
                  isTextPart r cs) as Htext.
    assert (∀ p, truthyObj (functionCall p) = true ↔ isCallPart p) as Hf.
    { intros p. unfold isCallPart. destruct (functionCall p); simpl.
      - split; [by eexists|done].
      - split; [done|]. by intros [? ?]. }
    assert (∀ p, truthyString (text p) = true ↔ isTextPart p) as Hg.
    { intros p. unfold isTextPart, truthyString.
      destruct (text p) as [t|]; simpl.
      - rewrite negb_true_iff, bool_decide_eq_false. split.
        + intros Hne. by exists t.
        + by intros (t' & [= <-] & Hne).
      - split; [done|]. by intros (? & ? & _). }
    specialize (Hcall Hf Hcs). specialize (Htext Hg Hcs).
    destruct (existsb (candidateHas (λ p, truthyObj (functionCall p))) cs),
      (existsb (candidateHas (λ p, truthyString (text p))) cs);
      cbn [andb]; intuition (try done; try congruence).
  - assert (∀ P, ¬ offersPart P r) as Hno.
    { intros P (cs & ? & ? & ? & ? & Hcs' & _). congruence. }
    repeat split; try done; try (intros [? ?]); try (by apply Hno);
      exfalso; by eapply Hno.
Qed.

Lemma extractCuratedHistory_kept h c :
  extractCuratedHistory h = Some c →
  Forall (λ x, isUser x = true
               ∨ (isModel x = true ∧ isValidContent x = true)) c.
Proof.
  intros Hc. unfold extractCuratedHistory in Hc.
  rewrite (curate_loop _ _ _ (S (length h))) in Hc by lia.
  apply curateLoop_keeps in Hc; [|done].
  apply Forall_forall. intros x Hx.
  rewrite forallb_forall in Hc. apply list_elem_of_In, Hc in Hx.
  unfold keeps in Hx. destruct (isUser x); [by left|right].
  by apply andb_true_iff in Hx.
Qed.

(** X20.  The request of [sendMessage] is built from the curated history, not
    from the stored one: what goes to the model, and into the request event, is
    the curated history followed by the new message, so no invalid model turn is
    ever sent again. The event is emitted before the transport is invoked and
    leaves the history alone; its turn number is half the number of contents,
    rounded up, and for a user message the tools it names are those of that
    message alone. *)
Theorem sendMessage_request_sends_curated_history s u p r :
  validateHistory (history s) = inr () →
  ∃ curated s',
    extractCuratedHistory (history s) = Some curated
    ∧ sendMessage_request s u p r = Some (s', curated ++ [u])
    ∧ Forall (λ c, isUser c = true
                   ∨ (isModel c = true ∧ isValidContent c = true)) curated
    ∧ history s' = history s
    ∧ emitted s'
      = emitted s
        ++ [ApiRequestEvent (getModel (chatConfig s)) p r (curated ++ [u])
              (_detectOperationType (curated ++ [u]))
              (_extractToolsCalled (curated ++ [u]))
              (_determineRequestContext (curated ++ [u]))
              (_estimateTokens (curated ++ [u]))
              (ceilDiv (Z.of_nat (length curated + 1)) 2)
              (_hasFileContext (curated ++ [u]))
              (_getSystemPromptLength (systemInstruction s))]
    ∧ (isUser u = true
       → _extractToolsCalled (curated ++ [u]) = _extractToolsCalled [u]).
Proof.
  intros Hh. destruct (extractCuratedHistory_total _ Hh) as [curated Hc].
  exists curated. eexists. split; [done|].
  unfold sendMessage_request, getHistory. rewrite Hc.
  cbn [mbind option_bind]. split; [done|].
  split; [by eapply extractCuratedHistory_kept|]. split; [done|].
  split.
  - simpl. by rewrite length_app.
  - intros Hu. unfold _extractToolsCalled, potentialTools.
    rewrite (latestUserContent_last curated u []) by done.
    pose proof (latestUserContent_last [] u [] Hu) as H1.
    simpl in H1. rewrite H1; [done|]. by intros c [].
Qed.
(** ** The log writer over its life *)

Section LogWriterLife.
Context (safeJsonStringify : LogEntry → string) (toISOString : Z → string).

(** The two outcomes of the roll check. *)
Lemma checkAndRollFile_cases lg fs line d :
  (checkAndRollFile lg fs line d = lg
   ∧ ∀ stats, fs !! currentLogFilePath lg = Some stats →
              (fsize stats + byteLength line ≤ maxFileSize)%N)
  ∨ (∃ stats, fs !! currentLogFilePath lg = Some stats
              ∧ (maxFileSize < fsize stats + byteLength line)%N
              ∧ checkAndRollFile lg fs line d
                = setPath (setRoll lg (S (currentRollNumber lg)))
                    (generateLogFilePath
                       (setRoll lg (S (currentRollNumber lg))) d)).
Proof.
  unfold checkAndRollFile. destruct (fs !! currentLogFilePath lg) as [stats|].
  - case_bool_decide as E.
    + right. by exists stats.
    + left. split; [done|]. intros ? [= <-]. lia.
  - by left.
Qed.


Lemma rolledPast_roll lg d old :
  pathInSync lg →
  old = currentLogFilePath lg ∨ rolledPast lg old →
  rolledPast
    (setPath (setRoll lg (S (currentRollNumber lg)))
       (generateLogFilePath (setRoll lg (S (currentRollNumber lg))) d)) old.
Proof.
  intros (d0 & Hd0 & Hp) [->|(lg0 & d1 & Hd1 & -> & Hdir & Hsid & Hlt)].
  - exists lg, d0. simpl. repeat split; try done. lia.
  - exists lg0, d1. simpl. repeat split; try done. lia.
Qed.

Lemma not_rolled_to lg d p :
  pathInSync lg → isDateStr d →
  p = currentLogFilePath lg ∨ rolledPast lg p →
  p ≠ generateLogFilePath (setRoll lg (S (currentRollNumber lg))) d.
Proof.
  intros (d0 & Hd0 & Hp) Hd [->|(lg0 & d1 & Hd1 & -> & Hdir & Hsid & Hlt)]
    He.
  - rewrite Hp in He. apply generateLogFilePath_roll in He; try done.
    simpl in He. lia.
  - apply generateLogFilePath_roll in He; try done. simpl in He. lia.
Qed.

(** One call keeps the directory as [writtenBy] describes it. *)
Lemma logEvent_writtenBy lg fs event d :
  pathInSync lg → isDateStr d → writtenBy lg fs →
  let r := logEvent safeJsonStringify toISOString lg fs event d in
  pathInSync r.1 ∧ writtenBy r.1 r.2.
Proof.
  intros Hs Hd Hw r. split; [by apply logEvent_inSync|].
  subst r. unfold logEvent.
  destruct (getTelemetryEnabled (config lg)); [|done]. cbn [negb fst snd].
  set (line := logLineOf safeJsonStringify toISOString lg event).
  destruct (checkAndRollFile_cases lg fs line d)
    as [[-> Hle]|(stats & Hf & Hgt & ->)].
  - intros p f Hpf.
    destruct (decide (p = currentLogFilePath lg)) as [->|Hne].
    + rewrite appendFileSync_same in Hpf. injection Hpf as <-.
      split; [|by left]. unfold withinCap. cbn [fsize appended].
      destruct (fs !! currentLogFilePath lg) as [stats|] eqn:Hf.
      * cbn [default from_option id]. destruct (Hw _ _ Hf) as [Hc _].
        left. by apply Hle.
      * right. simpl. lia.
    + rewrite appendFileSync_other in Hpf by done. by apply Hw.
  - set (lg1 := setRoll lg (S (currentRollNumber lg))).
    cbn [currentLogFilePath setPath].
    intros p f Hpf.
    destruct (decide (p = generateLogFilePath lg1 d)) as [->|Hne].
    + rewrite appendFileSync_same in Hpf. injection Hpf as <-.
      split; [|by left]. unfold withinCap. cbn [fsize appended]. right.
      destruct (fs !! generateLogFilePath lg1 d) as [f2|] eqn:Hf2;
        cbn [default from_option id]; [|simpl; lia].
      destruct (Hw _ _ Hf2) as [_ Hwho].
      destruct (appended f2) as [|l ls] eqn:Ha; [simpl; lia|].
      exfalso. eapply (not_rolled_to lg d); [done|done| |done].
      by apply Hwho.
    + rewrite appendFileSync_other in Hpf by done.
      destruct (Hw _ _ Hpf) as [Hc Hwho]. split; [done|].
      intros Ha. right. apply rolledPast_roll; [done|]. by apply Hwho.
Qed.

Lemma logEvents_writtenBy calls lg fs :
  pathInSync lg → writtenBy lg fs →
  Forall (λ call, isDateStr call.2) calls →
  let r := logEvents safeJsonStringify toISOString lg fs calls in
  pathInSync r.1 ∧ writtenBy r.1 r.2.
Proof.
  revert lg fs. induction calls as [|[event d] calls IH];
    intros lg fs Hs Hw Hd; [done|].
  apply Forall_cons in Hd as [Hd Hds]. simpl in Hd.
  destruct (logEvent_writtenBy lg fs event d Hs Hd Hw) as [Hs' Hw'].
  simpl. destruct (logEvent _ _ lg fs event d) as [lg' fs'].
  by apply IH.
Qed.

(** X22.  The cap over the life of a logger. Start from a new logger and a
    directory none of whose files this process has written to; after any number
    of calls of [logEvent], every file to which two or more lines were appended
    is within the cap of 10 MiB. (A file can be above the cap only by the first
    line put into it: a line longer than the cap, or a line added to a file that
    was already there when a roll arrived at its name.) *)
Theorem logEvents_respect_cap cfg cwd student machine d0 fs0 calls p f :
  isDateStr d0 → Forall (λ call, isDateStr call.2) calls →
  (∀ p f, fs0 !! p = Some f → appended f = []) →
  (logEvents safeJsonStringify toISOString
     (newLogger cfg cwd student machine d0) fs0 calls).2 !! p = Some f →
  (fsize f ≤ maxFileSize)%N ∨ (length (appended f) ≤ 1)%nat.
Proof.
  intros Hd0 Hds Hfs0 Hpf.
  destruct (logEvents_writtenBy calls (newLogger cfg cwd student machine d0)
              fs0) as [_ Hw]; [by apply newLogger_inSync| |done|].
  { intros q g Hq. rewrite (Hfs0 _ _ Hq). unfold withinCap.
    split; [right; rewrite (Hfs0 _ _ Hq); simpl; lia|done]. }
  by destruct (Hw _ _ Hpf) as [Hc _].
Qed.
End LogWriterLife.
Lemma linesWritten_append fs p data :
  linesWritten (appendFileSync fs p data) = S (linesWritten fs).
Proof.
  unfold linesWritten, appendFileSync.
  destruct (fs !! p) as [f|] eqn:Hf; cbn [default from_option id].
  - rewrite <- insert_delete_eq.
    rewrite map_to_list_insert by apply lookup_delete_eq.
    rewrite <- (map_to_list_delete fs p f Hf). simpl.
    rewrite length_app. simpl. lia.
  - rewrite map_to_list_insert by done. done.
Qed.

Section LogWriterCount.
Context (safeJsonStringify : LogEntry → string) (toISOString : Z → string).

End LogWriterCount.

(** ** [path.join] on the paths of the logger *)

Example pathJoinPosix_samples :
  pathJoinPosix "/home/dev" "logs" = "/home/dev/logs"
  ∧ pathJoinPosix "/" "logs" = "/logs"
  ∧ pathJoinPosix "/home/dev/logs" "2025-08-11-a/../b.jsonl"
    = "/home/dev/logs/b.jsonl"
  ∧ pathJoinPosix "/home//dev/./x/.." "logs" = "/home/dev/logs"
  ∧ pathJoinPosix "a/../.." "b/" = "../b/"
  ∧ pathJoinPosix "" "" = "."
  ∧ pathJoinPosix "/.." "" = "/".
Proof. repeat split; reflexivity. Qed.

(** A string without separator is one segment. *)
Lemma segments_nonempty path : segments path ≠ [].
Proof.
  destruct path as [|c rest]; [done|]. simpl.
  destruct (isSeparator c); [done|]. by destruct (segments rest).
Qed.

Lemma includes_separator c rest :
  includes "/" (String c rest) = isSeparator c || includes "/" rest.
Proof.
  cbn [includes String.prefix]. unfold isSeparator.
  destruct (Ascii.ascii_dec "/" c) as [<-|Hne].
  - by destruct rest.
  - by rewrite (bool_decide_eq_false_2 (c = "/"%char)) by done.
Qed.

Lemma segments_one name : includes "/" name = false → segments name = [name].
Proof.
  induction name as [|c rest IH]; [done|].
  rewrite includes_separator. intros [Hc Hrest]%orb_false_iff.
  simpl. rewrite Hc, IH by done. done.
Qed.

Lemma segments_app a b :
  segments (a +:+ "/" +:+ b) = segments a ++ segments b.
Proof.
  induction a as [|c a IH]; [done|].
  change (String c a +:+ "/" +:+ b) with (String c (a +:+ "/" +:+ b)).
  cbn [segments]. rewrite IH. destruct (isSeparator c); [done|].
  pose proof (segments_nonempty a). by destruct (segments a).
Qed.

Lemma includes_app_separator a b :
  includes "/" (a +:+ b) = includes "/" a || includes "/" b.
Proof.
  induction a as [|c a IH].
  - change ("" +:+ b) with b. by destruct b.
  - change (String c a +:+ b) with (String c (a +:+ b)).
    by rewrite !includes_separator, IH, orb_assoc.
Qed.

Lemma normalizeStep_plain allow res seg :
  plainSegment seg → normalizeStep allow res seg = res ++ [seg].
Proof.
  intros (_ & H1 & H2 & H3). unfold normalizeStep.
  by rewrite !bool_decide_eq_false_2 by done.
Qed.

Lemma normalize_plain allow res segs :
  Forall plainSegment segs →
  foldl (normalizeStep allow) res segs = res ++ segs.
Proof.
  revert res. induction segs as [|seg segs IH]; intros res Hall.
  - by rewrite app_nil_r.
  - apply Forall_cons in Hall as [Hseg Hall]. cbn [foldl].
    rewrite normalizeStep_plain, IH by done. by rewrite <- app_assoc.
Qed.

Lemma segments_no_separator path :
  Forall (λ seg, includes "/" seg = false) (segments path).
Proof.
  induction path as [|c rest IH]; [by repeat constructor|].
  cbn [segments]. destruct (isSeparator c) eqn:Hc.
  - by constructor.
  - pose proof (segments_nonempty rest).
    destruct (segments rest) as [|seg segs]; [done|].
    apply Forall_cons in IH as [Hseg Hsegs]. constructor; [|done].
    by rewrite includes_separator, Hc, Hseg.
Qed.

(** What [normalizeString] returns for an absolute path: plain segments. *)
Lemma normalizeStep_keeps_plain res seg :
  includes "/" seg = false → Forall plainSegment res →
  Forall plainSegment (normalizeStep false res seg).
Proof.
  intros Hseg Hres. unfold normalizeStep.
  case_bool_decide as E1; [done|]. case_bool_decide as E2; [done|].
  cbn [orb]. case_bool_decide as E3.
  - destruct (last res) as [l|] eqn:Hl; [|by constructor].
    case_bool_decide; [done|].
    apply last_Some in Hl as [init ->]. rewrite removelast_last.
    by apply Forall_app in Hres as [? _].
  - apply Forall_app. split; [done|]. by apply Forall_singleton.
Qed.

Lemma normalize_keeps_plain res segs :
  Forall (λ seg, includes "/" seg = false) segs → Forall plainSegment res →
  Forall plainSegment (foldl (normalizeStep false) res segs).
Proof.
  revert res. induction segs as [|seg segs IH]; intros res Hsegs Hres;
    [done|].
  apply Forall_cons in Hsegs as [Hseg Hsegs]. cbn [foldl].
  apply IH; [done|]. by apply normalizeStep_keeps_plain.
Qed.

Lemma segments_joinSegments segs :
  segs ≠ [] → Forall plainSegment segs → segments (joinSegments segs) = segs.
Proof.
  induction segs as [|seg segs IH]; [done|]. intros _ Hall.
  apply Forall_cons in Hall as [(Hseg & _) Hall].
  destruct segs as [|seg' segs].
  - by apply segments_one.
  - change (joinSegments (seg :: seg' :: segs))
      with (seg +:+ "/" +:+ joinSegments (seg' :: segs)).
    rewrite segments_app, segments_one, IH by done. done.
Qed.

Lemma joinSegments_snoc segs seg :
  segs ≠ [] → joinSegments (segs ++ [seg]) = joinSegments segs +:+ "/" +:+ seg.
Proof.
  induction segs as [|a segs IH]; [done|]. intros _.
  destruct segs as [|b segs]; [done|].
  change (joinSegments ((a :: b :: segs) ++ [seg]))
    with (a +:+ "/" +:+ joinSegments ((b :: segs) ++ [seg])).
  rewrite IH by done.
  change (joinSegments (a :: b :: segs))
    with (a +:+ "/" +:+ joinSegments (b :: segs)).
  by rewrite !string_app_assoc.
Qed.

Lemma endsWithSeparator_app a b :
  b ≠ "" → endsWithSeparator (a +:+ b) = endsWithSeparator b.
Proof.
  intros Hb. induction a as [|c a IH]; [done|].
  change (String c a +:+ b) with (String c (a +:+ b)).
  cbn [endsWithSeparator]. rewrite IH.
  destruct (a +:+ b) eqn:E; [|done].
  destruct a; [|done]. by destruct b.
Qed.

Lemma endsWithSeparator_plain seg :
  includes "/" seg = false → endsWithSeparator seg = false.
Proof.
  induction seg as [|c rest IH]; [done|].
  rewrite includes_separator. intros [Hc Hrest]%orb_false_iff.
  cbn [endsWithSeparator]. destruct rest; [done|]. by apply IH.
Qed.

Lemma pathJoinPosix_absolute cwd name :
  startsWithSeparator cwd = true → plainSegment name →
  ∃ segs, pathJoinPosix cwd name = "/" +:+ joinSegments (segs ++ [name])
          ∧ Forall plainSegment segs.
Proof.
  intros Hcwd Hname. pose proof Hname as (Hsep & Hne & _).
  unfold pathJoinPosix.
  rewrite (bool_decide_eq_false_2 (cwd = "")) by (by destruct cwd).
  rewrite (bool_decide_eq_false_2 (name = "")) by done.
  unfold normalize.
  rewrite bool_decide_eq_false_2 by (by destruct cwd).
  assert (startsWithSeparator (cwd +:+ "/" +:+ name) = true) as ->
    by (by destruct cwd).
  rewrite (endsWithSeparator_app cwd ("/" +:+ name)) by done.
  rewrite (endsWithSeparator_app "/" name) by done.
  rewrite endsWithSeparator_plain by done.
  unfold normalizeString. cbn [negb].
  rewrite segments_app, (segments_one name), foldl_app by done.
  cbn [foldl].
  rewrite normalizeStep_plain by done.
  set (segs := foldl (normalizeStep false) [] (segments cwd)).
  exists segs. split.
  - destruct (segs ++ [name]) eqn:E; [by destruct segs|].
    by rewrite string_app_nil_r.
  - apply normalize_keeps_plain; [apply segments_no_separator|done].
Qed.

(** Joining a plain name to a normal absolute directory puts a separator and
    the name after it. *)
Lemma pathJoinPosix_normal dir name :
  normalAbsolute dir → plainSegment name →
  pathJoinPosix dir name = pathJoin dir name.
Proof.
  intros (segs & Hne & Hsegs & ->) Hname.
  pose proof Hname as (Hsep & Hne' & _).
  unfold pathJoinPosix, pathJoin.
  rewrite (bool_decide_eq_false_2 (("/" +:+ joinSegments segs) = ""))
    by done.
  rewrite (bool_decide_eq_false_2 (name = "")) by done.
  unfold normalize. rewrite bool_decide_eq_false_2 by done.
  assert (startsWithSeparator (("/" +:+ joinSegments segs) +:+ "/" +:+ name)
          = true) as -> by done.
  rewrite (endsWithSeparator_app ("/" +:+ joinSegments segs) ("/" +:+ name))
    by done.
  rewrite (endsWithSeparator_app "/" name) by done.
  rewrite endsWithSeparator_plain by done.
  unfold normalizeString. cbn [negb].
  rewrite segments_app, (segments_one name) by done.
  change ("/" +:+ joinSegments segs) with ("" +:+ "/" +:+ joinSegments segs).
  rewrite segments_app, segments_joinSegments by done.
  cbn [segments app foldl]. unfold normalizeStep at 2. cbn [bool_decide orb].
  rewrite bool_decide_eq_true_2 by done. cbn [orb].
  rewrite normalize_plain.
  2:{ apply Forall_app. split; [done|]. by apply Forall_singleton. }
  cbn [app]. destruct (segs ++ [name]) eqn:E; [by destruct segs|].
  rewrite <- E, string_app_nil_r, joinSegments_snoc by done.
  by rewrite !string_app_assoc.
Qed.

Lemma pathJoinPosix_logs_normal cwd :
  startsWithSeparator cwd = true → normalAbsolute (pathJoinPosix cwd "logs").
Proof.
  intros Hcwd.
  destruct (pathJoinPosix_absolute cwd "logs" Hcwd) as (segs & -> & Hsegs);
    [done|].
  exists (segs ++ ["logs"]). split; [by destruct segs|]. split; [|done].
  apply Forall_app. split; [done|]. by apply Forall_singleton.
Qed.

Lemma pretty_N_go_no_separator x s :
  includes "/" s = false → includes "/" (pretty_N_go x s) = false.
Proof.
  revert s. induction (N.lt_wf_0 x) as [x _ IH]; intros s Hs.
  assert (x = 0 ∨ 0 < x)%N as [->|?] by lia.
  - by rewrite pretty_N_go_0.
  - rewrite pretty_N_go_step by done. apply IH.
    { by apply N.div_lt. }
    rewrite includes_separator, Hs, orb_false_r.
    unfold pretty_N_char. by repeat case_match.
Qed.

Lemma rollSuffix_no_separator n : includes "/" (rollSuffix n) = false.
Proof.
  unfold rollSuffix. case_bool_decide; [|done].
  rewrite includes_app_separator. cbn [orb].
  change (includes "/" "-") with false. cbn [orb].
  unfold pretty, pretty_nat, pretty, pretty_N.
  case_decide; [done|]. by apply pretty_N_go_no_separator.
Qed.

Lemma not_occursIn_includes needle s :
  ¬ occursIn needle s → includes needle s = false.
Proof.
  intros Hno. destruct (includes needle s) eqn:E; [|done].
  by apply includes_spec in E.
Qed.

Lemma logFileName_plain d sessionId n :
  ¬ occursIn "/" d → ¬ occursIn "/" (String.substring 0 8 sessionId) →
  plainSegment (logFileName d sessionId n).
Proof.
  intros Hd%not_occursIn_includes Hs%not_occursIn_includes.
  assert (2 < String.length (logFileName d sessionId n))%nat as Hlen.
  { unfold logFileName. rewrite !string_length_app. simpl. lia. }
  split; [|by repeat split; intros E; rewrite E in Hlen; simpl in Hlen; lia].
  unfold logFileName.
  by rewrite !includes_app_separator, Hd, Hs, rollSuffix_no_separator.
Qed.

(** X24.  File names, for a logger whose directory is the one the constructor
    made ([path.join] of an absolute working directory and [logs]), dates
    without a separator and session ids whose first eight characters hold no
    separator.  What [path.join] makes of the directory and the file name is
    the directory, a separator and the file name: its normalisation changes
    nothing, so [generateLogFilePath] is that path.  The path ends in
    [.jsonl] and holds the date, the first eight characters of the session
    id and, from the first roll on, the roll number.  For one directory and
    one session, paths made for different roll numbers differ, on whatever
    dates they are made; with the same roll number, sessions whose ids agree
    on their first eight characters share the path. *)
Theorem generateLogFilePath_names lg lg' cwd d d' :
  startsWithSeparator cwd = true →
  logDir lg = pathJoinPosix cwd "logs" → logDir lg' = logDir lg →
  ¬ occursIn "/" d → ¬ occursIn "/" d' →
  ¬ occursIn "/" (String.substring 0 8 (getSessionId (config lg))) →
  ¬ occursIn "/" (String.substring 0 8 (getSessionId (config lg'))) →
  let joined l e :=
    pathJoinPosix (logDir l)
      (logFileName e (getSessionId (config l)) (currentRollNumber l)) in
  joined lg d = generateLogFilePath lg d
  ∧ joined lg' d' = generateLogFilePath lg' d'
  ∧ (∃ name, joined lg d
             = logDir lg +:+ "/" +:+ d +:+ "-" +:+ name +:+ ".jsonl")
  ∧ (currentRollNumber lg = 0 →
     joined lg d
     = logDir lg +:+ "/" +:+ d +:+ "-"
       +:+ String.substring 0 8 (getSessionId (config lg)) +:+ ".jsonl")
  ∧ (getSessionId (config lg) = getSessionId (config lg') →
     isDateStr d → isDateStr d' →
     joined lg d = joined lg' d' →
     currentRollNumber lg = currentRollNumber lg')
  ∧ (String.substring 0 8 (getSessionId (config lg))
     = String.substring 0 8 (getSessionId (config lg')) →
     currentRollNumber lg = currentRollNumber lg' →
     joined lg d = joined lg' d).
Proof.
  intros Hcwd Hdir Hdir' Hd Hd' Hs Hs' joined.
  assert (normalAbsolute (logDir lg)) as Hnormal
    by (rewrite Hdir; by apply pathJoinPosix_logs_normal).
  assert (∀ l e, logDir l = logDir lg → ¬ occursIn "/" e →
            ¬ occursIn "/" (String.substring 0 8 (getSessionId (config l))) →
            joined l e = generateLogFilePath l e) as Hjoin.
  { intros l e Hl He Hsl. subst joined. cbn beta.
    unfold generateLogFilePath. apply pathJoinPosix_normal.
    - by rewrite Hl.
    - by apply logFileName_plain. }
  split; [by apply Hjoin|]. split; [by apply Hjoin|].
  rewrite !Hjoin by done.
  split; [|split; [|split]].
  - unfold generateLogFilePath, logFileName, pathJoin.
    exists (String.substring 0 8 (getSessionId (config lg))
            +:+ rollSuffix (currentRollNumber lg)).
    by rewrite string_app_assoc.
  - intros Hr. unfold generateLogFilePath, logFileName, pathJoin.
    by rewrite Hr.
  - intros Hsame Hdate Hdate' He. by apply (generateLogFilePath_roll lg lg' d d').
  - intros Hsame Hr. unfold generateLogFilePath, logFileName.
    by rewrite Hdir', Hsame, Hr.
Qed.
(** ** Retrying and falling back *)

Lemma matches5xx_spec s :
  matches5xx s = true
  ↔ ∃ a b, isDigit a = true ∧ isDigit b = true
           ∧ occursIn (String "5" (String a (String b ""))) s.
Proof.
  unfold occursIn. induction s as [|c s IH]; cbn [matches5xx].
  - split; [done|]. intros (a & b & _ & _ & pre & post & H).
    by destruct pre.
  - rewrite orb_true_iff, IH. split.
    + intros [H|(a & b & Ha & Hb & pre & post & ->)].
      * apply andb_true_iff in H as [Hc H].
        apply bool_decide_eq_true in Hc as ->.
        destruct s as [|a [|b post]]; try done.
        apply andb_true_iff in H as [Ha Hb].
        by exists a, b; repeat split; try done; exists "", post.
      * exists a, b. repeat split; try done. by exists (String c pre), post.
    + intros (a & b & Ha & Hb & pre & post & H).
      destruct pre as [|c' pre].
      * left. injection H as -> ->. rewrite bool_decide_eq_true_2 by done.
        change (true && (isDigit a && isDigit b) = true). by rewrite Ha, Hb.
      * right. injection H as _ ->. exists a, b.
        repeat split; try done. by exists pre, post.
Qed.

(** X25.  [shouldRetry] answers yes exactly for an error whose message holds
    "429" or, anywhere in it, a 5 followed by two digits: a status code from 500
    to 599, and just as well any longer number or word with such digits in it.
    An error without a message is not retried. *)
Theorem shouldRetry_iff message :
  shouldRetry message = true
  ↔ ∃ m, message = Some m
         ∧ (occursIn "429" m
            ∨ ∃ a b, isDigit a = true ∧ isDigit b = true
                     ∧ occursIn (String "5" (String a (String b ""))) m).
Proof.
  unfold shouldRetry. destruct message as [m|].
  2: { split; [done|]. by intros (? & ? & _). }
  destruct (truthyString (Some m)) eqn:Hm.
  - destruct (includes "429" m) eqn:H429.
    + split; [intros _|done]. exists m. split; [done|]. left.
      by apply includes_spec.
    + destruct (matches5xx m) eqn:H5.
      * split; [intros _|done]. exists m. split; [done|]. right.
        by apply matches5xx_spec.
      * split; [done|]. intros (m' & [= <-] & [H|H]).
        -- apply includes_spec in H. congruence.
        -- apply matches5xx_spec in H. congruence.
  - unfold truthyString in Hm. apply negb_false_iff in Hm.
    apply bool_decide_eq_true in Hm as ->.
    split; [done|]. intros (m' & [= <-] & [H|(a & b & _ & _ & H)]).
    + by apply occursIn_nonempty in H.
    + by apply occursIn_nonempty in H.
Qed.

Section ApiCallFacts.
Context (DEFAULT_GEMINI_FLASH_MODEL : string).

(** X26.  [apiCall]. After a quota error the generator is never called with the
    Flash model: the call throws instead, and in [sendMessage] an empty model
    name counts as the Flash model, while [sendMessageStream] hands an empty
    name on as it is. Whenever the generator is called it gets the request
    contents and the two ids unchanged, and a configuration in which every key
    of the call's own configuration overrides the same key of the session's. *)
Theorem apiCall_quota_guard cfg generationConfig paramsConfig
    requestContents prompt_id requestId :
  let send :=
    sendMessage_apiCall DEFAULT_GEMINI_FLASH_MODEL cfg generationConfig
      paramsConfig requestContents prompt_id requestId in
  let stream :=
    sendMessageStream_apiCall DEFAULT_GEMINI_FLASH_MODEL cfg generationConfig
      paramsConfig requestContents prompt_id requestId in
  (∀ call params p r,
     call = send ∨ call = stream → call = inr (params, p, r) →
     contents params = requestContents ∧ p = prompt_id ∧ r = requestId
     ∧ (getQuotaErrorOccurred cfg = true
        → model params ≠ DEFAULT_GEMINI_FLASH_MODEL)
     ∧ ∀ key, requestConfig params !! key
              = match paramsConfig !! key with
                | Some v => Some v
                | None => generationConfig !! key
                end)
  ∧ (getQuotaErrorOccurred cfg = true →
     getModel cfg = DEFAULT_GEMINI_FLASH_MODEL ∨ getModel cfg = "" →
     send = inl (ErrorObject "Error" quotaErrorMessage))
  ∧ (getQuotaErrorOccurred cfg = true →
     getModel cfg = DEFAULT_GEMINI_FLASH_MODEL →
     stream = inl (ErrorObject "Error" quotaErrorMessage))
  ∧ (getModel cfg = "" → DEFAULT_GEMINI_FLASH_MODEL ≠ "" →
     ∃ params, stream = inr (params, prompt_id, requestId)
               ∧ model params = "")
  ∧ (getQuotaErrorOccurred cfg = false →
     ∃ params params',
       send = inr (params, prompt_id, requestId)
       ∧ stream = inr (params', prompt_id, requestId)
       ∧ model params' = getModel cfg
       ∧ model params = if bool_decide (getModel cfg = "")
                        then DEFAULT_GEMINI_FLASH_MODEL else getModel cfg).
Proof.
  intros send stream. subst send stream.
  unfold sendMessage_apiCall, sendMessageStream_apiCall, truthyString.
  assert (∀ key, spread generationConfig paramsConfig !! key
                 = match paramsConfig !! key with
                   | Some v => Some v
                   | None => generationConfig !! key
                   end) as Hspread.
  { intros key. unfold spread. rewrite lookup_union.
    destruct (paramsConfig !! key), (generationConfig !! key); done. }
  split; [|split; [|split; [|split]]].
  - intros call params p r [-> | ->] Hcall.
    + destruct (getQuotaErrorOccurred cfg); cbn [andb] in Hcall.
      * case_bool_decide as E; [done|]. injection Hcall as <- <- <-.
        repeat split; try done.
      * injection Hcall as <- <- <-. repeat split; try done.
    + destruct (getQuotaErrorOccurred cfg); cbn [andb] in Hcall.
      * case_bool_decide as E; [done|]. injection Hcall as <- <- <-.
        repeat split; try done.
      * injection Hcall as <- <- <-. repeat split; try done.
  - intros -> [-> | ->]; cbn [andb].
    + by destruct (negb (bool_decide (DEFAULT_GEMINI_FLASH_MODEL = "")));
        rewrite bool_decide_eq_true_2.
    + by rewrite (bool_decide_eq_true_2 ("" = "")),
        bool_decide_eq_true_2.
  - intros -> ->. cbn [andb]. by rewrite bool_decide_eq_true_2.
  - intros -> Hne. rewrite (bool_decide_eq_false_2 ("" = _)) by done.
    rewrite andb_false_r. by eexists.
  - intros ->. cbn [andb]. eexists _, _. repeat split.
    cbn [model]. by destruct (bool_decide (getModel cfg = "")).
Qed.
End ApiCallFacts.

Section FlashFallbackFacts.
Context (QWEN_OAUTH LOGIN_WITH_GOOGLE DEFAULT_GEMINI_FLASH_MODEL : string).
Context (setModel : Config → string → Config).
Context (setFallbackMode : Config → bool → Config).

Lemma handleQwenOAuthError_null error : (handleQwenOAuthError error).2 = None.
Proof.
  unfold handleQwenOAuthError. destruct error as [e|]; [|done].
  destruct (_ || _ || _ || _ || _ || _ || _ || _); [done|].
  by destruct (_ || _ || _ || _).
Qed.

(** X27.  [handleFlashFallback] switches the model in one case only: the
    authentication is the Google login, the current model is not the Flash model
    already, a fallback handler is installed, and the handler resolved to
    something other than [false] and [null]; then it sets the Flash model and
    the fallback mode on the configuration as the handler left it, and returns
    the Flash model. In every other case it returns [null] and changes nothing
    itself; with Qwen OAuth, with any other authentication, and when the Flash
    model is in use already, the handler is not even called. *)
Theorem handleFlashFallback_switches_only_when_accepted cfg handler authType
    error :
  let r :=
    handleFlashFallback QWEN_OAUTH LOGIN_WITH_GOOGLE
      DEFAULT_GEMINI_FLASH_MODEL setModel setFallbackMode cfg handler
      authType error in
  (∀ m, r.2 = Some m →
        m = DEFAULT_GEMINI_FLASH_MODEL
        ∧ authType = Some LOGIN_WITH_GOOGLE ∧ authType ≠ Some QWEN_OAUTH
        ∧ getModel cfg ≠ DEFAULT_GEMINI_FLASH_MODEL
        ∧ ∃ h cfg',
            handler = Some h
            ∧ h (getModel cfg) DEFAULT_GEMINI_FLASH_MODEL error cfg
              = (cfg', inl AcceptedOther)
            ∧ r.1.1
              = setFallbackMode (setModel cfg' DEFAULT_GEMINI_FLASH_MODEL)
                  true)
  ∧ (authType = Some QWEN_OAUTH ∨ authType ≠ Some LOGIN_WITH_GOOGLE
     ∨ getModel cfg = DEFAULT_GEMINI_FLASH_MODEL ∨ handler = None →
     r.1.1 = cfg ∧ r.2 = None)
  ∧ (r.2 = None →
     r.1.1 = cfg
     ∨ ∃ h outcome,
         handler = Some h
         ∧ h (getModel cfg) DEFAULT_GEMINI_FLASH_MODEL error cfg
           = (r.1.1, outcome)
         ∧ outcome ≠ inl AcceptedOther).
Proof.
  intros r. subst r. unfold handleFlashFallback.
  pose proof (handleQwenOAuthError_null error) as Hq.
  destruct (handleQwenOAuthError error) as [lines result].
  simpl in Hq. subst result.
  case_bool_decide as Eq; cbn [fst snd].
  { split; [done|]. split; [done|]. by left. }
  case_bool_decide as Eg; cbn [negb fst snd].
  2: { split; [done|]. split; [done|]. by left. }
  case_bool_decide as Em; cbn [fst snd].
  { split; [done|]. split; [done|]. by left. }
  destruct handler as [h|]; cbn [fst snd].
  2: { split; [done|]. split; [done|]. by left. }
  destruct (h (getModel cfg) DEFAULT_GEMINI_FLASH_MODEL error cfg)
    as [cfg' [[| |]|thrownByHandler]] eqn:Eh; cbn [fst snd].
  - split; [done|]. split; [by intros [?|[?|[?|?]]]|].
    intros _. right. by exists h, (inl AcceptedFalse).
  - split; [done|]. split; [by intros [?|[?|[?|?]]]|].
    intros _. right. by exists h, (inl AcceptedNull).
  - split; [|split; [by intros [?|[?|[?|?]]]|done]].
    intros m [= <-]. repeat split; try done. by exists h, cfg'.
  - split; [done|]. split; [by intros [?|[?|[?|?]]]|].
    intros _. right. by exists h, (inr thrownByHandler).
Qed.
End FlashFallbackFacts.
(** ** No call of [sendMessage] ever waits *)

Section NeverWaits.
Context (isFunctionResponse : Content → bool).

(** X28.  In every state the event loop can get to, whatever calls are in flight
    and wherever they stand, the promise in [this.sendPromise] has settled. A
    new call of [sendMessage] is therefore ready to go on at once: it is put on
    the microtask queue by the call itself, and when its turn comes it builds
    and logs its request (provided the curation of the history ends) without
    regard to the other calls. *)
Theorem sendMessage_never_waits l :
  reachableLoop isFunctionResponse l →
  sendPromise l = Settled
  ∧ (∀ u p r,
       microtasks (callSendMessage l u p r)
       = microtasks l ++ [length (calls l)]
       ∧ calls (callSendMessage l u p r) !! length (calls l)
         = Some (AtSendPromise u p r))
  ∧ (∀ c u p r,
       calls l !! c = Some (AtSendPromise u p r) →
       validateHistory (history (chat l)) = inr () →
       calls (resume isFunctionResponse l c) !! c
       = Some (AtLogRequest u p r)).
Proof.
  intros Hl.
  assert (sendPromise l = Settled) as Hs.
  { induction Hl as [s|l u p r _ IH|l _ IH|l c run t _ IH]; [done|..];
      by apply (sendPromise_stays_settled isFunctionResponse l IH). }
  split; [done|]. split.
  - intros u p r. unfold callSendMessage. rewrite Hs. cbn.
    split; [done|]. by rewrite lookup_app_r, Nat.sub_diag by lia.
  - intros c u p r Hc Hh.
    destruct (extractCuratedHistory_total _ Hh) as [curated Hcur].
    destruct (sendMessage_request_spec (chat l) u p r curated Hcur)
      as (request & Hreq & _).
    rewrite (resume_request isFunctionResponse l c u p r _ _ Hc Hreq).
    cbn [calls]. apply list_lookup_insert_eq.
    by apply lookup_lt_Some in Hc.
Qed.
End NeverWaits.

Lemma sendMessage_never_waits_witness :
  let l := callSendMessage (newLoop demoChat) (userTurn "one") "p1" "r1" in
  sendPromise l = Settled
  ∧ microtasks (callSendMessage l (userTurn "two") "p2" "r2") = [0; 1].
Proof.
  intros l.
  destruct (sendMessage_never_waits demoIsFunctionResponse l) as (H1 & H2 & _).
  { subst l. apply reachable_call, reachable_new. }
  split; [exact H1|]. exact (proj1 (H2 (userTurn "two") "p2" "r2")).
Defined.
(** ** The properties above on sample inputs *)

Lemma recordHistory_appends_after_user_input_witness :
  isUser (userTurn "q") = true
  ∧ ∃ out,
      recordHistory demoIsFunctionResponse [userTurn "a"; modelTurn "b"]
        (userTurn "q") [modelTurn "x"] None
      = Some ([userTurn "a"; modelTurn "b"] ++ userTurn "q" :: out)
      ∧ out = [modelTurn "x"].
Proof.
  split; [reflexivity|].
  destruct (recordHistory_appends_after_user_input demoIsFunctionResponse
              [userTurn "a"; modelTurn "b"] (userTurn "q") [modelTurn "x"]
              None eq_refl (or_introl eq_refl))
    as (out & Hrec & _ & _ & _ & _ & Hone).
  exists out. split; [exact Hrec|].
  exact (Hone (modelTurn "x") eq_refl eq_refl).
Defined.

Lemma recordHistory_stores_curated_afc_witness :
  validateHistory [userTurn "q"; modelTurn "x"] = inr ()
  ∧ ∃ curated out,
      extractCuratedHistory [userTurn "q"; modelTurn "x"] = Some curated
      ∧ recordHistory demoIsFunctionResponse [userTurn "a"] (userTurn "q")
          [modelTurn "y"] (Some [userTurn "q"; modelTurn "x"])
        = Some ([userTurn "a"] ++ curated ++ out)
      ∧ out = [modelTurn "y"].
Proof.
  split; [reflexivity|].
  destruct (recordHistory_stores_curated_afc demoIsFunctionResponse
              [userTurn "a"] (userTurn "q") [modelTurn "y"]
              [userTurn "q"; modelTurn "x"] ltac:(discriminate) eq_refl)
    as (curated & out & Hc & Hrec & _ & _ & _ & _ & Hone).
  exists curated, out. split; [exact Hc|]. split; [exact Hrec|].
  exact (Hone (modelTurn "y") eq_refl eq_refl).
Defined.

Lemma sendMessage_records_exchange_witness :
  validateHistory (history demoChat) = inr ()
  ∧ isUser (userTurn "hi") = true
  ∧ ∃ s',
      sendMessage demoIsFunctionResponse demoChat (userTurn "hi") "p1" "r1"
        100 350
        (mkRun demoConfig (inl (responseOf (modelTurn "hello") None)))
      = Some (s', inl (responseOf (modelTurn "hello") None))
      ∧ history s' = [userTurn "hi"; modelTurn "hello"].
Proof.
  split; [reflexivity|]. split; [reflexivity|].
  exact (sendMessage_records_exchange demoIsFunctionResponse demoChat
           (userTurn "hi") "p1" "r1" 100 350 demoConfig
           (responseOf (modelTurn "hello") None) eq_refl eq_refl eq_refl).
Defined.

Lemma sendMessage_invalid_answer_keeps_curated_history_witness :
  validateHistory [userTurn "a"; modelTurn "b"] = inr ()
  ∧ (∃ s',
      sendMessage demoIsFunctionResponse
        (withHistory demoChat [userTurn "a"; modelTurn "b"]) (userTurn "hi")
        "p1" "r1" 100 350
        (mkRun demoConfig (inl (responseOf (modelTurn "") None)))
      = Some (s', inl (responseOf (modelTurn "") None))
      ∧ history s'
        = [userTurn "a"; modelTurn "b"] ++ [userTurn "hi"; modelTurn ""]
      ∧ getHistory s' true = Some [userTurn "a"; modelTurn "b"])
  ∧ (∃ s',
      sendMessage demoIsFunctionResponse
        (withHistory demoChat [userTurn "a"; modelTurn "b"])
        (mkContent (Some "user") (Some [resultPart "ls"]))
        "p1" "r1" 100 350
        (mkRun demoConfig (inl (mkResponse None None None)))
      = Some (s', inl (mkResponse None None None))
      ∧ history s'
        = [userTurn "a"; modelTurn "b"]
          ++ [mkContent (Some "user") (Some [resultPart "ls"])]
      ∧ getHistory s' true
        = Some [userTurn "a"; modelTurn "b";
                mkContent (Some "user") (Some [resultPart "ls"])]).
Proof.
  split; [reflexivity|]. split.
  - exact (sendMessage_invalid_answer_keeps_curated_history
             demoIsFunctionResponse
             (withHistory demoChat [userTurn "a"; modelTurn "b"])
             (userTurn "hi") "p1" "r1" 100 350 demoConfig
             (responseOf (modelTurn "") None) eq_refl eq_refl eq_refl
             (conj eq_refl (conj eq_refl eq_refl))).
  - exact (sendMessage_invalid_answer_keeps_curated_history
             demoIsFunctionResponse
             (withHistory demoChat [userTurn "a"; modelTurn "b"])
             (mkContent (Some "user") (Some [resultPart "ls"]))
             "p1" "r1" 100 350 demoConfig
             (mkResponse None None None) eq_refl eq_refl eq_refl I).
Defined.

Lemma sendMessage_keeps_history_valid_witness :
  validateHistory (history demoChat) = inr ()
  ∧ ∃ s' result,
      sendMessage demoIsFunctionResponse demoChat (userTurn "hi") "p1" "r1"
        100 350
        (mkRun demoConfig (inl (responseOf (mkContent None None) None)))
      = Some (s', result)
      ∧ validateHistory (history s') = inr ().
Proof.
  split; [reflexivity|].
  destruct (sendMessage_keeps_history_valid demoIsFunctionResponse demoChat
              (userTurn "hi") "p1" "r1" 100 350
              (mkRun demoConfig (inl (responseOf (mkContent None None) None)))
              eq_refl eq_refl)
    as (s' & result & Hrun & Hvalid & _).
  { split; [exact I|]. intros c Hc. injection Hc as <-. by left. }
  exists s', result. split; [exact Hrun|exact Hvalid].
Defined.

Lemma stream_records_consolidated_chunks_witness :
  demoStreamStore !! 0 = Some (HistoryCell [])
  ∧ readContent demoStreamStore 1 = Some (userTurn "hi")
  ∧ ∃ h',
      streamRecordIn demoIsFunctionResponse demoStreamStore 0 1 [4; 7; 10]
      = Some h'
      ∧ readHistory h' 0
        = Some [userTurn "hi"; modelTurn "ab";
                mkContent (Some "model") (Some [callPart "ls"])].
Proof.
  split; [reflexivity|]. split; [reflexivity|].
  destruct (stream_records_consolidated_chunks demoIsFunctionResponse
              demoStreamStore 0 [] [] 1 (userTurn "hi") [4; 7; 10]
              [modelTurn "a"; modelTurn "b";
               mkContent (Some "model") (Some [callPart "ls"])])
    as (h' & out & Hrun & Hread & Hout & _).
  - reflexivity.
  - constructor.
  - reflexivity.
  - reflexivity.
  - repeat constructor.
  - split; by apply (bool_decide_unpack _).
  - exists h'. split; [exact Hrun|]. rewrite Hread, Hout. reflexivity.
Defined.

Lemma stream_joins_text_chunks_witness :
  demoStreamStore !! 0 = Some (HistoryCell [])
  ∧ readContent demoStreamStore 1 = Some (userTurn "hi")
  ∧ ∃ h',
      streamRecordIn demoIsFunctionResponse demoStreamStore 0 1 [4; 7]
      = Some h'
      ∧ readHistory h' 0 = Some [userTurn "hi"; modelTurn "ab"].
Proof.
  split; [reflexivity|]. split; [reflexivity|].
  apply (stream_joins_text_chunks demoIsFunctionResponse demoStreamStore 0
           [] [] 1 (userTurn "hi") [4; 7] ["a"; "b"]).
  - reflexivity.
  - constructor.
  - reflexivity.
  - reflexivity.
  - repeat constructor.
  - split; by apply (bool_decide_unpack _).
Defined.

Lemma sendMessageStream_failure_logs_error_keeps_history_witness :
  validateHistory [userTurn "a"; modelTurn "b"] = inr ()
  ∧ ∃ s',
      sendMessageStream demoIsFunctionResponse
        (withHistory demoChat [userTurn "a"; modelTurn "b"]) (userTurn "hi")
        "p1" "r1" 100 350
        (mkRun demoConfig
           (inl ([responseOf (modelTurn "par") (Some demoUsage)],
                 Some (ErrorObject "Error" "socket hang up"))))
      = Some (s', Some (ErrorObject "Error" "socket hang up"))
      ∧ history s' = [userTurn "a"; modelTurn "b"].
Proof.
  split; [reflexivity|].
  destruct (sendMessageStream_failure_logs_error_keeps_history
              demoIsFunctionResponse
              (withHistory demoChat [userTurn "a"; modelTurn "b"])
              (userTurn "hi") "p1" "r1" 100 350 demoConfig
              (ErrorObject "Error" "socket hang up")
              (inl ([responseOf (modelTurn "par") (Some demoUsage)],
                    Some (ErrorObject "Error" "socket hang up")))
              eq_refl (or_intror (ex_intro _ _ eq_refl)))
    as (s' & request & Hrun & Hhist & _).
  exists s'. split; [exact Hrun|exact Hhist].
Defined.

Lemma sendMessage_request_sends_curated_history_witness :
  validateHistory [userTurn "a"; emptyModelTurn; userTurn "b"] = inr ()
  ∧ ∃ curated s',
      extractCuratedHistory [userTurn "a"; emptyModelTurn; userTurn "b"]
      = Some curated
      ∧ sendMessage_request
          (withHistory demoChat [userTurn "a"; emptyModelTurn; userTurn "b"])
          (userTurn "c") "p1" "r1"
        = Some (s', curated ++ [userTurn "c"]).
Proof.
  split; [reflexivity|].
  destruct (sendMessage_request_sends_curated_history
              (withHistory demoChat
                 [userTurn "a"; emptyModelTurn; userTurn "b"])
              (userTurn "c") "p1" "r1" eq_refl)
    as (curated & s' & Hc & Hreq & _).
  exists curated, s'. split; [exact Hc|exact Hreq].
Defined.


Lemma logEvents_respect_cap_witness :
  isDateStr "2025-08-11"
  ∧ let r :=
      logEvents demoStringify demoISO (demoLogger demoConfig)
        (demoDir demoConfig 10485756)
        [(demoEvent, "2025-08-11"); (demoEvent, "2025-08-11");
         (demoEvent, "2025-08-12")] in
    r.2 !! "/home/dev/logs/2025-08-11-01234567.jsonl"
    = Some (mkFile 10485759 ["{}" +:+ newline])
    ∧ ((10485759 ≤ maxFileSize)%N
       ∨ (length ["{}" +:+ newline] ≤ 1)%nat).
Proof.
  split; [reflexivity|]. cbv zeta.
  assert ((logEvents demoStringify demoISO (demoLogger demoConfig)
             (demoDir demoConfig 10485756)
             [(demoEvent, "2025-08-11"); (demoEvent, "2025-08-11");
              (demoEvent, "2025-08-12")]).2
          !! "/home/dev/logs/2025-08-11-01234567.jsonl"
          = Some (mkFile 10485759 ["{}" +:+ newline])) as Hfile
    by (vm_compute; reflexivity).
  split; [exact Hfile|].
  exact (logEvents_respect_cap demoStringify demoISO demoConfig "/home/dev"
           "743a8f8b30e089da" "72d7bfe0e0f3480f" "2025-08-11"
           (demoDir demoConfig 10485756)
           [(demoEvent, "2025-08-11"); (demoEvent, "2025-08-11");
            (demoEvent, "2025-08-12")]
           "/home/dev/logs/2025-08-11-01234567.jsonl"
           (mkFile 10485759 ["{}" +:+ newline]) eq_refl
           ltac:(repeat constructor)
           ltac:(unfold demoDir;
                 intros p f [<- <-]%lookup_singleton_Some; reflexivity)
           Hfile).
Defined.


Lemma generateLogFilePath_names_witness :
  startsWithSeparator "/home/dev" = true
  ∧ logDir (demoLogger demoConfig) = pathJoinPosix "/home/dev" "logs"
  ∧ includes "/" "2025-08-11" = false
  ∧ pathJoinPosix (logDir (demoLogger demoConfig))
      (logFileName "2025-08-11" (getSessionId demoConfig) 0)
    = "/home/dev/logs" +:+ "/" +:+ "2025-08-11" +:+ "-" +:+ "01234567"
      +:+ ".jsonl".
Proof.
  split; [reflexivity|]. split; [reflexivity|]. split; [reflexivity|].
  assert (∀ s, includes "/" s = false → ¬ occursIn "/" s) as Hno.
  { intros s Hs Hocc%includes_spec. rewrite Hocc in Hs. discriminate Hs. }
  exact (proj1 (proj2 (proj2 (proj2
           (generateLogFilePath_names (demoLogger demoConfig)
              (setRoll (demoLogger demoConfig) 2) "/home/dev" "2025-08-11"
              "2025-08-12" eq_refl eq_refl eq_refl
              (Hno "2025-08-11" eq_refl) (Hno "2025-08-12" eq_refl)
              (Hno "01234567" eq_refl) (Hno "01234567" eq_refl)))))
           eq_refl).
Defined.

Lemma hasFileContext_iff_marker_occurs_witness :
  _hasFileContext [userTurn "see main.ts"] = true.
Proof.
  apply (proj1 hasFileContext_iff_marker_occurs [userTurn "see main.ts"]).
  exists (textPart "see main.ts"), "see main.ts", ".ts".
  split; [by apply list_elem_of_here|]. split; [reflexivity|].
  split; [unfold fileMarkers; by repeat constructor|].
  by exists "see main", "".
Defined.

Lemma detectOperationType_cases_witness :
  _detectOperationType
    [userTurn "a"; mkContent (Some "model") (Some [callPart "ls"])]
  = "tool_call".
Proof.
  apply (proj1 (detectOperationType_cases
                  [userTurn "a";
                   mkContent (Some "model") (Some [callPart "ls"])])).
  exists (mkContent (Some "model") (Some [callPart "ls"])), [callPart "ls"],
    (callPart "ls").
  split; [by repeat constructor|]. split; [reflexivity|].
  split; [reflexivity|]. split; [by constructor|by eexists].
Defined.

Lemma determineRequestContext_cases_witness :
  _determineRequestContext
    [userTurn "a"; modelTurn "b";
     mkContent (Some "user") (Some [resultPart "ls"])]
  = "tool_result".
Proof.
  apply (proj1 (determineRequestContext_cases
                  [userTurn "a"; modelTurn "b";
                   mkContent (Some "user") (Some [resultPart "ls"])])).
  exists [userTurn "a"; modelTurn "b"],
    (mkContent (Some "user") (Some [resultPart "ls"])), [resultPart "ls"],
    (resultPart "ls").
  split; [reflexivity|]. split; [reflexivity|]. split; [reflexivity|].
  split; [by constructor|by eexists].
Defined.

Lemma detectResponseType_cases_witness :
  _detectResponseType
    (ParsedObject
       (responseOf
          (mkContent (Some "model") (Some [textPart "a"; callPart "ls"]))
          None))
  = "mixed".
Proof.
  apply (proj2 detectResponseType_cases
           (responseOf
              (mkContent (Some "model") (Some [textPart "a"; callPart "ls"]))
              None)).
  split.
  - eexists _, _, _, _, (callPart "ls").
    split; [reflexivity|]. split; [by constructor|].
    split; [reflexivity|]. split; [reflexivity|].
    split; [by repeat constructor|by eexists].
  - eexists _, _, _, _, (textPart "a").
    split; [reflexivity|]. split; [by constructor|].
    split; [reflexivity|]. split; [reflexivity|].
    split; [by constructor|]. by exists "a".
Defined.

Lemma shouldRetry_iff_witness :
  shouldRetry (Some "timed out after 1500 ms") = true.
Proof.
  apply (proj2 (shouldRetry_iff (Some "timed out after 1500 ms"))).
  exists "timed out after 1500 ms". split; [reflexivity|]. right.
  exists "0"%char, "0"%char. split; [reflexivity|]. split; [reflexivity|].
  by exists "timed out after 1", " ms".
Defined.

Lemma apiCall_quota_guard_witness :
  sendMessage_apiCall "gemini-2.5-flash"
    (mkConfig "0123456789abcdef" true "" None true) ∅ ∅ [userTurn "hi"]
    "p1" "r1"
  = inl (ErrorObject "Error" quotaErrorMessage).
Proof.
  exact (proj1 (proj2 (apiCall_quota_guard "gemini-2.5-flash"
                         (mkConfig "0123456789abcdef" true "" None true)
                         ∅ ∅ [userTurn "hi"] "p1" "r1"))
           eq_refl (or_intror eq_refl)).
Defined.

Lemma handleFlashFallback_switches_only_when_accepted_witness :
  let r :=
    handleFlashFallback "qwen-oauth" "oauth-personal" "gemini-2.5-flash"
      (λ cfg m,
         mkConfig (getSessionId cfg) (getTelemetryEnabled cfg) m
           (getAuthType cfg) (getQuotaErrorOccurred cfg))
      (λ cfg _, cfg) demoConfig
      (Some (λ _ _ _ cfg, (cfg, inl AcceptedOther))) (Some "qwen-oauth")
      None in
  r.1.1 = demoConfig ∧ r.2 = None.
Proof.
  exact (proj1 (proj2
           (handleFlashFallback_switches_only_when_accepted "qwen-oauth"
              "oauth-personal" "gemini-2.5-flash"
              (λ cfg m,
                 mkConfig (getSessionId cfg) (getTelemetryEnabled cfg) m
                   (getAuthType cfg) (getQuotaErrorOccurred cfg))
              (λ cfg _, cfg) demoConfig
              (Some (λ _ _ _ cfg, (cfg, inl AcceptedOther)))
              (Some "qwen-oauth") None))
           (or_introl eq_refl)).
Defined.
